(** * RADAR event-derivation pipeline: clustering and scoring

    A shallow embedding of the Go package [internal/radar] (heuristic
    clusterer, LLM clusterer with fallback, scorer, quote selection) and the
    properties its specification states about them.

    Conventions of the embedding.
    - [float64] values are modelled by exact rationals [Q]: every arithmetic
      operation is the exact one, there is no NaN, no infinity and no
      rounding error.  Two [Q] values are compared with [=] where both
      sides are built by the same operations, and with [==] otherwise.
    - [time.Time] is an integer number of nanoseconds on the time line and
      [time.Duration] an integer number of nanoseconds.
    - Go strings are byte strings; the case mappings and the white space
      test of package [strings] are modelled on the ASCII range and leave
      every other byte unchanged; runes are counted as in well-formed
      UTF-8.  On a string that [isASCII] holds of, the functions of
      [GoStrings] are those of Go; on other strings Go also maps the
      letters and trims and splits at the white space that lie outside
      ASCII.  A property that would not hold of the program on such
      strings is stated for ASCII strings.
    - The claims' theorems compare a [float64] value of the program with
      a constant or with another such value only where the rounding error
      of [float64] cannot change the comparison.
    - A slice is a list; [nil] and the empty slice are both [[]].  Where
      the code mutates a slice that its caller still holds, the function of
      the embedding returns the mutated slice next to its result. *)

From Stdlib Require Import ZArith QArith Qround Qabs Lqa Lia.
From Stdlib Require Import String Ascii.
From stdpp Require Import base gmap sets list strings sorting pretty.

Local Open Scope Z_scope.

(** ** Package [strings] (ASCII range) *)

Module GoStrings.

Definition is_upper (c : ascii) : bool :=
  let n := nat_of_ascii c in (Nat.leb 65 n) && (Nat.leb n 90).

Definition is_lower (c : ascii) : bool :=
  let n := nat_of_ascii c in (Nat.leb 97 n) && (Nat.leb n 122).

Definition lower_byte (c : ascii) : ascii :=
  if is_upper c then ascii_of_nat (nat_of_ascii c + 32) else c.

Definition upper_byte (c : ascii) : ascii :=
  if is_lower c then ascii_of_nat (nat_of_ascii c - 32) else c.

Fixpoint map_bytes (f : ascii → ascii) (s : string) : string :=
  match s with
  | EmptyString => EmptyString
  | String c r => String (f c) (map_bytes f r)
  end.

Definition ToLower : string → string := map_bytes lower_byte.
Definition ToUpper : string → string := map_bytes upper_byte.

(** '\t', '\n', '\v', '\f', '\r' and ' '. *)
Definition is_space (c : ascii) : bool :=
  let n := nat_of_ascii c in ((Nat.leb 9 n) && (Nat.leb n 13)) || Nat.eqb n 32.

Fixpoint trim_left (s : string) : string :=
  match s with
  | String c r => if is_space c then trim_left r else s
  | EmptyString => EmptyString
  end.

(** The string without its trailing white space: a byte is kept when it
    is not a space or when something is kept after it. *)
Fixpoint trim_right (s : string) : string :=
  match s with
  | EmptyString => EmptyString
  | String c r =>
      match trim_right r with
      | EmptyString => if is_space c then EmptyString else String c EmptyString
      | r' => String c r'
      end
  end.

Definition TrimSpace (s : string) : string := trim_right (trim_left s).

(** [strings.Fields]: the maximal runs of non-space bytes.  [cur] is the
    field being read, in reverse. *)
Fixpoint fields_go (cur : list ascii) (s : string) : list string :=
  let flush := match cur with
               | [] => []
               | _ => [string_of_list_ascii (rev cur)]
               end in
  match s with
  | EmptyString => flush
  | String c r =>
      if is_space c then flush ++ fields_go [] r
      else fields_go (c :: cur) r
  end.

Definition Fields (s : string) : list string := fields_go [] s.

(** [strings.Index(s, c)] and [strings.LastIndex(s, c)] for a one-byte
    pattern; [None] stands for [-1]. *)
Fixpoint IndexByte (c : ascii) (s : string) : option nat :=
  match s with
  | EmptyString => None
  | String d r => if Ascii.eqb c d then Some 0%nat else S <$> IndexByte c r
  end.

Fixpoint LastIndexByte (c : ascii) (s : string) : option nat :=
  match s with
  | EmptyString => None
  | String d r =>
      match LastIndexByte c r with
      | Some i => Some (S i)
      | None => if Ascii.eqb c d then Some 0%nat else None
      end
  end.

(** [strings.Join]. *)
Fixpoint Join (elems : list string) (sep : string) : string :=
  match elems with
  | [] => ""
  | [e] => e
  | e :: rest => e +:+ sep +:+ Join rest sep
  end.

(** Runes of a string in UTF-8: a rune starts at every byte that is not a
    continuation byte (binary 10xxxxxx).  [RuneCount s] is [len([]rune(s))]
    and [RunePrefix max s] is [string([]rune(s)[:max])] when at least [max]
    runes are there. *)
Definition is_continuation (c : ascii) : bool :=
  let n := nat_of_ascii c in (Nat.leb 128 n) && (Nat.ltb n 192).

Fixpoint RuneCount (s : string) : nat :=
  match s with
  | EmptyString => 0%nat
  | String c r => if is_continuation c then RuneCount r else S (RuneCount r)
  end.

Fixpoint RunePrefix (max : nat) (s : string) : string :=
  match s with
  | EmptyString => EmptyString
  | String c r =>
      if is_continuation c then String c (RunePrefix max r)
      else match max with
           | O => EmptyString
           | S max' => String c (RunePrefix max' r)
           end
  end.

End GoStrings.

(** A string of ASCII bytes only: on such strings [GoStrings.ToUpper],
    [ToLower], [TrimSpace] and [Fields] are Go's [strings.ToUpper],
    [strings.ToLower], [strings.TrimSpace] and [strings.Fields]. *)
Definition isASCII (s : string) : Prop :=
  Forall (λ c, (nat_of_ascii c < 128)%nat) (list_ascii_of_string s).

#[global] Instance isASCII_dec s : Decision (isASCII s).
Proof. unfold isASCII. apply _. Defined.

(** ** Package [math] on exact rationals *)

Module GoMath.

Definition Qlt_bool (x y : Q) : bool := negb (Qle_bool y x).

Definition Min (x y : Q) : Q := if Qlt_bool x y then x else y.
Definition Max (x y : Q) : Q := if Qlt_bool y x then x else y.
Definition Abs (x : Q) : Q := Qabs x.

(** [math.Round]: the nearest integer, halves away from zero. *)
Definition Round (x : Q) : Q :=
  if Qlt_bool x 0 then inject_Z (- Qfloor (- x + (1 # 2))%Q)
  else inject_Z (Qfloor (x + (1 # 2))%Q).

Definition Pow10 (n : nat) : Q := inject_Z (10 ^ Z.of_nat n).

End GoMath.

(** ** Package [sort] *)

Module GoSort.

Section insertion.
Context {A : Type} (less : A → A → bool).

(** One pass of the inner loop of [insertionSortLessFunc]:
    [for j := i; j > a && less(j, j-1); j-- { swap(j, j-1) }].
    [before] is the already ordered prefix in reverse, so that its head
    is the element at index [j-1]. *)
Fixpoint sift (x : A) (before : list A) : list A :=
  match before with
  | [] => [x]
  | y :: r => if less x y then y :: sift x r else x :: y :: r
  end.

(** [sort.Slice(data, less)], as the insertion sort that the Go library
    runs on slices of at most 12 elements.  On longer slices the library
    runs pattern-defeating quicksort, which returns an ordered
    permutation too but may order elements that compare equal
    differently; the theorems below use only the two properties
    [Slice_Permutation] and [Slice_sorted], and every concrete
    evaluation is on a slice of at most 12 elements. *)
Definition Slice (data : list A) : list A :=
  rev (foldl (λ before x, sift x before) [] data).
End insertion.

(** [sort.Strings]: ascending byte-wise order.  The order is total and
    antisymmetric, so the ordered permutation is unique. *)
Definition Strings (l : list string) : list string := Slice String.ltb l.

End GoSort.

(** ** Package [time] *)

Module GoTime.

Definition Time := Z.
Definition Duration := Z.

Definition Hour : Duration := 3600 * 1000000000.
Definition maxDuration : Duration := 2 ^ 63 - 1.
Definition minDuration : Duration := - 2 ^ 63.

Definition Before (t u : Time) : bool := t <? u.
Definition After (t u : Time) : bool := u <? t.
Definition Add (t : Time) (d : Duration) : Time := t + d.

(** [t.Sub(u)] saturates at the bounds of [Duration]. *)
Definition Sub (t u : Time) : Duration :=
  Z.max minDuration (Z.min maxDuration (t - u)).

(** [d.Hours()]: whole hours plus the remaining nanoseconds over 3.6e12. *)
Definition Hours (d : Duration) : Q :=
  (inject_Z (Z.quot d Hour) + inject_Z (Z.rem d Hour) / inject_Z Hour)%Q.

End GoTime.

Import GoTime.

(** ** Data model (package [radar]) *)

Module NewsItem.
Record t := mk {
  ID : string;
  Headline : string;
  Summary : string;
  Body : string;
  Source : string;
  URL : string;
  Language : string;
  PublishedAt : Time;
  Tickers : list string;
  Entities : list string;
  Country : string;
  Category : string;
  Sentiment : Q;
  ImportanceTag : string
}.
End NewsItem.
Abbreviation NewsItem := NewsItem.t.

Module SourceRef.
Record t := mk {
  Title : string;
  Source : string;
  URL : string;
  Published : Time
}.
End SourceRef.
Abbreviation SourceRef := SourceRef.t.

Module TimelineEntry.
Record t := mk {
  Label : string;
  Source : string;
  URL : string;
  Timestamp : Time
}.
End TimelineEntry.
Abbreviation TimelineEntry := TimelineEntry.t.

Module Draft.
Record t := mk {
  Title : string;
  Lead : string;
  Bullets : list string;
  Quote : string
}.
End Draft.
Abbreviation Draft := Draft.t.

Module Event.
Record t := mk {
  DedupGroup : string;
  Headline : string;
  Hotness : Q;
  WhyNow : string;
  Entities : list string;
  Tickers : list string;
  Sources : list SourceRef;
  Timeline : list TimelineEntry;
  Draft : Draft.t
}.
(** The zero value [Event{}]. *)
Definition zero : t := mk "" "" 0%Q "" [] [] [] [] (Draft.mk "" "" [] "").
End Event.
Abbreviation Event := Event.t.

Module ClusterAnnotations.
Record t := mk {
  SummaryEN : string;
  SummaryRU : string;
  WhyNowEN : string;
  WhyNowRU : string;
  Entities : list string;
  Tickers : list string
}.
End ClusterAnnotations.
Abbreviation ClusterAnnotations := ClusterAnnotations.t.

Module Cluster.
Record t := mk {
  ID : string;
  Items : list NewsItem;
  Primary : NewsItem;
  StartTime : Time;
  EndTime : Time;
  Annotations : option ClusterAnnotations
}.
End Cluster.
Abbreviation Cluster := Cluster.t.

Module Scorer.
Record t := mk {
  SourceWeights : gmap string Q;
  TagWeights : gmap string Q
}.
End Scorer.
Abbreviation Scorer := Scorer.t.

(** ** Rendering helpers ([localize.go] and the draft builder) *)

Definition bilingual (en ru : string) : string :=
  let en := GoStrings.TrimSpace en in
  let ru := GoStrings.TrimSpace ru in
  if decide (en = "") then ru
  else if decide (ru = "") then en
  else en +:+ " / " +:+ ru.

Definition truncate (text : string) (max : nat) : string :=
  let text := GoStrings.TrimSpace text in
  if Nat.leb (GoStrings.RuneCount text) max then text
  else GoStrings.TrimSpace (GoStrings.RunePrefix max text) +:+ "…".

(** ** Scoring ([scoring.go], with the draft and timeline builders)

    The arithmetic of this section ([roundTo], [weightedSum],
    [averageSourceWeight] and the metrics of [buildEvent]) is the exact
    one on [Q].  The [float64] values of the program carry the rounding
    error of every operation: a mean or a weighted sum can differ in its
    last bits, and a hotness by 0.001 where the weighted sum lies on a
    rounding boundary of [roundTo]. *)

Definition float64_of_len {A} (l : list A) : Q := inject_Z (Z.of_nat (length l)).

Definition normalizeEntity (entity : string) : string :=
  GoStrings.TrimSpace (GoStrings.ToLower entity).

Definition clamp01 (v : Q) : Q :=
  if GoMath.Qlt_bool v 0 then 0%Q
  else if GoMath.Qlt_bool 1 v then 1%Q
  else v.

Definition roundTo (v : Q) (prec : nat) : Q :=
  let p := GoMath.Pow10 prec in (GoMath.Round (v * p) / p)%Q.

(** A missing key of a Go map reads as the zero value. *)
Definition weight_at (weights : gmap string Q) (k : string) : Q :=
  default 0%Q (weights !! k).

Definition weightedSum (weights : gmap string Q) : Q :=
  clamp01 (weight_at weights "coverage" * (18 # 100) +
           weight_at weights "velocity" * (18 # 100) +
           weight_at weights "credibility" * (15 # 100) +
           weight_at weights "sentiment" * (12 # 100) +
           weight_at weights "tag" * (18 # 100) +
           weight_at weights "breadth" * (12 # 100) +
           weight_at weights "novelty" * (7 # 100))%Q.

Definition averageSourceWeight (s : Scorer) (items : list NewsItem) : Q :=
  match items with
  | [] => (3 # 10)%Q
  | _ =>
      let total :=
        foldl (λ total item,
                 match Scorer.SourceWeights s !! GoStrings.ToLower (NewsItem.Source item) with
                 | Some w => (total + w)%Q
                 | None => (total + (5 # 10))%Q
                 end) 0%Q items in
      GoMath.Min 1 (total / float64_of_len items)
  end.

Definition tagWeight (s : Scorer) (items : list NewsItem) : Q :=
  let best :=
    foldl (λ best item,
             match Scorer.TagWeights s !! NewsItem.ImportanceTag item with
             | Some w => if GoMath.Qlt_bool best w then w else best
             | None => best
             end) 0%Q items in
  if Qeq_bool best 0 then (45 # 100)%Q else best.

(** [selectQuote] orders [sources] in place: the slice header is passed by
    value but shares its backing array with the caller's, so the caller's
    slice is left in the order returned here as second component. *)
Definition selectQuote (sources : list SourceRef) : string * list SourceRef :=
  match sources with
  | [] => ("", [])
  | _ =>
      let sorted :=
        GoSort.Slice (λ a b, Before (SourceRef.Published a) (SourceRef.Published b)) sources in
      match sorted with
      | source :: _ => (SourceRef.Source source +:+ " — " +:+ SourceRef.Title source, sorted)
      | [] => ("", sorted)
      end
  end.

Definition buildDraft (cluster : Cluster) (entities tickers : list string)
    (sources : list SourceRef) (whyNow : string) : Draft * list SourceRef :=
  let primary := Cluster.Primary cluster in
  let bullets := [] in
  let bullets :=
    match entities with
    | [] => bullets
    | _ => bullets ++ [bilingual "Impacts" "Влияние" +:+ ": " +:+ GoStrings.Join entities ", "]
    end in
  let bullets :=
    match tickers with
    | [] => bullets
    | _ => bullets ++ [bilingual "Tickers in focus" "Ключевые тикеры" +:+ ": "
                         +:+ GoStrings.Join tickers ", "]
    end in
  let bullets := bullets ++ [bilingual "Why now" "Почему сейчас" +:+ ": " +:+ whyNow] in
  let '(quote, sources) := selectQuote sources in
  let lead := NewsItem.Summary primary in
  let lead :=
    if decide (GoStrings.TrimSpace lead = "") then truncate (NewsItem.Body primary) 240
    else lead in
  let lead :=
    match Cluster.Annotations cluster with
    | Some annotations =>
        let llmLead := bilingual (ClusterAnnotations.SummaryEN annotations)
                                 (ClusterAnnotations.SummaryRU annotations) in
        if decide (GoStrings.TrimSpace llmLead ≠ "") then llmLead else lead
    | None => lead
    end in
  (Draft.mk (NewsItem.Headline primary) lead bullets quote, sources).

Definition byPublishedAt (a b : NewsItem) : bool :=
  Before (NewsItem.PublishedAt a) (NewsItem.PublishedAt b).

(** [buildTimeline]: the items in a copy ordered by time, labelled by
    position. *)
Definition buildTimeline (cluster : Cluster) : list TimelineEntry :=
  match Cluster.Items cluster with
  | [] => []
  | _ =>
      let items := GoSort.Slice byPublishedAt (Cluster.Items cluster) in
      let timeline :=
        imap (λ idx item,
                let label :=
                  if Nat.eqb idx 0 then bilingual "Initial" "Старт"
                  else if Nat.eqb idx (length items - 1) then bilingual "Latest" "Финал"
                  else bilingual "Update" "Обновление" in
                TimelineEntry.mk label (NewsItem.Source item) (NewsItem.URL item)
                  (NewsItem.PublishedAt item)) items in
      if Nat.leb 3 (length timeline)
      then imap (λ i entry,
                   if Nat.leb 1 i && Nat.ltb i (length timeline - 1)
                   then TimelineEntry.mk
                          (bilingual ("Update " +:+ pretty i) ("Обновление " +:+ pretty i))
                          (TimelineEntry.Source entry) (TimelineEntry.URL entry)
                          (TimelineEntry.Timestamp entry)
                   else entry) timeline
      else timeline
  end.

Definition composeWhyNow (s : Scorer) (coverage reach velocity sourceScore : Q) : string :=
  let notes := [] in
  let notes :=
    if GoMath.Qlt_bool 1 coverage
    then notes ++ [bilingual "multiple confirmations" "несколько подтверждений"]
    else notes in
  let notes :=
    if Qle_bool 2 reach
    then notes ++ [bilingual "broad asset impact" "широкое влияние на активы"]
    else notes in
  let notes :=
    if GoMath.Qlt_bool (8 # 10) velocity
    then notes ++ [bilingual "fast-moving timeline" "быстро развивающийся таймлайн"]
    else notes in
  let notes :=
    if GoMath.Qlt_bool (7 # 10) sourceScore
    then notes ++ [bilingual "high-credibility sources" "источники с высоким доверием"]
    else notes in
  let notes :=
    match notes with
    | [] => notes ++ [bilingual "fresh development" "свежее развитие событий"]
    | _ => notes
    end in
  GoStrings.Join notes "; ".

(** The variables that the loop of [buildEvent] updates. *)
Record scan := mkScan {
  sources : list SourceRef;
  tickers : list string;
  entities : list string;
  totalSentiment : Q;
  negativeCount : nat;
  earliest : Time;
  latest : Time;
  tickerSet : gset string;
  entitySet : gset string
}.

Definition scanTicker (st : list string * gset string) (ticker : string) :
    list string * gset string :=
  let t := GoStrings.ToUpper ticker in
  if decide (t ∈ st.2) then st else (st.1 ++ [t], {[t]} ∪ st.2).

Definition scanEntity (st : list string * gset string) (entity : string) :
    list string * gset string :=
  let en := normalizeEntity entity in
  if decide (en ∈ st.2) then st else (st.1 ++ [entity], {[en]} ∪ st.2).

Definition scanItem (st : scan) (item : NewsItem) : scan :=
  let ref := SourceRef.mk (NewsItem.Headline item) (NewsItem.Source item)
               (NewsItem.URL item) (NewsItem.PublishedAt item) in
  let tk := foldl scanTicker (tickers st, tickerSet st) (NewsItem.Tickers item) in
  let en := foldl scanEntity (entities st, entitySet st) (NewsItem.Entities item) in
  {| sources := sources st ++ [ref];
     tickers := tk.1;
     entities := en.1;
     totalSentiment := (totalSentiment st + GoMath.Abs (NewsItem.Sentiment item))%Q;
     negativeCount :=
       if GoMath.Qlt_bool (NewsItem.Sentiment item) 0 then S (negativeCount st)
       else negativeCount st;
     earliest :=
       if Before (NewsItem.PublishedAt item) (earliest st) then NewsItem.PublishedAt item
       else earliest st;
     latest :=
       if After (NewsItem.PublishedAt item) (latest st) then NewsItem.PublishedAt item
       else latest st;
     tickerSet := tk.2;
     entitySet := en.2 |}.

Definition scanItems (items : list NewsItem) (first : NewsItem) : scan :=
  foldl scanItem
    (mkScan [] [] [] 0%Q 0%nat (NewsItem.PublishedAt first) (NewsItem.PublishedAt first) ∅ ∅)
    items.

Definition novelty_of (coverage : Q) : Q :=
  if GoMath.Qlt_bool 1 coverage
  then (1 - GoMath.Min (6 # 10) ((coverage - 1) * (12 # 100)))%Q
  else 1%Q.

Definition velocity_of (earliest latest : Time) : Q :=
  let window := Sub latest earliest in
  if 0 <? window
  then GoMath.Max (2 # 10) (GoMath.Min 1 (6 / (Hours window + 1)))%Q
  else 1%Q.

Definition buildEvent (s : Scorer) (cluster : Cluster) : Event :=
  let items := Cluster.Items cluster in
  match items with
  | [] => Event.zero
  | first :: _ =>
      let st := scanItems items first in
      let tickers := GoSort.Strings (tickers st) in
      let entities := GoSort.Strings (entities st) in
      let coverage := float64_of_len items in
      let reach := float64_of_len tickers in
      let novelty := novelty_of coverage in
      let velocity := velocity_of (earliest st) (latest st) in
      let sourceScore := averageSourceWeight s items in
      let sentimentScore := GoMath.Min 1 (totalSentiment st / float64_of_len items) in
      let sentimentScore :=
        if Nat.ltb 0 (negativeCount st) && Nat.eqb (negativeCount st) (length items)
        then GoMath.Min 1 (sentimentScore + (15 # 100))
        else sentimentScore in
      let tagScore := tagWeight s items in
      let breadthScore := GoMath.Min 1 (reach / 4) in
      let extentScore := GoMath.Min 1 (float64_of_len entities / 6) in
      let hotness :=
        weightedSum
          (<["coverage" := GoMath.Min 1 (coverage / 4)]>
           (<["velocity" := velocity]>
            (<["credibility" := sourceScore]>
             (<["sentiment" := sentimentScore]>
              (<["tag" := tagScore]>
               (<["breadth" := ((6 # 10) * breadthScore + (4 # 10) * extentScore)%Q]>
                (<["novelty" := novelty]> ∅))))))) in
      let whyNow := composeWhyNow s coverage reach velocity sourceScore in
      let whyNow :=
        match Cluster.Annotations cluster with
        | Some annotations =>
            let llmWhy := bilingual (ClusterAnnotations.WhyNowEN annotations)
                                    (ClusterAnnotations.WhyNowRU annotations) in
            if decide (GoStrings.TrimSpace llmWhy ≠ "") then
              if decide (GoStrings.TrimSpace whyNow ≠ "") then llmWhy +:+ " | " +:+ whyNow
              else llmWhy
            else whyNow
        | None => whyNow
        end in
      let '(draft, sources) := buildDraft cluster entities tickers (sources st) whyNow in
      let timeline := buildTimeline cluster in
      {| Event.DedupGroup := Cluster.ID cluster;
         Event.Headline := NewsItem.Headline (Cluster.Primary cluster);
         Event.Hotness := roundTo hotness 3;
         Event.WhyNow := whyNow;
         Event.Entities := entities;
         Event.Tickers := tickers;
         Event.Sources := sources;
         Event.Timeline := timeline;
         Event.Draft := draft |}
  end.

Definition ScoreClusters (s : Scorer) (clusters : list Cluster) : list Event :=
  match clusters with
  | [] => []
  | _ =>
      let events :=
        foldl (λ events cluster,
                 let event := buildEvent s cluster in
                 if Qle_bool (Event.Hotness event) 0 then events
                 else events ++ [event]) [] clusters in
      GoSort.Slice (λ ei ej, GoMath.Qlt_bool (Event.Hotness ej) (Event.Hotness ei)) events
  end.

(** ** Tokenizer and similarity (in [ingest_source.go]) *)

(** The twelve bytes that the replacer of [tokenize] turns into a space:
    comma, full stop, colon, semicolon, exclamation and question mark, the
    two parentheses, single and double quote, hyphen and underscore. *)
Definition is_punctuation (c : ascii) : bool :=
  bool_decide (nat_of_ascii c ∈ [44; 46; 58; 59; 33; 63; 40; 41; 39; 34; 45; 95]%nat).

Definition replacePunctuation : string → string :=
  GoStrings.map_bytes (λ c, if is_punctuation c then " "%char else c).

Definition tokenize (s : string) : list string :=
  let normalized := GoStrings.ToLower (replacePunctuation s) in
  let parts := GoStrings.Fields normalized in
  foldl (λ tokens p, if Nat.leb (String.length p) 2 then tokens else tokens ++ [p]) [] parts.

(** The set [map[string]struct{}] filled from a slice. *)
Definition set_of (l : list string) : gset string :=
  foldl (λ set t, {[t]} ∪ set) ∅ l.

Definition similarityScore (a b : string) : Q :=
  let tokensA := tokenize a in
  let tokensB := tokenize b in
  if Nat.eqb (length tokensA) 0 || Nat.eqb (length tokensB) 0 then 0%Q
  else
    let setA := set_of tokensA in
    let setB := set_of tokensB in
    let intersection :=
      foldl (λ n token, if decide (token ∈ setB) then S n else n) 0%nat (elements setA) in
    let union := Z.of_nat (size setA) + Z.of_nat (size setB) - Z.of_nat intersection in
    if union =? 0 then 0%Q
    else (inject_Z (Z.of_nat intersection) / inject_Z union)%Q.

Definition sharesToken (a b : list string) : bool :=
  match a, b with
  | [], _ | _, [] => false
  | _, _ =>
      let set := foldl (λ set v, {[GoStrings.ToUpper v]} ∪ set) (∅ : gset string) a in
      existsb (λ v, bool_decide (GoStrings.ToUpper v ∈ set)) b
  end.

Definition areRelated (a b : NewsItem) (threshold : Q) : bool :=
  if sharesToken (NewsItem.Tickers a) (NewsItem.Tickers b)
     || sharesToken (NewsItem.Entities a) (NewsItem.Entities b)
  then true
  else Qle_bool threshold (similarityScore (NewsItem.Headline a) (NewsItem.Headline b)).

Definition clusterContainsRelated (cluster : Cluster) (candidate : NewsItem) (threshold : Q) : bool :=
  existsb (λ existing, areRelated existing candidate threshold) (Cluster.Items cluster).

Definition withinWindow (start end_ ts : Time) (window : Duration) : bool :=
  if Before ts (Add start (- window)) then false
  else if After ts (Add end_ window) then false
  else true.

(** ** Heuristic clusterer (in [ingest_source.go]) *)

Module HeuristicClusterer.
Record t := mk {
  TimeWindow : Duration;
  SimilarityThreshold : Q;
  MaxClusterSize : Z
}.
End HeuristicClusterer.
Abbreviation HeuristicClusterer := HeuristicClusterer.t.

Definition NewHeuristicClusterer (timeWindow : Duration) (threshold : Q) : HeuristicClusterer :=
  let timeWindow := if timeWindow =? 0 then 6 * Hour else timeWindow in
  let threshold :=
    if Qle_bool threshold 0 || GoMath.Qlt_bool 1 threshold then (45 # 100)%Q else threshold in
  HeuristicClusterer.mk timeWindow threshold 12.

Definition len {A} (l : list A) : Z := Z.of_nat (length l).

(** The body of [if clusterContainsRelated(...)]: the cluster after it has
    taken [item]. *)
Definition absorb (cluster : Cluster) (item : NewsItem) : Cluster :=
  let ts := NewsItem.PublishedAt item in
  {| Cluster.ID := Cluster.ID cluster;
     Cluster.Items := Cluster.Items cluster ++ [item];
     Cluster.Primary :=
       if Before ts (NewsItem.PublishedAt (Cluster.Primary cluster)) then item
       else Cluster.Primary cluster;
     Cluster.StartTime :=
       if Before ts (Cluster.StartTime cluster) then ts else Cluster.StartTime cluster;
     Cluster.EndTime :=
       if After ts (Cluster.EndTime cluster) then ts else Cluster.EndTime cluster;
     Cluster.Annotations := Cluster.Annotations cluster |}.

(** The inner loop [for idx := range clusters]: [Some] of the clusters
    after the first admissible one has taken [item], [None] when the loop
    ends with [assigned] still false. *)
Fixpoint assign (c : HeuristicClusterer) (item : NewsItem) (clusters : list Cluster) :
    option (list Cluster) :=
  match clusters with
  | [] => None
  | cluster :: rest =>
      if HeuristicClusterer.MaxClusterSize c <=? len (Cluster.Items cluster)
      then cons cluster <$> assign c item rest
      else if negb (withinWindow (Cluster.StartTime cluster) (Cluster.EndTime cluster)
                      (NewsItem.PublishedAt item) (HeuristicClusterer.TimeWindow c))
      then cons cluster <$> assign c item rest
      else if clusterContainsRelated cluster item (HeuristicClusterer.SimilarityThreshold c)
      then Some (absorb cluster item :: rest)
      else cons cluster <$> assign c item rest
  end.

Section Heuristic.
(** [uuid.NewString()]: [uuid k] is the identifier drawn when [k] have
    been drawn before in the same call. *)
Variable uuid : nat → string.

Definition place (c : HeuristicClusterer) (clusters : list Cluster) (item : NewsItem) :
    list Cluster :=
  match assign c item clusters with
  | Some clusters => clusters
  | None =>
      clusters ++ [Cluster.mk (uuid (length clusters)) [item] item
                     (NewsItem.PublishedAt item) (NewsItem.PublishedAt item) None]
  end.

(** [HeuristicClusterer.BuildClusters]; its error result is always [nil].
    The call also leaves the caller's [items] ordered by time. *)
Definition BuildClusters (c : HeuristicClusterer) (items : list NewsItem) : list Cluster :=
  match items with
  | [] => []
  | _ => foldl (place c) [] (GoSort.Slice byPublishedAt items)
  end.
End Heuristic.

(** The items of all the clusters, in the order of the clusters. *)
Abbreviation allItems clusters := (concat (Cluster.Items <$> clusters)).

(** What every cluster of the heuristic clusterer satisfies at every step:
    it has an item, and at most [MaxClusterSize] of them when that bound is
    at least 1. *)
Definition wellSized (c : HeuristicClusterer) (cl : Cluster) : Prop :=
  Cluster.Items cl ≠ [] ∧
  (1 <= HeuristicClusterer.MaxClusterSize c →
   len (Cluster.Items cl) <= HeuristicClusterer.MaxClusterSize c).

(** ** Errors and results *)

(** The error values that the package builds. *)
Inductive error :=
  | errorString (msg : string)
  | wrapError (msg : string) (cause : error)
  | fallbackError (fbErr cause : error).

(** A Go result pair [(value, error)] with exactly one side set. *)
Inductive result (A : Type) :=
  | Ok (a : A)
  | Err (e : error).
Arguments Ok {A} a.
Arguments Err {A} e.

(** The interface [ClusterEngine]. *)
Definition ClusterEngine := list NewsItem → result (list Cluster).

Definition HeuristicEngine (uuid : nat → string) (c : HeuristicClusterer) : ClusterEngine :=
  λ items, Ok (BuildClusters uuid c items).

(** ** Package [llm]: the chat capability *)

Module llm.
Record Message := mkMessage {
  Role : string;
  Content : string
}.
Record ChatCompletionRequest := mkRequest {
  Model : string;
  Messages : list Message;
  Temperature : Q;
  MaxTokens : Z;
  TopP : Q
}.
Record Choice := mkChoice {
  MessageRole : string;
  MessageContent : string;
  FinishReason : string;
  Index : Z
}.
Record ChatCompletionResponse := mkResponse {
  Choices : list Choice
}.
(** The interface [ChatClient]; [St] is the state that the implementation
    keeps between calls. *)
Definition ChatClient (St : Type) : Type :=
  ChatCompletionRequest → St → result ChatCompletionResponse * St.
End llm.

(** The test double of [llm_clusterer_test.go]. *)
Module fakeChatClient.
Record t := mk {
  response : string;
  err : option error;
  calls : nat
}.
Definition ChatCompletion : llm.ChatClient t :=
  λ req f,
    match err f with
    | Some e => (Err e, f)
    | None =>
        (Ok (llm.mkResponse [llm.mkChoice "" (response f) "" 0]),
         mk (response f) (err f) (S (calls f)))
    end.
End fakeChatClient.

(** ** LLM clusterer ([llm_clusterer.go]) *)

(** One element of [decoded.Clusters]. *)
Module llmCluster.
Record t := mk {
  ID : string;
  NewsIDs : list string;
  PrimaryNewsID : string;
  SummaryEN : string;
  SummaryRU : string;
  WhyNowEN : string;
  WhyNowRU : string;
  Entities : list string;
  Tickers : list string
}.
End llmCluster.
Abbreviation llmCluster := llmCluster.t.

Definition extractJSON (content : string) : string :=
  match GoStrings.IndexByte "{" content, GoStrings.LastIndexByte "}" content with
  | Some start, Some end_ =>
      if Nat.leb end_ start then ""
      else String.substring start (end_ + 1 - start) content
  | _, _ => ""
  end.

Definition preferID (candidate fallback : string) : string :=
  let candidate := GoStrings.TrimSpace candidate in
  if decide (candidate ≠ "") then candidate else fallback.

Definition collectStrings (items : list NewsItem) (selector : NewsItem → list string) :
    list string :=
  let set : gset string :=
    foldl (λ set item,
             foldl (λ set val,
                      let val := GoStrings.TrimSpace val in
                      if decide (val = "") then set else {[val]} ∪ set)
                   set (selector item))
          ∅ items in
  GoSort.Strings (elements set).

Definition withSummary (n : NewsItem) (summary : string) : NewsItem :=
  NewsItem.mk (NewsItem.ID n) (NewsItem.Headline n) summary (NewsItem.Body n)
    (NewsItem.Source n) (NewsItem.URL n) (NewsItem.Language n) (NewsItem.PublishedAt n)
    (NewsItem.Tickers n) (NewsItem.Entities n) (NewsItem.Country n) (NewsItem.Category n)
    (NewsItem.Sentiment n) (NewsItem.ImportanceTag n).

Definition itemByID_of (items : list NewsItem) : gmap string NewsItem :=
  foldl (λ m item, <[NewsItem.ID item := item]> m) ∅ items.

(** The body of the loop of [parseResponse] over the declared clusters:
    [None] where the loop continues without appending. *)
Definition resolveCluster (itemByID : gmap string NewsItem) (cluster : llmCluster) :
    option Cluster :=
  let clusterItems := omap (λ id, itemByID !! id) (llmCluster.NewsIDs cluster) in
  match clusterItems with
  | [] => None
  | first :: _ =>
      let primary := first in
      let primary :=
        if decide (llmCluster.PrimaryNewsID cluster ≠ "") then
          match itemByID !! llmCluster.PrimaryNewsID cluster with
          | Some candidate => candidate
          | None => primary
          end
        else primary in
      let clusterItems := GoSort.Slice byPublishedAt clusterItems in
      let start := NewsItem.PublishedAt (List.hd first clusterItems) in
      let end_ := NewsItem.PublishedAt (List.last clusterItems first) in
      let entities :=
        match llmCluster.Entities cluster with
        | [] => collectStrings clusterItems NewsItem.Entities
        | entities => entities
        end in
      let tickers :=
        match llmCluster.Tickers cluster with
        | [] => collectStrings clusterItems NewsItem.Tickers
        | tickers => tickers
        end in
      let annotation :=
        ClusterAnnotations.mk (llmCluster.SummaryEN cluster) (llmCluster.SummaryRU cluster)
          (llmCluster.WhyNowEN cluster) (llmCluster.WhyNowRU cluster) entities tickers in
      let primary :=
        if bool_decide (ClusterAnnotations.SummaryEN annotation ≠ "")
           && bool_decide (NewsItem.Summary primary = "")
        then withSummary primary (ClusterAnnotations.SummaryEN annotation)
        else primary in
      Some (Cluster.mk (preferID (llmCluster.ID cluster) (NewsItem.ID primary))
              clusterItems primary start end_ (Some annotation))
  end.

Section LLM.
(** The client state, and the parts of the libraries that the clusterer
    calls: [json.MarshalIndent] on the prompt payload built from the items,
    the text of the user prompt around that payload, and [json.Unmarshal]
    into [decoded], giving [decoded.Clusters]. *)
Context {St : Type}.
Variable json_MarshalIndent : list NewsItem → result string.
Variable userPrompt : string → string.
Variable json_Unmarshal : string → result (list llmCluster).

Record LLMClusterer := mkLLMClusterer {
  Client : option (llm.ChatClient St);
  Model : string;
  Temperature : Q;
  MaxTokens : Z;
  MaxItems : Z;
  Fallback : option ClusterEngine
}.

Definition buildWithFallback (c : LLMClusterer) (items : list NewsItem) (cause : error) :
    result (list Cluster) :=
  match Fallback c with
  | Some fallback =>
      match fallback items with
      | Err fbErr => Err (fallbackError fbErr cause)
      | Ok clusters => Ok clusters
      end
  | None => Err cause
  end.

Definition systemContent : string :=
  "You are RADAR, an expert financial analyst who groups related financial news into distinct market events. Respond STRICTLY with valid JSON.".

Definition buildPrompt (items : list NewsItem) : result (list llm.Message) :=
  match json_MarshalIndent items with
  | Err err => Err (wrapError "llm prompt marshal" err)
  | Ok newsJSON =>
      Ok [llm.mkMessage "system" systemContent; llm.mkMessage "user" (userPrompt newsJSON)]
  end.

Definition parseResponse (content : string) (items : list NewsItem) : result (list Cluster) :=
  let jsonPayload := extractJSON content in
  if decide (jsonPayload = "") then Err (errorString "llm response missing json payload")
  else
    match json_Unmarshal jsonPayload with
    | Err err => Err (wrapError "llm response decode" err)
    | Ok [] => Err (errorString "llm response contains no clusters")
    | Ok decoded => Ok (omap (resolveCluster (itemByID_of items)) decoded)
    end.

(** The items that go into the prompt: the first [MaxItems] of the input
    when that bound is set and exceeded, ordered by time in a copy. *)
Definition promptItems (c : LLMClusterer) (items : list NewsItem) : list NewsItem :=
  let limited :=
    if (0 <? MaxItems c) && (MaxItems c <? len items)
    then take (Z.to_nat (MaxItems c)) items
    else items in
  GoSort.Slice byPublishedAt limited.

Definition requestFor (c : LLMClusterer) (payload : list llm.Message) :
    llm.ChatCompletionRequest :=
  llm.mkRequest (Model c) payload (Temperature c) (MaxTokens c) (9 # 10).

(** [LLMClusterer.BuildClusters], with the state of the chat client passed
    in and out. *)
Definition LLMBuildClusters (c : LLMClusterer) (items : list NewsItem) (st : St) :
    result (list Cluster) * St :=
  match items with
  | [] => (Ok [], st)
  | _ =>
      match Client c with
      | None => (buildWithFallback c items (errorString "llm clusterer misconfigured"), st)
      | Some client =>
          if decide (Model c = "")
          then (buildWithFallback c items (errorString "llm clusterer misconfigured"), st)
          else
            let sorted := promptItems c items in
            match buildPrompt sorted with
            | Err err => (buildWithFallback c items err, st)
            | Ok payload =>
                let req := requestFor c payload in
                match client req st with
                | (Err err, st) => (buildWithFallback c items err, st)
                | (Ok resp, st) =>
                    match llm.Choices resp with
                    | [] =>
                        (buildWithFallback c items (errorString "llm response missing choices"), st)
                    | choice :: _ =>
                        match parseResponse (llm.MessageContent choice) items with
                        | Err err => (buildWithFallback c items err, st)
                        | Ok [] =>
                            (buildWithFallback c items
                               (errorString "llm response returned no clusters"), st)
                        | Ok clusters => (Ok clusters, st)
                        end
                    end
                end
            end
      end
  end.

(** The failures of the LLM path on a non-empty input, each with the cause
    that the code hands to [buildWithFallback]: misconfiguration, a prompt
    that cannot be marshalled, an error of the chat client, a response
    without choices, a content that does not parse (no JSON object, invalid
    JSON, no declared cluster), and a parse that resolves to no cluster. *)
Inductive LLMFailure (c : LLMClusterer) (items : list NewsItem) (st : St) : error → Prop :=
  | failMisconfigured :
      Client c = None ∨ Model c = "" →
      LLMFailure c items st (errorString "llm clusterer misconfigured")
  | failPrompt client err :
      Client c = Some client → Model c ≠ "" →
      buildPrompt (promptItems c items) = Err err →
      LLMFailure c items st err
  | failClient client payload err st' :
      Client c = Some client → Model c ≠ "" →
      buildPrompt (promptItems c items) = Ok payload →
      client (requestFor c payload) st = (Err err, st') →
      LLMFailure c items st err
  | failNoChoices client payload resp st' :
      Client c = Some client → Model c ≠ "" →
      buildPrompt (promptItems c items) = Ok payload →
      client (requestFor c payload) st = (Ok resp, st') →
      llm.Choices resp = [] →
      LLMFailure c items st (errorString "llm response missing choices")
  | failParse client payload resp st' choice choices err :
      Client c = Some client → Model c ≠ "" →
      buildPrompt (promptItems c items) = Ok payload →
      client (requestFor c payload) st = (Ok resp, st') →
      llm.Choices resp = choice :: choices →
      parseResponse (llm.MessageContent choice) items = Err err →
      LLMFailure c items st err
  | failNoClusters client payload resp st' choice choices :
      Client c = Some client → Model c ≠ "" →
      buildPrompt (promptItems c items) = Ok payload →
      client (requestFor c payload) st = (Ok resp, st') →
      llm.Choices resp = choice :: choices →
      parseResponse (llm.MessageContent choice) items = Ok [] →
      LLMFailure c items st (errorString "llm response returned no clusters").

(** What a caller sees when the fallback engine [fb] serves a failure of
    cause [cause]. *)
Definition fallbackOutcome (fb : ClusterEngine) (items : list NewsItem) (cause : error) :
    result (list Cluster) :=
  match fb items with
  | Ok clusters => Ok clusters
  | Err fbErr => Err (fallbackError fbErr cause)
  end.

End LLM.

Arguments LLMClusterer St : clear implicits.

(** A chat client observed from outside: the counter goes up at every call
    that reaches the client. *)
Definition countingClient {St} (client : llm.ChatClient St) : llm.ChatClient (St * nat) :=
  λ req st,
    let '(resp, st') := client req st.1 in (resp, (st', S st.2)).

(** Two successive calls of [BuildClusters] on the same clusterer. *)
Definition buildTwice {St} json_MarshalIndent userPrompt json_Unmarshal
    (c : LLMClusterer St) (items : list NewsItem) (st : St) :
    result (list Cluster) * result (list Cluster) * St :=
  let '(r1, st1) := LLMBuildClusters json_MarshalIndent userPrompt json_Unmarshal c items st in
  let '(r2, st2) := LLMBuildClusters json_MarshalIndent userPrompt json_Unmarshal c items st1 in
  (r1, r2, st2).

(** ** The scorer's metrics as the specification words them (section 4.7)

    These definitions follow the text of the specification, not the code;
    the theorems compare them with [buildEvent]. *)

Definition sumQ (l : list Q) : Q := foldl Qplus 0%Q l.

Definition meanQ (l : list Q) : Q := (sumQ l / float64_of_len l)%Q.

(** The greatest element of [l], [d] for the empty list. *)
Definition maxQ (l : list Q) (d : Q) : Q :=
  match l with
  | [] => d
  | x :: r => foldl (λ best w, GoMath.Max w best) x r
  end.

Definition allTickers (items : list NewsItem) : list string :=
  items ≫= NewsItem.Tickers.

Definition allEntities (items : list NewsItem) : list string :=
  items ≫= NewsItem.Entities.

(** Deduplication under a key that keeps the first occurrence of every key,
    in the order of those first occurrences. *)
Definition dedup_first (key : string → string) (l : list string) : list string :=
  foldr (λ x kept, x :: filter (λ y, key y ≠ key x) kept) [] l.

(** coverage = |items| *)
Definition spec_coverage (items : list NewsItem) : Q := float64_of_len items.

(** reach = |unique tickers| (uppercased) *)
Definition spec_reach (items : list NewsItem) : Q :=
  inject_Z (Z.of_nat (size (list_to_set (GoStrings.ToUpper <$> allTickers items) : gset string))).

(** |entities|, the entities counted once per case-insensitive name *)
Definition spec_entityCount (items : list NewsItem) : Q :=
  inject_Z (Z.of_nat (size (list_to_set (normalizeEntity <$> allEntities items) : gset string))).

(** novelty = 1 if coverage ≤ 1, else 1 − min(0.6, (coverage−1)·0.12) *)
Definition spec_novelty (items : list NewsItem) : Q :=
  let coverage := spec_coverage items in
  if Qle_bool coverage 1 then 1%Q
  else (1 - GoMath.Min (6 # 10) ((coverage - 1) * (12 # 100)))%Q.

Definition timestamps (items : list NewsItem) : list Time := NewsItem.PublishedAt <$> items.

Definition minTime (l : list Time) (d : Time) : Time := foldr Z.min d l.
Definition maxTime (l : list Time) (d : Time) : Time := foldr Z.max d l.

(** velocity: h = hours(end − start); 1 if h = 0, else max(0.2, min(1, 6/(h+1))),
    start and end being the least and the greatest timestamp of the items *)
Definition spec_velocity (items : list NewsItem) : Q :=
  match timestamps items with
  | [] => 1%Q
  | t :: ts =>
      let h := Hours (Sub (maxTime ts t) (minTime ts t)) in
      if Qeq_bool h 0 then 1%Q
      else GoMath.Max (2 # 10) (GoMath.Min 1 (6 / (h + 1)))%Q
  end.

Definition sourceWeightOf (s : Scorer) (item : NewsItem) : Q :=
  default (5 # 10)%Q (Scorer.SourceWeights s !! GoStrings.ToLower (NewsItem.Source item)).

(** sourceScore: mean of the per-item source weights (0.5 for an unknown
    source), clamped to [0,1]; 0.3 for zero items *)
Definition spec_sourceScore (s : Scorer) (items : list NewsItem) : Q :=
  match items with
  | [] => (3 # 10)%Q
  | _ => clamp01 (meanQ (sourceWeightOf s <$> items))
  end.

(** sentimentScore = min(1, mean(|sentiment|)); plus 0.15, clamped, if every
    item has negative sentiment *)
Definition spec_sentimentScore (items : list NewsItem) : Q :=
  let base := GoMath.Min 1 (meanQ ((λ i, Qabs (NewsItem.Sentiment i)) <$> items)) in
  if forallb (λ i, GoMath.Qlt_bool (NewsItem.Sentiment i) 0) items
  then clamp01 (base + (15 # 100))
  else base.

Definition matchedTagWeights (s : Scorer) (items : list NewsItem) : list Q :=
  omap (λ i, Scorer.TagWeights s !! NewsItem.ImportanceTag i) items.

(** tagScore: maximum configured weight among the items' importance tags;
    0.45 if none match *)
Definition spec_tagScore (s : Scorer) (items : list NewsItem) : Q :=
  maxQ (matchedTagWeights s items) (45 # 100).

(** breadth = min(1, reach/4), extent = min(1, |entities|/6) *)
Definition spec_breadthScore (items : list NewsItem) : Q :=
  GoMath.Min 1 (spec_reach items / 4).
Definition spec_extentScore (items : list NewsItem) : Q :=
  GoMath.Min 1 (spec_entityCount items / 6).

(** The weighted sum of the specification, clamped and rounded, over a
    source score and a tag score given as arguments. *)
Definition hotness_formula (sourceScore tagScore : Q) (items : list NewsItem) : Q :=
  roundTo
    (clamp01 ((18 # 100) * GoMath.Min 1 (spec_coverage items / 4) +
              (18 # 100) * spec_velocity items +
              (15 # 100) * sourceScore +
              (12 # 100) * spec_sentimentScore items +
              (18 # 100) * tagScore +
              (12 # 100) * ((6 # 10) * spec_breadthScore items + (4 # 10) * spec_extentScore items) +
              (7 # 100) * spec_novelty items)%Q) 3.

Definition spec_hotness (s : Scorer) (items : list NewsItem) : Q :=
  hotness_formula (spec_sourceScore s items) (spec_tagScore s items) items.

(** The two metrics as [averageSourceWeight] and [tagWeight] compute them:
    the mean source weight capped at 1 but not raised to 0, and the largest
    positive tag weight among the matches, 0.45 when no match is positive. *)
Definition capped_sourceScore (s : Scorer) (items : list NewsItem) : Q :=
  GoMath.Min 1 (meanQ (sourceWeightOf s <$> items)).

Definition positive_tagScore (s : Scorer) (items : list NewsItem) : Q :=
  let best := foldl (λ best w, GoMath.Max w best) 0%Q (matchedTagWeights s items) in
  if Qeq_bool best 0 then (45 # 100)%Q else best.

Definition code_hotness (s : Scorer) (items : list NewsItem) : Q :=
  hotness_formula (capped_sourceScore s items) (positive_tagScore s items) items.

(** The ticker and entity lists of an event as the specification words
    them: tickers uppercased and deduplicated; entities deduplicated
    case-insensitively, in original case and first-seen order. *)
Definition spec_tickers (items : list NewsItem) : list string :=
  dedup_first id (GoStrings.ToUpper <$> allTickers items).

Definition spec_entities (items : list NewsItem) : list string :=
  dedup_first normalizeEntity (allEntities items).

(** The source reference of an item: title, source, url and time. *)
Definition sourceRefOf (item : NewsItem) : SourceRef :=
  SourceRef.mk (NewsItem.Headline item) (NewsItem.Source item)
    (NewsItem.URL item) (NewsItem.PublishedAt item).

(** The order of the specification on a list of events: hotness never
    increases, and of two events of equal hotness the one with the smaller
    dedup-group id comes first. *)
Definition hotness_descending (events : list Event) : Prop :=
  ∀ i j ei ej, (i < j)%nat → events !! i = Some ei → events !! j = Some ej →
    (Event.Hotness ej <= Event.Hotness ei)%Q.

Definition ties_by_id (events : list Event) : Prop :=
  ∀ i j ei ej, (i < j)%nat → events !! i = Some ei → events !! j = Some ej →
    (Event.Hotness ei == Event.Hotness ej)%Q →
    String.le (Event.DedupGroup ei) (Event.DedupGroup ej).

(** ** Fixtures *)

Definition item (id source : string) (ts : Time) (tickers entities : list string)
    (sentiment : Q) (tag : string) : NewsItem :=
  NewsItem.mk id ("Headline " +:+ id) "" "" source ("https://example.com/" +:+ id) "en" ts
    tickers entities "" "" sentiment tag.

Definition clusterOf (id : string) (items : list NewsItem) (primary : NewsItem) : Cluster :=
  Cluster.mk id items primary (NewsItem.PublishedAt primary) (NewsItem.PublishedAt primary) None.

(** A scorer that knows the single source "wire" with weight [w]. *)
Definition scorerWithSource (w : Q) : Scorer := Scorer.mk {[ "wire" := w ]} ∅.

(** The weights of [DefaultScorer]. *)
Definition DefaultScorer : Scorer :=
  Scorer.mk
    (<["bloomberg" := (9 # 10)%Q]> (<["reuters" := (88 # 100)%Q]>
     (<["financial times" := (85 # 100)%Q]> (<["central bank" := (92 # 100)%Q]>
     (<["company call" := (75 # 100)%Q]> (<["marketwatch" := (7 # 10)%Q]>
     (<["finchat" := (45 # 100)%Q]> ∅)))))))
    (<["guidance_cut" := (95 # 100)%Q]> (<["supply_chain" := (85 # 100)%Q]>
     (<["macro_policy" := (8 # 10)%Q]> (<["flows" := (6 # 10)%Q]>
     (<["management_comment" := (55 # 100)%Q]> (<["positioning" := (58 # 100)%Q]> ∅)))))).

(** A clusterer written as a struct literal without [MaxClusterSize]. *)
Definition unboundedClusterer : HeuristicClusterer :=
  HeuristicClusterer.mk (6 * Hour) (45 # 100) 0.

Definition wireItem : NewsItem := item "n1" "Wire" 100 [] [] 0 "".
Definition wireCluster : Cluster := clusterOf "c1" [wireItem] wireItem.

Definition itemA : NewsItem := item "a" "Reuters" 100 ["cma"; "CMA"] ["Zeta"; "Alpha"; "alpha "] 0 "".
Definition itemB : NewsItem := item "b" "Bloomberg" 200 ["xyz"] ["Beta"] 0 "".

(** Two clusters of one item each with the same metrics, and a cluster
    whose later item comes first. *)
Definition clusterA : Cluster := clusterOf "a" [itemA] itemA.
Definition clusterB : Cluster := clusterOf "b" [item "b" "Reuters" 100 [] [] 0 ""]
                                  (item "b" "Reuters" 100 [] [] 0 "").
Definition clusterA' : Cluster := clusterOf "a" [item "a" "Reuters" 100 [] [] 0 ""]
                                   (item "a" "Reuters" 100 [] [] 0 "").
Definition clusterBA : Cluster := clusterOf "ba" [itemB; itemA] itemA.

(** Scenario S1 of the specification: four items, the first pair sharing a
    ticker, the second pair an entity. *)
Definition story (id headline : string) (minutes : Z) (tickers entities : list string) :
    NewsItem :=
  NewsItem.mk id headline "" "" "Reuters" ("https://example.com/" +:+ id) "en"
    (minutes * 60 * 1000000000) tickers entities "" "" 0 "".

Definition storyA : NewsItem := story "a" "Company A cuts guidance" 480 ["CMA"] ["Company A"].
Definition storyB : NewsItem :=
  story "b" "Factory fire hits Company A supplier" 570 ["cma"] [].
Definition storyC : NewsItem :=
  story "c" "Central Bank signals rate pause" 840 [] ["Central Bank"].
Definition storyD : NewsItem :=
  story "d" "Bond desks reposition after policy remarks" 910 [] ["central bank"].

(** Two items for the LLM clusterer, the earlier one first. *)
Definition llmItem1 : NewsItem := item "n1" "Reuters" 100 [] [] 0 "".
Definition llmItem2 : NewsItem := item "n2" "Bloomberg" 200 [] [] 0 "".

(** A declared cluster that lists the later item first and names no
    primary, and one that names "n1". *)
Definition declaredLaterFirst : llmCluster :=
  llmCluster.mk "event_1" ["n2"; "n1"] "" "" "" "" "" [] [].
Definition declaredSame : llmCluster :=
  llmCluster.mk "same" ["n1"; "n2"] "n1" "" "" "" "" [] [].

(** Stand-ins for the JSON library in concrete evaluations: a marshaller
    that succeeds, a prompt text, and a decoder that yields [clusters]. *)
Definition marshalStub : list NewsItem → result string := λ _, Ok "[]".
Definition promptStub : string → string := λ newsJSON, "News payload: " +:+ newsJSON.
Definition decodeTo (clusters : list llmCluster) : string → result (list llmCluster) :=
  λ _, Ok clusters.

(** The clusterers of [llm_clusterer_test.go]: the fake client, the model
    name and a fallback. *)
Definition testClusterer (fallback : option ClusterEngine) : LLMClusterer fakeChatClient.t :=
  mkLLMClusterer (Some fakeChatClient.ChatCompletion) "gemini-2.5-flash" 0 0 0 fallback.

Definition testFallback : ClusterEngine :=
  HeuristicEngine (λ k, "uuid") (NewHeuristicClusterer (6 * Hour) (45 # 100)).

Definition boom : error := errorString "boom".

(** ** Ingest store (in [ingest_source.go]) *)

(** A [context.Context] as far as the package looks at it: [None] while
    the context is live, [Some err] with [ctx.Err()] once it is done. *)
Definition Ctx := option error.

(** [t.IsZero()]: the origin of the time line is the zero [time.Time]. *)
Definition IsZero (t : Time) : bool := t =? 0.

Definition withID (n : NewsItem) (id : string) : NewsItem :=
  NewsItem.mk id (NewsItem.Headline n) (NewsItem.Summary n) (NewsItem.Body n)
    (NewsItem.Source n) (NewsItem.URL n) (NewsItem.Language n) (NewsItem.PublishedAt n)
    (NewsItem.Tickers n) (NewsItem.Entities n) (NewsItem.Country n) (NewsItem.Category n)
    (NewsItem.Sentiment n) (NewsItem.ImportanceTag n).

Definition withPublishedAt (n : NewsItem) (ts : Time) : NewsItem :=
  NewsItem.mk (NewsItem.ID n) (NewsItem.Headline n) (NewsItem.Summary n) (NewsItem.Body n)
    (NewsItem.Source n) (NewsItem.URL n) (NewsItem.Language n) ts
    (NewsItem.Tickers n) (NewsItem.Entities n) (NewsItem.Country n) (NewsItem.Category n)
    (NewsItem.Sentiment n) (NewsItem.ImportanceTag n).

(** The store without its lock: the calls of the embedding are sequential. *)
Module IngestSource.
Record t := mk {
  name : string;
  items : list NewsItem
}.
End IngestSource.
Abbreviation IngestSource := IngestSource.t.

Definition NewIngestSource (name : string) : IngestSource :=
  IngestSource.mk (if decide (name = "") then "ingest" else name) [].

(** The loop of [Add] over the stored items: [Some] of the items with the
    first entry of the same ID replaced, [None] when no entry has the ID. *)
Fixpoint replaceByID (item : NewsItem) (items : list NewsItem) : option (list NewsItem) :=
  match items with
  | [] => None
  | stored :: rest =>
      if decide (NewsItem.ID stored = NewsItem.ID item) then Some (item :: rest)
      else cons stored <$> replaceByID item rest
  end.

(** [IngestSource.Add]; [newID] is what [uuid.NewString()] returns and [now]
    what [time.Now().UTC()] returns when the call asks for them.  The result
    is the stored item and the store after the call. *)
Definition IngestAdd (newID : string) (now : Time) (s : IngestSource) (item : NewsItem) :
    NewsItem * IngestSource :=
  let item := if decide (NewsItem.ID item = "") then withID item newID else item in
  let item := if IsZero (NewsItem.PublishedAt item) then withPublishedAt item now else item in
  match replaceByID item (IngestSource.items s) with
  | Some items => (item, IngestSource.mk (IngestSource.name s) items)
  | None => (item, IngestSource.mk (IngestSource.name s) (IngestSource.items s ++ [item]))
  end.

Definition IngestFetch (s : IngestSource) (ctx : Ctx) (from to : Time) :
    result (list NewsItem) :=
  match ctx with
  | Some err => Err err
  | None =>
      let out :=
        foldl (λ out item,
                 if Before (NewsItem.PublishedAt item) from || After (NewsItem.PublishedAt item) to
                 then out
                 else out ++ [item]) [] (IngestSource.items s) in
      Ok (GoSort.Slice byPublishedAt out)
  end.

(** [PruneOlderThan]: the number of removed entries and the store after
    the call.  The code compacts the slice in place; it writes an entry no
    later than it reads it, so the kept entries are those of the loop. *)
Definition PruneOlderThan (s : IngestSource) (ts : Time) : Z * IngestSource :=
  match IngestSource.items s with
  | [] => (0, s)
  | _ =>
      let '(filtered, removed) :=
        foldl (λ (acc : list NewsItem * Z) item,
                 if Before (NewsItem.PublishedAt item) ts then (acc.1, acc.2 + 1)
                 else (acc.1 ++ [item], acc.2)) ([], 0) (IngestSource.items s) in
      (removed, IngestSource.mk (IngestSource.name s) filtered)
  end.

(** ** Source registry (in [ingest_source.go]) *)

(** The interface [Source]: a name and a fetch over a window. *)
Module Source.
Record t := mk {
  Name : string;
  Fetch : Ctx → Time → Time → result (list NewsItem)
}.
End Source.
Abbreviation Source := Source.t.

Definition ingestAsSource (s : IngestSource) : Source :=
  Source.mk (IngestSource.name s) (IngestFetch s).

Definition NewSourceRegistry (sources : list Source) : result (list Source) :=
  match sources with
  | [] => Err (errorString "radar: at least one source is required")
  | _ => Ok sources
  end.

Definition RegistryAdd (registry : list Source) (source : Source) : list Source :=
  registry ++ [source].

(** The loop of [FetchAll], with the results gathered so far. *)
Fixpoint fetchFrom (sources : list Source) (ctx : Ctx) (from to : Time)
    (results : list NewsItem) : result (list NewsItem) :=
  match sources with
  | [] => Ok results
  | src :: rest =>
      match Source.Fetch src ctx from to with
      | Err err => Err (wrapError ("fetch from " +:+ Source.Name src) err)
      | Ok items => fetchFrom rest ctx from to (results ++ items)
      end
  end.

Definition FetchAll (registry : list Source) (ctx : Ctx) (from to : Time) :
    result (list NewsItem) :=
  fetchFrom registry ctx from to [].

(** ** Decoding ([decode.go]) *)

Module rawNewsItem.
Record t := mk {
  ID : string;
  Headline : string;
  Summary : string;
  Body : string;
  Source : string;
  URL : string;
  Language : string;
  PublishedAt : string;
  Tickers : list string;
  Entities : list string;
  Country : string;
  Category : string;
  Sentiment : Q;
  ImportanceTag : string
}.
End rawNewsItem.
Abbreviation rawNewsItem := rawNewsItem.t.

Definition dedupeStep (st : list string * gset string) (v : string) : list string * gset string :=
  let v := GoStrings.TrimSpace v in
  if decide (v = "") then st
  else
    let key := GoStrings.ToUpper v in
    if decide (key ∈ st.2) then st
    else (st.1 ++ [v], {[key]} ∪ st.2).

Definition dedupeStrings (values : list string) : list string :=
  if Nat.leb (length values) 1 then values
  else (foldl dedupeStep ([], ∅) values).1.

Section Decode.
(** [json.Decoder.Decode] into the slice of raw records (unknown fields
    rejected) and [time.Parse(time.RFC3339, _)]. *)
Variable json_Decode : string → result (list rawNewsItem).
Variable time_Parse : string → result Time.

(** The loop of [decodeNewsItems] over the raw records. *)
Fixpoint decodeRaws (raws : list rawNewsItem) (items : list NewsItem) :
    result (list NewsItem) :=
  match raws with
  | [] => Ok items
  | r :: rest =>
      if bool_decide (rawNewsItem.Headline r = "") || bool_decide (rawNewsItem.URL r = "")
      then decodeRaws rest items
      else
        match time_Parse (rawNewsItem.PublishedAt r) with
        | Err err => Err (wrapError ("parse time for " +:+ rawNewsItem.ID r) err)
        | Ok published =>
            decodeRaws rest
              (items ++
               [NewsItem.mk (rawNewsItem.ID r) (rawNewsItem.Headline r) (rawNewsItem.Summary r)
                  (rawNewsItem.Body r) (rawNewsItem.Source r) (rawNewsItem.URL r)
                  (rawNewsItem.Language r) published
                  (dedupeStrings (rawNewsItem.Tickers r))
                  (dedupeStrings (rawNewsItem.Entities r))
                  (rawNewsItem.Country r) (rawNewsItem.Category r)
                  (rawNewsItem.Sentiment r) (rawNewsItem.ImportanceTag r)])
        end
  end.

Definition decodeNewsItems (data : string) : result (list NewsItem) :=
  match json_Decode data with
  | Err err => Err (wrapError "decode JSON" err)
  | Ok raws => decodeRaws raws []
  end.

(** [StaticFileSource.Fetch]; [os_ReadFile] is [os.ReadFile]. *)
Variable os_ReadFile : string → result string.

Definition StaticFetch (path : string) (ctx : Ctx) (from to : Time) :
    result (list NewsItem) :=
  match ctx with
  | Some err => Err err
  | None =>
      match os_ReadFile path with
      | Err err => Err (wrapError ("read static file " +:+ path) err)
      | Ok raw =>
          match decodeNewsItems raw with
          | Err err => Err (wrapError ("decode static file " +:+ path) err)
          | Ok items =>
              Ok (foldl (λ filtered item,
                           if negb (Before (NewsItem.PublishedAt item) from)
                              && negb (After (NewsItem.PublishedAt item) to)
                           then filtered ++ [item]
                           else filtered) [] items)
          end
      end
  end.
End Decode.

(** ** Pipeline (in [decode.go]) *)

Module QueryParams.
Record t := mk {
  From : Time;
  To : Time;
  Limit : Z;
  Language : string
}.
End QueryParams.
Abbreviation QueryParams := QueryParams.t.

(** A pipeline with a source registry.  The clusterer is taken at the state
    it has when [Run] is called. *)
Module Pipeline.
Record t := mk {
  Sources : list Source;
  Clusterer : ClusterEngine;
  Scorer : Scorer.t
}.
End Pipeline.
Abbreviation Pipeline := Pipeline.t.

Definition filterLanguage (items : list NewsItem) (lang : string) : list NewsItem :=
  let lang := GoStrings.ToLower lang in
  if decide (lang = "") then items
  else
    foldl (λ filtered item,
             if decide (GoStrings.ToLower (NewsItem.Language item) = lang)
             then filtered ++ [item]
             else filtered) [] items.

Definition effectiveLimit (params : QueryParams) : Z :=
  if QueryParams.Limit params <=? 0 then 5 else QueryParams.Limit params.

Definition Run (p : Pipeline) (ctx : Ctx) (params : QueryParams) : result (list Event) :=
  let limit := effectiveLimit params in
  match FetchAll (Pipeline.Sources p) ctx (QueryParams.From params) (QueryParams.To params) with
  | Err err => Err err
  | Ok items =>
      let items :=
        if decide (QueryParams.Language params ≠ "")
        then filterLanguage items (QueryParams.Language params)
        else items in
      match Pipeline.Clusterer p items with
      | Err err => Err err
      | Ok clusters =>
          let events := ScoreClusters (Pipeline.Scorer p) clusters in
          if limit <? len events then Ok (take (Z.to_nat limit) events) else Ok events
      end
  end.

(** ** Shapes that the clusterers keep *)

(** A cluster as the heuristic clusterer builds it: its items are in
    ascending order of time, its primary is the first of them, its start
    and end are the times of the first and the last, and it has no
    annotations. *)
Definition timeOrdered (cl : Cluster) : Prop :=
  ∃ first rest,
    Cluster.Items cl = first :: rest ∧
    StronglySorted (λ a b, NewsItem.PublishedAt a <= NewsItem.PublishedAt b) (first :: rest) ∧
    Cluster.Primary cl = first ∧
    Cluster.Annotations cl = None ∧
    Cluster.StartTime cl = NewsItem.PublishedAt first ∧
    Cluster.EndTime cl = NewsItem.PublishedAt (List.last rest first).

(** * Further definitions *)

(** The bytes that a token can hold: no white space, none of the twelve
    punctuation bytes, no upper-case letter. *)
Definition tokenByte (c : ascii) : bool :=
  negb (GoStrings.is_space c) && negb (is_punctuation c) && negb (GoStrings.is_upper c).

(** A token: more than two bytes, all of them token bytes. *)
Definition isToken (t : string) : Prop :=
  (2 < String.length t)%nat ∧
  Forall (λ c, tokenByte c = true) (list_ascii_of_string t).

(** An item of the window [from, to], both ends included. *)
Definition inWindow (from to : Time) (item : NewsItem) : Prop :=
  from <= NewsItem.PublishedAt item <= to.

#[global] Instance inWindow_dec from to item : Decision (inWindow from to item).
Proof. unfold inWindow. apply _. Defined.

(** Items in ascending order of their time. *)
Definition ascendingTime (items : list NewsItem) : Prop :=
  StronglySorted (λ a b, NewsItem.PublishedAt a <= NewsItem.PublishedAt b) items.

(** A string as [strings.TrimSpace] leaves it, and not empty. *)
Definition trimmed (v : string) : Prop := v ≠ "" ∧ GoStrings.TrimSpace v = v.

(** A raw record that [decodeNewsItems] does not skip. *)
Definition hasHeadlineAndURL (r : rawNewsItem) : Prop :=
  rawNewsItem.Headline r ≠ "" ∧ rawNewsItem.URL r ≠ "".

#[global] Instance hasHeadlineAndURL_dec r : Decision (hasHeadlineAndURL r).
Proof. unfold hasHeadlineAndURL. apply _. Defined.

(** The item that a raw record and its parsed time decode to. *)
Definition decodedFrom (time_Parse : string → result Time) (r : rawNewsItem)
    (item : NewsItem) : Prop :=
  time_Parse (rawNewsItem.PublishedAt r) = Ok (NewsItem.PublishedAt item) ∧
  NewsItem.ID item = rawNewsItem.ID r ∧
  NewsItem.Headline item = rawNewsItem.Headline r ∧
  NewsItem.Summary item = rawNewsItem.Summary r ∧
  NewsItem.Body item = rawNewsItem.Body r ∧
  NewsItem.Source item = rawNewsItem.Source r ∧
  NewsItem.URL item = rawNewsItem.URL r ∧
  NewsItem.Language item = rawNewsItem.Language r ∧
  NewsItem.Tickers item = dedupeStrings (rawNewsItem.Tickers r) ∧
  NewsItem.Entities item = dedupeStrings (rawNewsItem.Entities r) ∧
  NewsItem.Country item = rawNewsItem.Country r ∧
  NewsItem.Category item = rawNewsItem.Category r ∧
  NewsItem.Sentiment item = rawNewsItem.Sentiment r ∧
  NewsItem.ImportanceTag item = rawNewsItem.ImportanceTag r.

(** Items of which each one after the first is no more than the time
    window later than the one before it, and related to one before it. *)
Definition linked (c : HeuristicClusterer) (items : list NewsItem) : Prop :=
  ∀ i prev item,
    items !! i = Some prev → items !! S i = Some item →
    NewsItem.PublishedAt item <= NewsItem.PublishedAt prev + HeuristicClusterer.TimeWindow c ∧
    ∃ j existing,
      (j ≤ i)%nat ∧ items !! j = Some existing ∧
      areRelated existing item (HeuristicClusterer.SimilarityThreshold c) = true.

(** A cluster as [parseResponse] builds it over the input [items]: its
    items are items of the input in ascending order of time, at least one,
    its start and end are the times of the first and the last of them, it
    has annotations, and its primary is an item of the input, possibly
    with another summary. *)
Definition resolvedFrom (items : list NewsItem) (cl : Cluster) : Prop :=
  (∃ first rest,
     Cluster.Items cl = first :: rest ∧
     Cluster.StartTime cl = NewsItem.PublishedAt first ∧
     Cluster.EndTime cl = NewsItem.PublishedAt (List.last rest first)) ∧
  Cluster.Items cl ⊆ items ∧
  ascendingTime (Cluster.Items cl) ∧
  is_Some (Cluster.Annotations cl) ∧
  ∃ item, item ∈ items ∧
          (Cluster.Primary cl = item ∨
           ∃ summary, Cluster.Primary cl = withSummary item summary).

(** The label of the entry at index [i] of a timeline of [n] entries. *)
Definition timelineLabel (n i : nat) : string :=
  if Nat.eqb i 0 then "Initial / Старт"
  else if Nat.eqb i (n - 1) then "Latest / Финал"
  else bilingual ("Update " +:+ pretty i) ("Обновление " +:+ pretty i).

(** ** HTTP transport ([transport/http/server.go]) *)

(** A signed 64-bit result: [time.Duration] arithmetic wraps around. *)
Definition wrap64 (z : Z) : Z := (z + 2 ^ 63) mod 2 ^ 64 - 2 ^ 63.

(** The server; [ingest] is the store that the pointer refers to, at its
    present state, [None] for a nil pointer. *)
Module Server.
Record t := mk {
  pipeline : Pipeline;
  defaultWindow : Duration;
  defaultLimit : Z;
  ingest : option IngestSource
}.
End Server.
Abbreviation Server := Server.t.

Module timeframe.
Record t := mk {
  from : Time;
  to : Time;
  limit : Z;
  language : string
}.
End timeframe.
Abbreviation timeframe := timeframe.t.

(** The body of a POST to [/news]; [Sentiment] is a pointer. *)
Module ingestPayload.
Record t := mk {
  ID : string;
  Headline : string;
  Summary : string;
  Body : string;
  Source : string;
  URL : string;
  Language : string;
  PublishedAt : string;
  Tickers : list string;
  Entities : list string;
  Country : string;
  Category : string;
  Sentiment : option Q;
  ImportanceTag : string
}.
End ingestPayload.
Abbreviation ingestPayload := ingestPayload.t.

(** What a handler writes: [writeError] with the [Allow] header set before
    it, if any, or the success body. *)
Inductive ingestResponse :=
  | ingestError (allow : option string) (status : Z) (message : string)
  | ingestAccepted (status : Z) (id : string) (published_at : Time).

Inductive radarResponse :=
  | radarError (status : Z) (message : error)
  | radarOK (status : Z) (as_of from to : Time) (events : list Event).

Definition defaultString (value fallback : string) : string :=
  if decide (GoStrings.TrimSpace value = "") then fallback else value.

(** The copy of [dedupeStrings] in the transport package. *)
Definition transport_dedupeStrings (values : list string) : list string :=
  if Nat.leb (length values) 1 then values
  else
    (foldl (λ (st : list string * gset string) v,
              let v := GoStrings.TrimSpace v in
              if decide (v = "") then st
              else
                let key := GoStrings.ToUpper v in
                if decide (key ∈ st.2) then st
                else (st.1 ++ [v], {[key]} ∪ st.2)) ([], ∅) values).1.

Section Transport.
(** [strconv.Atoi], [time.Parse(time.RFC3339, _)] and the JSON decoder of
    the request body (unknown fields rejected). *)
Variable strconv_Atoi : string → result Z.
Variable time_Parse : string → result Time.
Variable json_DecodePayload : string → result ingestPayload.

(** [parseParams]; [values] is [r.URL.Query().Get] and [now] is
    [time.Now().UTC()]. *)
Definition parseParams (s : Server) (values : string → string) (now : Time) : timeframe :=
  let limit := Server.defaultLimit s in
  let limit :=
    if decide (values "limit" ≠ "") then
      match strconv_Atoi (values "limit") with
      | Ok parsed => if 0 <? parsed then parsed else limit
      | Err _ => limit
      end
    else limit in
  let to := now in
  let to :=
    if decide (values "to" ≠ "") then
      match time_Parse (values "to") with
      | Ok parsed => parsed
      | Err _ => to
      end
    else to in
  let from := Add to (wrap64 (- Server.defaultWindow s)) in
  let from :=
    if decide (values "window_hours" ≠ "") then
      match strconv_Atoi (values "window_hours") with
      | Ok hrs => if 0 <? hrs then Add to (wrap64 (wrap64 (- hrs) * Hour)) else from
      | Err _ => from
      end
    else from in
  let from :=
    if decide (values "from" ≠ "") then
      match time_Parse (values "from") with
      | Ok parsed => parsed
      | Err _ => from
      end
    else from in
  let from := if After from to then Add to (wrap64 (- Server.defaultWindow s)) else from in
  timeframe.mk from to limit (values "lang").

(** [handleRadar]; [ctx] is the state of the request context with its
    timeout as the sources observe it, [now] the time read by
    [parseParams] and [asOf] the time read for the response. *)
Definition handleRadar (s : Server) (values : string → string) (ctx : Ctx)
    (now asOf : Time) : radarResponse :=
  let params := parseParams s values now in
  let paramsCtx :=
    QueryParams.mk (timeframe.from params) (timeframe.to params)
      (timeframe.limit params) (timeframe.language params) in
  match Run (Server.pipeline s) ctx paramsCtx with
  | Err err => radarError 500 err
  | Ok events =>
      radarOK 200 asOf (QueryParams.From paramsCtx) (QueryParams.To paramsCtx) events
  end.

(** [handleIngest]: the response and the store after the call.  [now] is
    the time read by the handler, [newID] and [addNow] what [Add] draws
    when it asks for an ID and for the time. *)
Definition handleIngest (s : Server) (method body : string) (now : Time)
    (newID : string) (addNow : Time) : ingestResponse * option IngestSource :=
  if decide (method ≠ "POST")
  then (ingestError (Some "POST") 405 "method not allowed", Server.ingest s)
  else
    match Server.ingest s with
    | None => (ingestError None 503 "ingest disabled", Server.ingest s)
    | Some store =>
        match json_DecodePayload body with
        | Err _ => (ingestError None 400 "invalid payload", Server.ingest s)
        | Ok payload =>
            if bool_decide (ingestPayload.Headline payload = "")
               || bool_decide (ingestPayload.URL payload = "")
            then (ingestError None 400 "headline and url are required", Server.ingest s)
            else
              let published :=
                if decide (ingestPayload.PublishedAt payload ≠ "")
                then time_Parse (ingestPayload.PublishedAt payload)
                else Ok now in
              match published with
              | Err _ => (ingestError None 400 "published_at must be RFC3339", Server.ingest s)
              | Ok published =>
                  let news :=
                    NewsItem.mk (ingestPayload.ID payload) (ingestPayload.Headline payload)
                      (ingestPayload.Summary payload) (ingestPayload.Body payload)
                      (defaultString (ingestPayload.Source payload) "ingest")
                      (ingestPayload.URL payload)
                      (defaultString (ingestPayload.Language payload) "en")
                      published
                      (transport_dedupeStrings (ingestPayload.Tickers payload))
                      (transport_dedupeStrings (ingestPayload.Entities payload))
                      (ingestPayload.Country payload) (ingestPayload.Category payload)
                      (default 0%Q (ingestPayload.Sentiment payload))
                      (ingestPayload.ImportanceTag payload) in
                  let '(stored, store) := IngestAdd newID addNow store news in
                  (ingestAccepted 202 (NewsItem.ID stored) (NewsItem.PublishedAt stored),
                   Some store)
              end
        end
    end.
End Transport.

(** A server as [server_test.go] configures it, over a registry without
    sources, and a request without query parameters. *)
Definition testServer : Server :=
  Server.mk (Pipeline.mk [] testFallback DefaultScorer) (24 * Hour) 2 None.
Definition emptyQuery : string → string := λ _, "".
Definition atoiStub : string → result Z := λ _, Err boom.
Definition parseStub : string → result Time := λ _, Err boom.

(** A server over the ingest store that holds [itemA] and [itemB], and a
    server with an empty store that takes the body [wirePayload]. *)
Definition radarServer : Server :=
  Server.mk (Pipeline.mk [ingestAsSource (IngestSource.mk "ingest" [itemA; itemB])]
               testFallback DefaultScorer) (24 * Hour) 2 None.
Definition ingestServer : Server :=
  Server.mk (Pipeline.mk [] testFallback DefaultScorer) (24 * Hour) 2
    (Some (NewIngestSource "ingest")).
Definition wirePayload : ingestPayload :=
  ingestPayload.mk "n1" "Headline n1" "" "" "Wire" "https://example.com/n1" "" "" [] [] "" ""
    None "".
Definition decodeStub : string → result ingestPayload := λ _, Ok wirePayload.

(** * Properties *)

(** ** Arithmetic of package [math] *)

(** Division by a numeral, written as a product for [lra]. *)
Ltac qconst :=
  unfold Qdiv in *;
  repeat match goal with
    | |- context [Qinv (inject_Z (Zpos ?p))] =>
        change (Qinv (inject_Z (Zpos p))) with (1 # p)
    | H : context [Qinv (inject_Z (Zpos ?p))] |- _ =>
        change (Qinv (inject_Z (Zpos p))) with (1 # p) in H
    | |- context [Qinv (Zpos ?n # 1)] => change (Qinv (Zpos n # 1)) with (1 # n)
    | H : context [Qinv (Zpos ?n # 1)] |- _ =>
        change (Qinv (Zpos n # 1)) with (1 # n) in H
    end.

Section math_facts.
Local Open Scope Q_scope.
Import GoMath.

Lemma Qlt_bool_iff x y : Qlt_bool x y = true ↔ x < y.
Proof.
  unfold Qlt_bool. rewrite negb_true_iff. split.
  - intros H. apply Qnot_le_lt. intros Hle. apply Qle_bool_iff in Hle. congruence.
  - intros H. destruct (Qle_bool y x) eqn:E; [|done].
    apply Qle_bool_iff in E. lra.
Qed.

Lemma Qlt_bool_false x y : Qlt_bool x y = false ↔ y <= x.
Proof.
  unfold Qlt_bool. rewrite negb_false_iff. apply Qle_bool_iff.
Qed.

Lemma Qlt_bool_spec x y : reflect (x < y) (Qlt_bool x y).
Proof.
  destruct (Qlt_bool x y) eqn:E; constructor.
  - by apply Qlt_bool_iff.
  - apply Qlt_bool_false in E. lra.
Qed.

Lemma Min_spec x y : (x < y ∧ Min x y = x) ∨ (y <= x ∧ Min x y = y).
Proof. unfold Min. destruct (Qlt_bool_spec x y); [left|right]; split; auto; lra. Qed.

Lemma Max_spec x y : (y < x ∧ Max x y = x) ∨ (x <= y ∧ Max x y = y).
Proof. unfold Max. destruct (Qlt_bool_spec y x); [left|right]; split; auto; lra. Qed.

Lemma clamp01_spec v :
  (v < 0 ∧ clamp01 v = 0) ∨ (1 < v ∧ clamp01 v = 1) ∨ (0 <= v <= 1 ∧ clamp01 v = v).
Proof.
  unfold clamp01. destruct (Qlt_bool_spec v 0); [by left|].
  destruct (Qlt_bool_spec 1 v); [right; by left|].
  right; right. split; [lra|done].
Qed.

Lemma clamp01_range v : 0 <= clamp01 v <= 1.
Proof. destruct (clamp01_spec v) as [[? ->]|[[? ->]|[? ->]]]; lra. Qed.

(** On a value that is not negative, [clamp01] is the cap at 1. *)
Lemma clamp01_nonneg v : 0 <= v → clamp01 v = Min 1 v.
Proof.
  intros Hv. unfold clamp01, Min.
  destruct (Qlt_bool_spec v 0); [lra|done].
Qed.

Lemma Round_nonneg x : 0 <= x → Round x = inject_Z (Qfloor (x + (1 # 2))).
Proof.
  intros Hx. unfold Round. destruct (Qlt_bool_spec x 0); [lra|done].
Qed.

Lemma Pow10_3 : Pow10 3 = 1000.
Proof. reflexivity. Qed.

(** Rounding to three decimals keeps a bound that is itself a multiple of
    one thousandth. *)
Lemma roundTo_ge (k : Z) v : (0 <= k)%Z → inject_Z k / 1000 <= v → inject_Z k / 1000 <= roundTo v 3.
Proof.
  intros Hk Hv. unfold roundTo. rewrite Pow10_3.
  assert (H0 : 0 <= inject_Z k) by (change 0 with (inject_Z 0); rewrite <- Zle_Qle; lia).
  qconst.
  rewrite Round_nonneg by lra.
  assert (Hf : (k <= Qfloor (v * 1000 + (1 # 2)))%Z).
  { rewrite <- (Qfloor_Z k). apply Qfloor_resp_le. lra. }
  rewrite Zle_Qle in Hf. lra.
Qed.

Lemma roundTo_le (k : Z) v : 0 <= v → v <= inject_Z k / 1000 → roundTo v 3 <= inject_Z k / 1000.
Proof.
  intros Hv0 Hv. unfold roundTo. rewrite Pow10_3. qconst.
  rewrite Round_nonneg by lra.
  assert (Hf : (Qfloor (v * 1000 + (1 # 2)) <= k)%Z).
  { assert (Hlt : v * 1000 + (1 # 2) < inject_Z (k + 1)).
    { rewrite inject_Z_plus. change (inject_Z 1) with 1. lra. }
    pose proof (Qfloor_le (v * 1000 + (1 # 2))) as Hfl.
    assert (Hq : inject_Z (Qfloor (v * 1000 + (1 # 2))) < inject_Z (k + 1)) by lra.
    rewrite <- Zlt_Qlt in Hq. lia. }
  rewrite Zle_Qle in Hf. lra.
Qed.

Lemma roundTo_range v : 0 <= v <= 1 → 0 <= roundTo v 3 <= 1.
Proof.
  intros [H0 H1]. split.
  - assert (H : inject_Z 0 / 1000 <= roundTo v 3).
    { apply roundTo_ge; [lia|]. qconst. change (inject_Z 0) with 0. lra. }
    qconst. change (inject_Z 0) with 0 in H. lra.
  - assert (H : roundTo v 3 <= inject_Z 1000 / 1000).
    { apply roundTo_le; [done|]. qconst. change (inject_Z 1000) with 1000. lra. }
    qconst. change (inject_Z 1000) with 1000 in H. lra.
Qed.

End math_facts.

(** ** The insertion sort of package [sort] *)

Section sort_facts.
Context {A : Type} (less : A → A → bool).
Import GoSort.

Lemma sift_Permutation x before : sift less x before ≡ₚ x :: before.
Proof.
  induction before as [|y r IH]; simpl; [done|].
  destruct (less x y); [|done].
  rewrite IH. apply Permutation_swap.
Qed.

Lemma insertion_Permutation data before :
  foldl (λ before x, sift less x before) before data ≡ₚ before ++ data.
Proof.
  revert before. induction data as [|x data IH]; intros before; simpl.
  - by rewrite app_nil_r.
  - rewrite IH, sift_Permutation. simpl. apply Permutation_middle.
Qed.

Lemma Slice_Permutation data : Slice less data ≡ₚ data.
Proof.
  unfold Slice. rewrite <- Permutation_rev. apply (insertion_Permutation data []).
Qed.

Lemma Slice_length data : length (Slice less data) = length data.
Proof. apply Permutation_length, Slice_Permutation. Qed.

Lemma Slice_elem_of x data : x ∈ Slice less data ↔ x ∈ data.
Proof. by rewrite Slice_Permutation. Qed.

Lemma Slice_nil_inv data : Slice less data = [] → data = [].
Proof.
  intros H. apply Permutation_nil_r. rewrite <- H. symmetry. apply Slice_Permutation.
Qed.

(** [less] is the strict part of a total preorder. *)
Hypothesis less_asym : ∀ a b, less a b = true → less b a = false.
Hypothesis not_less_trans :
  ∀ a b c, less a b = false → less b c = false → less a c = false.

Lemma sift_sorted x before :
  StronglySorted (λ a b, less a b = false) before →
  StronglySorted (λ a b, less a b = false) (sift less x before).
Proof.
  induction 1 as [|y r Hr IH Hy]; simpl.
  - repeat constructor.
  - destruct (less x y) eqn:E.
    + constructor; [done|].
      rewrite Forall_forall. intros z Hz.
      rewrite sift_Permutation in Hz. apply elem_of_cons in Hz as [->|Hz].
      * by apply less_asym.
      * rewrite Forall_forall in Hy. by apply Hy.
    + constructor; [by constructor|].
      constructor; [done|].
      rewrite Forall_forall in Hy |- *. intros z Hz.
      eapply not_less_trans; [exact E|by apply Hy].
Qed.

Lemma insertion_sorted data before :
  StronglySorted (λ a b, less a b = false) before →
  StronglySorted (λ a b, less a b = false)
    (foldl (λ before x, sift less x before) before data).
Proof.
  revert before. induction data as [|x data IH]; intros before Hb; simpl; [done|].
  apply IH, sift_sorted, Hb.
Qed.

Lemma StronglySorted_rev_flip (R : relation A) l :
  StronglySorted R l → StronglySorted (flip R) (rev l).
Proof.
  induction 1 as [|x l Hl IH Hx]; simpl; [constructor|].
  apply StronglySorted_app. split_and!.
  - intros x1 x2 H1 H2. apply list_elem_of_singleton in H2 as ->.
    rewrite Forall_forall in Hx. apply Hx.
    apply list_elem_of_In. apply in_rev. by apply list_elem_of_In.
  - done.
  - repeat constructor.
Qed.

(** The result is ordered: no element has to come before an earlier one. *)
Lemma Slice_sorted data : StronglySorted (λ a b, less b a = false) (Slice less data).
Proof.
  unfold Slice.
  apply (StronglySorted_rev_flip (λ a b, less a b = false)).
  apply insertion_sorted. constructor.
Qed.

End sort_facts.

Lemma StronglySorted_weaken {A} (R1 R2 : relation A) l :
  (∀ a b, R1 a b → R2 a b) → StronglySorted R1 l → StronglySorted R2 l.
Proof.
  intros HR. induction 1 as [|x l Hl IH Hx]; constructor; [done|].
  eapply Forall_impl; [exact Hx|]. auto.
Qed.

(** Ordering by a time stamp, as [byPublishedAt] and [selectQuote] do. *)
Lemma Slice_by_time {A} (key : A → Time) (data : list A) :
  StronglySorted (λ a b, key a <= key b)
    (GoSort.Slice (λ a b, Before (key a) (key b)) data).
Proof.
  eapply StronglySorted_weaken;
    [|apply (Slice_sorted (λ a b, Before (key a) (key b)))].
  - intros a b H. unfold Before in H. lia.
  - intros a b H. unfold Before in *. lia.
  - intros a b c H1 H2. unfold Before in *. lia.
Qed.

(** [sort.Strings] returns its argument in ascending order. *)
Lemma ltb_false_le (a b : string) : String.ltb b a = false ↔ String.le a b.
Proof.
  unfold String.le, String.ltb, String.leb.
  rewrite (String.compare_antisym b a).
  destruct (String.compare a b); simpl; split; done.
Qed.

Lemma Strings_sorted (l : list string) : StronglySorted String.le (GoSort.Strings l).
Proof.
  unfold GoSort.Strings.
  eapply StronglySorted_weaken; [|apply (Slice_sorted String.ltb)].
  - intros a b H. by apply ltb_false_le.
  - intros a b H. apply ltb_false_le.
    unfold String.le, String.ltb, String.leb in *.
    destruct (String.compare a b); done.
  - intros a b c H1%ltb_false_le H2%ltb_false_le. apply ltb_false_le.
    by etrans.
Qed.

Lemma Strings_Permutation (l : list string) : GoSort.Strings l ≡ₚ l.
Proof. apply Slice_Permutation. Qed.

(** ** First-seen deduplication and the loops that compute it *)

Section dedup_facts.
Context (key : string → string).

Lemma dedup_first_cons x l :
  dedup_first key (x :: l) = x :: filter (λ y, key y ≠ key x) (dedup_first key l).
Proof. reflexivity. Qed.

Lemma dedup_first_elem_of_key k l :
  k ∈ key <$> dedup_first key l ↔ k ∈ key <$> l.
Proof.
  induction l as [|x l IH]; [done|].
  rewrite dedup_first_cons, !fmap_cons, !elem_of_cons, <- IH.
  rewrite !list_elem_of_fmap. split.
  - intros [->|(y & -> & Hy)]; [by left|].
    apply list_elem_of_filter in Hy as [_ Hy]. right. eauto.
  - intros [->|(y & -> & Hy)]; [by left|].
    destruct (decide (key y = key x)) as [E|E]; [by left|].
    right. exists y. split; [done|]. by apply list_elem_of_filter.
Qed.

Lemma dedup_first_subseteq l : dedup_first key l ⊆ l.
Proof.
  induction l as [|x l IH]; [done|].
  rewrite dedup_first_cons. intros y [->|Hy]%elem_of_cons; [by left|].
  right. apply IH. by apply list_elem_of_filter in Hy as [_ Hy].
Qed.

Lemma dedup_first_NoDup_key l : NoDup (key <$> dedup_first key l).
Proof.
  induction l as [|x l IH]; [constructor|].
  rewrite dedup_first_cons, fmap_cons. constructor.
  - rewrite list_elem_of_fmap. intros (y & E & Hy).
    apply list_elem_of_filter in Hy as [Hy _]. by apply Hy.
  - revert IH. generalize (dedup_first key l). intros kept.
    induction kept as [|z kept IHk]; [done|].
    rewrite fmap_cons, NoDup_cons. intros [Hz Hk].
    rewrite filter_cons. case_decide; [|by apply IHk].
    rewrite fmap_cons, NoDup_cons. split; [|by apply IHk].
    rewrite list_elem_of_fmap in Hz |- *. intros (y & E & Hy).
    apply Hz. exists y. split; [done|]. by apply list_elem_of_filter in Hy as [_ Hy].
Qed.

Lemma dedup_first_NoDup l : NoDup (dedup_first key l).
Proof. eapply NoDup_fmap_1, dedup_first_NoDup_key. Qed.

(** The number of entries is the number of distinct keys. *)
Lemma dedup_first_length l :
  length (dedup_first key l) = size (list_to_set (key <$> l) : gset string).
Proof.
  rewrite <- (length_fmap key).
  rewrite <- (size_list_to_set (C := gset string) (key <$> dedup_first key l))
    by apply dedup_first_NoDup_key.
  f_equal. apply set_eq. intros k. rewrite !elem_of_list_to_set.
  apply dedup_first_elem_of_key.
Qed.

(** Removing keys commutes with deduplication. *)
Lemma dedup_first_filter (P : string → Prop) `{∀ k, Decision (P k)} l :
  filter (λ y, P (key y)) (dedup_first key l) = dedup_first key (filter (λ y, P (key y)) l).
Proof.
  induction l as [|x l IH]; [done|].
  rewrite dedup_first_cons, !filter_cons. case_decide as HP.
  - rewrite dedup_first_cons. f_equal. rewrite <- IH.
    rewrite !list_filter_filter. apply list_filter_iff. intros y. tauto.
  - rewrite <- IH, list_filter_filter. apply list_filter_iff.
    intros y. split; [tauto|]. intros HPy. split; [done|]. congruence.
Qed.

(** One step of the loops over tickers and entities of [buildEvent], and
    the whole loop: the list grows by the first occurrences of the keys
    that the set does not hold yet. *)
Lemma scan_dedup (step : list string * gset string → string → list string * gset string)
    (l : list string) (seen : gset string) (xs : list string) :
  (∀ st x, step st x =
           if decide (key x ∈ st.2) then st else (st.1 ++ [x], {[key x]} ∪ st.2)) →
  foldl step (l, seen) xs =
    (l ++ dedup_first key (filter (λ x, key x ∉ seen) xs),
     seen ∪ list_to_set (key <$> xs)).
Proof.
  intros Hstep. revert l seen. induction xs as [|x xs IH]; intros l seen; simpl.
  - rewrite app_nil_r. f_equal. set_solver.
  - rewrite Hstep. simpl. rewrite filter_cons. destruct (decide (key x ∈ seen)) as [Hin|Hin].
    + rewrite decide_False by tauto. rewrite IH. f_equal. set_solver.
    + rewrite decide_True by done. rewrite IH, dedup_first_cons, <- app_assoc. simpl.
      f_equal; [|set_solver]. do 2 f_equal.
      pose proof (dedup_first_filter (λ k, k ≠ key x)
                    (filter (λ x, key x ∉ seen) xs)) as E.
      simpl in E. rewrite E, list_filter_filter.
      f_equal. apply list_filter_iff. intros y. set_solver.
Qed.

End dedup_facts.

Lemma filter_all {A} (P : A → Prop) `{∀ x, Decision (P x)} (l : list A) :
  (∀ x, P x) → filter P l = l.
Proof.
  intros HP. induction l as [|x l IH]; [done|].
  rewrite filter_cons, decide_True by done. by rewrite IH.
Qed.

(** ** The loop of [buildEvent] *)

Section scan_facts.
Local Open Scope Q_scope.

Lemma scan_tickers l seen ts :
  foldl scanTicker (l, seen) ts =
    (l ++ dedup_first id (filter (λ x, x ∉ seen) (GoStrings.ToUpper <$> ts)),
     seen ∪ list_to_set (GoStrings.ToUpper <$> ts)).
Proof.
  transitivity
    (foldl (λ (st : list string * gset string) x,
              if decide (id x ∈ st.2) then st else (st.1 ++ [x], {[id x]} ∪ st.2))
       (l, seen) (GoStrings.ToUpper <$> ts)).
  - by rewrite foldl_fmap.
  - rewrite (scan_dedup id) by done. by rewrite list_fmap_id.
Qed.

Lemma scan_entities l seen es :
  foldl scanEntity (l, seen) es =
    (l ++ dedup_first normalizeEntity (filter (λ x, normalizeEntity x ∉ seen) es),
     seen ∪ list_to_set (normalizeEntity <$> es)).
Proof. by rewrite (scan_dedup normalizeEntity). Qed.

Lemma scan_tickers_flat st items :
  (tickers (foldl scanItem st items), tickerSet (foldl scanItem st items)) =
  foldl scanTicker (tickers st, tickerSet st) (allTickers items).
Proof.
  revert st. induction items as [|i items IH]; intros st; [done|].
  unfold allTickers in *. rewrite bind_cons, foldl_app. simpl. rewrite IH. simpl.
  by destruct (foldl scanTicker (tickers st, tickerSet st) (NewsItem.Tickers i)).
Qed.

Lemma scan_entities_flat st items :
  (entities (foldl scanItem st items), entitySet (foldl scanItem st items)) =
  foldl scanEntity (entities st, entitySet st) (allEntities items).
Proof.
  revert st. induction items as [|i items IH]; intros st; [done|].
  unfold allEntities in *. rewrite bind_cons, foldl_app. simpl. rewrite IH. simpl.
  by destruct (foldl scanEntity (entities st, entitySet st) (NewsItem.Entities i)).
Qed.

Lemma scanItems_tickers items first : tickers (scanItems items first) = spec_tickers items.
Proof.
  pose proof (scan_tickers_flat
    (mkScan [] [] [] 0 0%nat (NewsItem.PublishedAt first) (NewsItem.PublishedAt first) ∅ ∅)
    items) as H.
  simpl in H. rewrite scan_tickers in H. injection H as H _.
  unfold scanItems, spec_tickers. rewrite H. simpl. f_equal.
  apply filter_all. intros x. set_solver.
Qed.

Lemma scanItems_entities items first : entities (scanItems items first) = spec_entities items.
Proof.
  pose proof (scan_entities_flat
    (mkScan [] [] [] 0 0%nat (NewsItem.PublishedAt first) (NewsItem.PublishedAt first) ∅ ∅)
    items) as H.
  simpl in H. rewrite scan_entities in H. injection H as H _.
  unfold scanItems, spec_entities. rewrite H. simpl. f_equal.
  apply filter_all. intros x. set_solver.
Qed.

Lemma scan_sources st items :
  sources (foldl scanItem st items) = sources st ++ (sourceRefOf <$> items).
Proof.
  revert st. induction items as [|i items IH]; intros st; simpl.
  - by rewrite app_nil_r.
  - rewrite IH. simpl. by rewrite <- app_assoc.
Qed.

Lemma scan_totalSentiment st items :
  totalSentiment (foldl scanItem st items) =
  foldl Qplus (totalSentiment st) ((λ i, Qabs (NewsItem.Sentiment i)) <$> items).
Proof.
  revert st. induction items as [|i items IH]; intros st; simpl; [done|].
  by rewrite IH.
Qed.

Lemma scan_negativeCount st items :
  negativeCount (foldl scanItem st items) =
  (negativeCount st +
   length (filter (λ i, GoMath.Qlt_bool (NewsItem.Sentiment i) 0 = true) items))%nat.
Proof.
  revert st. induction items as [|i items IH]; intros st; simpl; [lia|].
  rewrite IH, filter_cons. simpl.
  destruct (GoMath.Qlt_bool (NewsItem.Sentiment i) 0) eqn:E.
  - rewrite decide_True by done. simpl. lia.
  - rewrite decide_False by done. lia.
Qed.

Lemma scan_earliest st items :
  earliest (foldl scanItem st items) = foldl Z.min (earliest st) (timestamps items).
Proof.
  revert st. induction items as [|i items IH]; intros st; simpl; [done|].
  rewrite IH. simpl. f_equal. unfold Before.
  destruct (Z.ltb_spec (NewsItem.PublishedAt i) (earliest st)); lia.
Qed.

Lemma scan_latest st items :
  latest (foldl scanItem st items) = foldl Z.max (latest st) (timestamps items).
Proof.
  revert st. induction items as [|i items IH]; intros st; simpl; [done|].
  rewrite IH. simpl. f_equal. unfold After.
  destruct (Z.ltb_spec (latest st) (NewsItem.PublishedAt i)); lia.
Qed.

Lemma foldl_min_absorb a b l : foldl Z.min (Z.min a b) l = Z.min a (foldl Z.min b l).
Proof.
  revert b. induction l as [|x l IH]; intros b; simpl; [done|].
  by rewrite <- Z.min_assoc, IH.
Qed.

Lemma foldl_max_absorb a b l : foldl Z.max (Z.max a b) l = Z.max a (foldl Z.max b l).
Proof.
  revert b. induction l as [|x l IH]; intros b; simpl; [done|].
  by rewrite <- Z.max_assoc, IH.
Qed.

Lemma foldl_min_foldr a l : foldl Z.min a l = minTime l a.
Proof.
  unfold minTime. induction l as [|x l IH]; simpl; [done|].
  by rewrite (Z.min_comm a x), foldl_min_absorb, IH.
Qed.

Lemma foldl_max_foldr a l : foldl Z.max a l = maxTime l a.
Proof.
  unfold maxTime. induction l as [|x l IH]; simpl; [done|].
  by rewrite (Z.max_comm a x), foldl_max_absorb, IH.
Qed.

Lemma minTime_le l d : (minTime l d <= d)%Z.
Proof. unfold minTime. induction l; simpl; lia. Qed.

Lemma maxTime_ge l d : (d <= maxTime l d)%Z.
Proof. unfold maxTime. induction l; simpl; lia. Qed.

Lemma scanItems_earliest first rest :
  earliest (scanItems (first :: rest) first) =
  minTime (timestamps rest) (NewsItem.PublishedAt first).
Proof.
  unfold scanItems. rewrite scan_earliest. simpl.
  by rewrite Z.min_id, foldl_min_foldr.
Qed.

Lemma scanItems_latest first rest :
  latest (scanItems (first :: rest) first) =
  maxTime (timestamps rest) (NewsItem.PublishedAt first).
Proof.
  unfold scanItems. rewrite scan_latest. simpl.
  by rewrite Z.max_id, foldl_max_foldr.
Qed.

End scan_facts.

(** ** The metrics of [buildEvent] are those of section 4.7 *)

Section metric_facts.
Local Open Scope Q_scope.
Import GoMath.

Lemma Qmult_comm_eq (x y : Q) : x * y = y * x.
Proof. unfold Qmult. f_equal; [apply Z.mul_comm|apply Pos.mul_comm]. Qed.

Lemma weightedSum_literal cov vel cred sent tag breadth nov :
  weightedSum
    (<["coverage" := cov]> (<["velocity" := vel]> (<["credibility" := cred]>
     (<["sentiment" := sent]> (<["tag" := tag]> (<["breadth" := breadth]>
     (<["novelty" := nov]> ∅))))))) =
  clamp01 ((18 # 100) * cov + (18 # 100) * vel + (15 # 100) * cred + (12 # 100) * sent +
           (18 # 100) * tag + (12 # 100) * breadth + (7 # 100) * nov).
Proof.
  unfold weightedSum, weight_at.
  repeat (rewrite ?lookup_insert_eq; rewrite ?lookup_insert_ne by done). simpl.
  by rewrite !(Qmult_comm_eq (_ # 100)).
Qed.

Lemma float64_of_len_fmap {A B} (f : A → B) (l : list A) :
  float64_of_len (f <$> l) = float64_of_len l.
Proof. unfold float64_of_len. by rewrite length_fmap. Qed.

Lemma float64_of_len_pos {A} (l : list A) : l ≠ [] → 0 < float64_of_len l.
Proof.
  intros Hl. unfold float64_of_len. change 0 with (inject_Z 0).
  rewrite <- Zlt_Qlt. destruct l; [done|]. simpl. lia.
Qed.

Lemma float64_of_len_ge_1 {A} (l : list A) : l ≠ [] → 1 <= float64_of_len l.
Proof.
  intros Hl. unfold float64_of_len. change 1 with (inject_Z 1).
  rewrite <- Zle_Qle. destruct l; [done|]. simpl. lia.
Qed.

Lemma float64_of_len_nonneg {A} (l : list A) : 0 <= float64_of_len l.
Proof.
  unfold float64_of_len. change 0 with (inject_Z 0). rewrite <- Zle_Qle. lia.
Qed.

Lemma averageSourceWeight_capped s items :
  items ≠ [] → averageSourceWeight s items = capped_sourceScore s items.
Proof.
  intros Hne. unfold averageSourceWeight, capped_sourceScore, meanQ, sumQ.
  destruct items as [|i items]; [done|].
  rewrite float64_of_len_fmap, foldl_fmap. do 2 f_equal.
  generalize (i :: items). intros l. generalize 0. induction l as [|x l IH]; intros a; [done|].
  simpl. rewrite <- IH. f_equal. unfold sourceWeightOf.
  by destruct (Scorer.SourceWeights s !! _).
Qed.

Lemma tagWeight_positive s items : tagWeight s items = positive_tagScore s items.
Proof.
  unfold tagWeight, positive_tagScore, matchedTagWeights.
  assert (∀ a, foldl (λ best item,
                   match Scorer.TagWeights s !! NewsItem.ImportanceTag item with
                   | Some w => if Qlt_bool best w then w else best
                   | None => best
                   end) a items =
               foldl (λ best w, Max w best) a
                 (omap (λ i, Scorer.TagWeights s !! NewsItem.ImportanceTag i) items)) as ->; [|done].
  induction items as [|i items IH]; intros a; [done|]. simpl.
  destruct (Scorer.TagWeights s !! NewsItem.ImportanceTag i); simpl; by rewrite IH.
Qed.

Lemma novelty_of_spec items : novelty_of (float64_of_len items) = spec_novelty items.
Proof.
  unfold novelty_of, spec_novelty, spec_coverage, Qlt_bool.
  by destruct (Qle_bool (float64_of_len items) 1).
Qed.

Lemma Hours_pos d : (0 < d)%Z → 0 < Hours d.
Proof.
  intros Hd. unfold Hours.
  assert (HH : (0 < Hour)%Z) by done.
  pose proof (Z.quot_rem' d Hour) as E.
  assert (Hq : (0 <= Z.quot d Hour)%Z) by (apply Z.quot_pos; lia).
  assert (Hr : (0 <= Z.rem d Hour)%Z) by (apply Z.rem_nonneg; lia).
  assert (HH' : 0 < inject_Z Hour) by (change 0 with (inject_Z 0); by rewrite <- Zlt_Qlt).
  assert (Hq' : 0 <= inject_Z (Z.quot d Hour))
    by (change 0 with (inject_Z 0); by rewrite <- Zle_Qle).
  assert (Hr' : 0 <= inject_Z (Z.rem d Hour))
    by (change 0 with (inject_Z 0); by rewrite <- Zle_Qle).
  destruct (decide (Z.quot d Hour = 0%Z)) as [Hz|Hz].
  - assert (Hrp : 0 < inject_Z (Z.rem d Hour)).
    { change 0 with (inject_Z 0). rewrite <- Zlt_Qlt. lia. }
    assert (0 < inject_Z (Z.rem d Hour) / inject_Z Hour); [|lra].
    apply Qlt_shift_div_l; [done|lra].
  - assert (Hqp : 0 < inject_Z (Z.quot d Hour)).
    { change 0 with (inject_Z 0). rewrite <- Zlt_Qlt. lia. }
    assert (0 <= inject_Z (Z.rem d Hour) / inject_Z Hour); [|lra].
    apply Qle_shift_div_l; [done|lra].
Qed.

Lemma Sub_nonneg t u : (u <= t)%Z → (0 <= Sub t u)%Z.
Proof.
  intros H. unfold Sub.
  assert (maxDuration = 9223372036854775807%Z) as -> by reflexivity.
  assert (minDuration = (-9223372036854775808)%Z) as -> by reflexivity. lia.
Qed.

Lemma velocity_of_spec first rest :
  velocity_of (earliest (scanItems (first :: rest) first))
              (latest (scanItems (first :: rest) first)) =
  spec_velocity (first :: rest).
Proof.
  rewrite scanItems_earliest, scanItems_latest.
  unfold velocity_of, spec_velocity. simpl.
  set (t := NewsItem.PublishedAt first). set (ts := timestamps rest).
  pose proof (minTime_le ts t). pose proof (maxTime_ge ts t).
  pose proof (Sub_nonneg (maxTime ts t) (minTime ts t) ltac:(lia)) as Hw.
  destruct (Z.ltb_spec 0 (Sub (maxTime ts t) (minTime ts t))) as [Hpos|Hzero].
  - apply Hours_pos in Hpos.
    destruct (Qeq_bool _ 0) eqn:E; [|done].
    apply Qeq_bool_iff in E. lra.
  - assert (Sub (maxTime ts t) (minTime ts t) = 0%Z) as -> by lia. done.
Qed.

Lemma foldl_Qplus_ge a l : Forall (λ x, 0 <= x) l → a <= foldl Qplus a l.
Proof.
  intros Hl. revert a. induction Hl as [|x l Hx Hl IH]; intros a; simpl; [lra|].
  specialize (IH (a + x)). lra.
Qed.

Lemma meanQ_nonneg l : l ≠ [] → Forall (λ x, 0 <= x) l → 0 <= meanQ l.
Proof.
  intros Hne Hl. unfold meanQ, sumQ.
  apply Qle_shift_div_l; [by apply float64_of_len_pos|].
  pose proof (foldl_Qplus_ge 0 l Hl). lra.
Qed.

Lemma filter_length_all {A} (P : A → Prop) `{∀ x, Decision (P x)} (l : list A) :
  length (filter P l) = length l ↔ Forall P l.
Proof.
  induction l as [|x l IH]; [by split|].
  rewrite filter_cons, Forall_cons. pose proof (length_filter P l) as Hle.
  case_decide as HP; simpl.
  - rewrite <- IH. split; [intros Hl; split; [done|lia]|intros [_ Hl]; lia].
  - split; [lia|tauto].
Qed.

Lemma forallb_Forall_true {A} (f : A → bool) (l : list A) :
  forallb f l = true ↔ Forall (λ x, f x = true) l.
Proof.
  induction l as [|x l IH]; simpl; [by split|].
  by rewrite andb_true_iff, Forall_cons, IH.
Qed.

Lemma all_negative_test (items : list NewsItem) :
  items ≠ [] →
  let nc := length (filter (λ i, Qlt_bool (NewsItem.Sentiment i) 0 = true) items) in
  Nat.ltb 0 nc && Nat.eqb nc (length items) =
  forallb (λ i, Qlt_bool (NewsItem.Sentiment i) 0) items.
Proof.
  intros Hne nc.
  destruct (forallb _ items) eqn:E.
  - apply forallb_Forall_true in E.
    apply (proj2 (filter_length_all _ items)) in E. subst nc. rewrite E.
    rewrite Nat.eqb_refl, andb_true_r. apply Nat.ltb_lt. destruct items; [done|simpl; lia].
  - apply andb_false_iff. right. apply Nat.eqb_neq. intros Heq.
    apply (proj1 (filter_length_all _ items)), forallb_Forall_true in Heq. congruence.
Qed.

Lemma sentiment_spec first rest :
  let items := first :: rest in
  let st := scanItems items first in
  let sentimentScore := Min 1 (totalSentiment st / float64_of_len items) in
  (if Nat.ltb 0 (negativeCount st) && Nat.eqb (negativeCount st) (length items)
   then Min 1 (sentimentScore + (15 # 100))
   else sentimentScore) = spec_sentimentScore items.
Proof.
  intros items st sentimentScore.
  assert (Hbase : sentimentScore =
                  Min 1 (meanQ ((λ i, Qabs (NewsItem.Sentiment i)) <$> items))).
  { unfold sentimentScore, st, scanItems, meanQ, sumQ.
    by rewrite scan_totalSentiment, float64_of_len_fmap. }
  unfold spec_sentimentScore. rewrite <- Hbase.
  unfold st, scanItems. rewrite scan_negativeCount. simpl negativeCount. rewrite Nat.add_0_l.
  rewrite (all_negative_test items) by done.
  destruct (forallb _ items); [|done].
  symmetry. apply clamp01_nonneg.
  assert (0 <= sentimentScore); [|lra].
  rewrite Hbase.
  assert (0 <= meanQ ((λ i, Qabs (NewsItem.Sentiment i)) <$> items)).
  { apply meanQ_nonneg; [done|]. apply Forall_fmap, Forall_true. intros x. apply Qabs_nonneg. }
  destruct (Min_spec 1 (meanQ ((λ i, Qabs (NewsItem.Sentiment i)) <$> items)))
    as [[_ ->]|[_ ->]]; lra.
Qed.

Lemma reach_spec items :
  float64_of_len (GoSort.Strings (spec_tickers items)) = spec_reach items.
Proof.
  unfold float64_of_len, spec_reach, spec_tickers, GoSort.Strings.
  rewrite Slice_length, dedup_first_length. by rewrite list_fmap_id.
Qed.

Lemma entityCount_spec items :
  float64_of_len (GoSort.Strings (spec_entities items)) = spec_entityCount items.
Proof.
  unfold float64_of_len, spec_entityCount, spec_entities, GoSort.Strings.
  by rewrite Slice_length, dedup_first_length.
Qed.

End metric_facts.

(** ** The event of a cluster that has items *)

Lemma sources_of_scan items first :
  sources (scanItems items first) = sourceRefOf <$> items.
Proof. unfold scanItems. by rewrite scan_sources. Qed.

(** The fields of the event that the properties below are about, in terms
    of the metrics of section 4.7 with the source score and tag score of
    the code. *)
Lemma buildEvent_fields s cluster :
  Cluster.Items cluster ≠ [] →
  let items := Cluster.Items cluster in
  let quoted := selectQuote (sourceRefOf <$> items) in
  let ev := buildEvent s cluster in
  Event.DedupGroup ev = Cluster.ID cluster ∧
  Event.Hotness ev = code_hotness s items ∧
  Event.Entities ev = GoSort.Strings (spec_entities items) ∧
  Event.Tickers ev = GoSort.Strings (spec_tickers items) ∧
  Event.Sources ev = quoted.2 ∧
  Draft.Quote (Event.Draft ev) = quoted.1.
Proof.
  intros Hne items quoted ev. subst ev. unfold buildEvent. fold items.
  destruct items as [|first rest] eqn:Hitems; [done|].
  cbv zeta. unfold buildDraft. cbv zeta.
  rewrite sources_of_scan. fold quoted. destruct quoted as [quote srcs].
  cbn [Event.DedupGroup Event.Hotness Event.Entities Event.Tickers Event.Sources
       Event.Draft Draft.Quote fst snd].
  rewrite scanItems_tickers, scanItems_entities.
  split; [done|]. split; [|done].
  rewrite weightedSum_literal.
  rewrite averageSourceWeight_capped, tagWeight_positive by done.
  rewrite novelty_of_spec, velocity_of_spec.
  pose proof (sentiment_spec first rest) as Hs. cbv zeta in Hs. rewrite Hs.
  by rewrite reach_spec, entityCount_spec.
Qed.

(** ** Hotness (claims C1 and C9) *)

Section hotness.
Local Open Scope Q_scope.
Import GoMath.

Lemma hotness_formula_range sourceScore tagScore items :
  0 <= hotness_formula sourceScore tagScore items <= 1.
Proof. unfold hotness_formula. apply roundTo_range, clamp01_range. Qed.

Lemma hotness_formula_grid sourceScore tagScore items :
  ∃ k : Z, hotness_formula sourceScore tagScore items = inject_Z k / 1000.
Proof.
  unfold hotness_formula, roundTo, Round. rewrite Pow10_3.
  destruct (Qlt_bool _ 0); eexists; reflexivity.
Qed.

(** For source weights that are not negative and tag weights that are
    positive, the two metrics of the code are those of section 4.7. *)
Lemma capped_sourceScore_spec s items :
  map_Forall (λ _ w, 0 <= w) (Scorer.SourceWeights s) → items ≠ [] →
  capped_sourceScore s items = spec_sourceScore s items.
Proof.
  intros Hs Hne. unfold capped_sourceScore, spec_sourceScore.
  destruct items as [|i items]; [done|].
  symmetry. apply clamp01_nonneg, meanQ_nonneg; [done|].
  apply Forall_fmap, Forall_true. intros x. simpl. unfold sourceWeightOf.
  destruct (Scorer.SourceWeights s !! _) as [w|] eqn:E; simpl; [|lra].
  by apply (Hs _ _ E).
Qed.

Lemma best_tag_ge a ws : a <= foldl (λ best w, Max w best) a ws.
Proof.
  revert a. induction ws as [|w ws IH]; intros a; simpl; [lra|].
  specialize (IH (Max w a)). destruct (Max_spec w a) as [[? E]|[? E]]; rewrite E in *; lra.
Qed.

Lemma positive_tagScore_spec s items :
  map_Forall (λ _ w, 0 < w) (Scorer.TagWeights s) →
  positive_tagScore s items = spec_tagScore s items.
Proof.
  intros Hs. unfold positive_tagScore, spec_tagScore, maxQ.
  assert (Hall : Forall (λ w, 0 < w) (matchedTagWeights s items)).
  { unfold matchedTagWeights. induction items as [|i items IH]; simpl; [constructor|].
    destruct (Scorer.TagWeights s !! _) as [w|] eqn:E; simpl; [|done].
    constructor; [by apply (Hs _ _ E)|done]. }
  destruct (matchedTagWeights s items) as [|x r]; [done|].
  apply Forall_cons in Hall as [Hx _]. simpl.
  assert (Max x 0 = x) as ->.
  { unfold Max. destruct (Qlt_bool_spec 0 x); [done|lra]. }
  pose proof (best_tag_ge x r) as Hge.
  destruct (Qeq_bool _ 0) eqn:E; [|done].
  apply Qeq_bool_iff in E. lra.
Qed.


Lemma DefaultScorer_weights :
  map_Forall (λ _ w, 0 <= w) (Scorer.SourceWeights DefaultScorer) ∧
  map_Forall (λ _ w, 0 < w) (Scorer.TagWeights DefaultScorer).
Proof.
  split; unfold DefaultScorer; simpl;
    repeat (apply map_Forall_insert_2; [lra|]); apply map_Forall_empty.
Qed.

(** *** Lower bounds of the seven terms *)

Lemma coverage_term_bound (items : list NewsItem) :
  items ≠ [] → 1 # 4 <= Min 1 (spec_coverage items / 4).
Proof.
  intros Hne. pose proof (float64_of_len_ge_1 items Hne) as H. unfold spec_coverage.
  destruct (Min_spec 1 (float64_of_len items / 4)) as [[_ ->]|[_ ->]]; qconst; lra.
Qed.

Lemma velocity_bound items : 2 # 10 <= spec_velocity items.
Proof.
  unfold spec_velocity. destruct (timestamps items) as [|t ts]; [lra|].
  cbv zeta. destruct (Qeq_bool _ 0); [lra|].
  match goal with |- _ <= Max ?a ?b => destruct (Max_spec a b) as [[_ ->]|[? ->]] end; lra.
Qed.

Lemma Min_1_nonneg x : 0 <= x → 0 <= Min 1 x.
Proof. intros Hx. destruct (Min_spec 1 x) as [[_ ->]|[_ ->]]; lra. Qed.

Lemma sourceWeights_nonneg s items :
  map_Forall (λ _ w, 0 <= w) (Scorer.SourceWeights s) →
  Forall (λ x, 0 <= x) (sourceWeightOf s <$> items).
Proof.
  intros Hs. apply Forall_fmap, Forall_true. intros i. simpl. unfold sourceWeightOf.
  destruct (Scorer.SourceWeights s !! _) as [w|] eqn:E; simpl; [|lra].
  by apply (Hs _ _ E).
Qed.

Lemma sourceScore_bound s items :
  map_Forall (λ _ w, 0 <= w) (Scorer.SourceWeights s) → items ≠ [] →
  0 <= capped_sourceScore s items.
Proof.
  intros Hs Hne. unfold capped_sourceScore. apply Min_1_nonneg, meanQ_nonneg.
  - by destruct items.
  - by apply sourceWeights_nonneg.
Qed.

Lemma sentimentScore_bound items : items ≠ [] → 0 <= spec_sentimentScore items.
Proof.
  intros Hne. unfold spec_sentimentScore.
  destruct (forallb _ items); [apply clamp01_range|].
  apply Min_1_nonneg, meanQ_nonneg; [by destruct items|].
  apply Forall_fmap, Forall_true. intros x. apply Qabs_nonneg.
Qed.

Lemma best_tag_nonneg a ws : 0 <= a → 0 <= foldl (λ best w, Max w best) a ws.
Proof.
  revert a. induction ws as [|w ws IH]; intros a Ha; simpl; [done|].
  apply IH. destruct (Max_spec w a) as [[? ->]|[? ->]]; lra.
Qed.

Lemma tagScore_bound s items : 0 < positive_tagScore s items.
Proof.
  unfold positive_tagScore. cbv zeta.
  pose proof (best_tag_nonneg 0 (matchedTagWeights s items) ltac:(lra)) as H.
  destruct (Qeq_bool _ 0) eqn:E; [lra|].
  apply Qeq_bool_neq in E. lra.
Qed.

Lemma size_nonneg n : 0 <= inject_Z (Z.of_nat n).
Proof. change 0 with (inject_Z 0). rewrite <- Zle_Qle. lia. Qed.

Lemma breadth_bound items : 0 <= spec_breadthScore items ∧ 0 <= spec_extentScore items.
Proof.
  unfold spec_breadthScore, spec_extentScore, spec_reach, spec_entityCount.
  split; apply Min_1_nonneg; match goal with |- 0 <= inject_Z (Z.of_nat ?n) / _ =>
    pose proof (size_nonneg n) end; qconst; lra.
Qed.

Lemma novelty_bound items : 4 # 10 <= spec_novelty items.
Proof.
  unfold spec_novelty. cbv zeta. destruct (Qle_bool _ 1); [lra|].
  match goal with |- _ <= 1 - Min ?a ?b => destruct (Min_spec a b) as [[? ->]|[? ->]] end; lra.
Qed.

(** With source weights that are not negative the hotness is at least
    0.045 + 0.036 + 0.028 = 0.109. *)
Lemma code_hotness_bound s items :
  map_Forall (λ _ w, 0 <= w) (Scorer.SourceWeights s) → items ≠ [] →
  inject_Z 109 / 1000 <= code_hotness s items.
Proof.
  intros Hs Hne. unfold code_hotness, hotness_formula.
  apply roundTo_ge; [lia|].
  pose proof (coverage_term_bound items Hne).
  pose proof (velocity_bound items).
  pose proof (sourceScore_bound s items Hs Hne).
  pose proof (sentimentScore_bound items Hne).
  pose proof (tagScore_bound s items).
  pose proof (breadth_bound items) as [??].
  pose proof (novelty_bound items).
  match goal with |- _ <= clamp01 ?v => destruct (clamp01_spec v) as [[? ->]|[[? ->]|[? ->]]] end;
    qconst; change (inject_Z 109) with 109; lra.
Qed.

(** *** The loop of [ScoreClusters] *)

Lemma buildEvent_empty s cluster : Cluster.Items cluster = [] → buildEvent s cluster = Event.zero.
Proof. intros H. unfold buildEvent. by rewrite H. Qed.

Lemma ScoreClusters_loop s events clusters :
  foldl (λ events cluster,
           let event := buildEvent s cluster in
           if Qle_bool (Event.Hotness event) 0 then events else events ++ [event])
        events clusters =
  events ++ filter (λ e, Qle_bool (Event.Hotness e) 0 = false) (buildEvent s <$> clusters).
Proof.
  revert events. induction clusters as [|c clusters IH]; intros events; simpl.
  - by rewrite app_nil_r.
  - rewrite IH, filter_cons. destruct (Qle_bool (Event.Hotness (buildEvent s c)) 0).
    + by rewrite decide_False by done.
    + rewrite decide_True by done. by rewrite <- app_assoc.
Qed.

(** The events that [ScoreClusters] returns are the events of positive
    hotness of the clusters, each once. *)
Lemma ScoreClusters_Permutation s clusters :
  ScoreClusters s clusters ≡ₚ
  filter (λ e, Qle_bool (Event.Hotness e) 0 = false) (buildEvent s <$> clusters).
Proof.
  unfold ScoreClusters. destruct clusters as [|c clusters]; [done|].
  by rewrite Slice_Permutation, ScoreClusters_loop.
Qed.

(** C9, as stated, fails: with source weight -10 the hotness of a cluster
    of one item is 0 and [ScoreClusters] drops its event. *)
Lemma C9_negative_weight_counterexample :
  Cluster.Items wireCluster ≠ [] ∧
  Event.Hotness (buildEvent (scorerWithSource (-10)) wireCluster) == 0 ∧
  ScoreClusters (scorerWithSource (-10)) [wireCluster] = [].
Proof. split; [discriminate|]. split; [|vm_compute; reflexivity]. vm_compute. reflexivity. Qed.

(** C9 (amended): for every scorer whose source weights are not negative
    (any tag weights), the hotness of a cluster with at least one item is
    at least 0.109, hence positive, so the drop branch of [ScoreClusters]
    is not taken for it, and [ScoreClusters] returns exactly one event for
    every input cluster that has items. *)
Theorem C9_hotness_positive (s : Scorer) :
  map_Forall (λ _ w, 0 <= w) (Scorer.SourceWeights s) →
  (∀ cluster, Cluster.Items cluster ≠ [] →
     inject_Z 109 / 1000 <= Event.Hotness (buildEvent s cluster) ∧
     Qle_bool (Event.Hotness (buildEvent s cluster)) 0 = false) ∧
  (∀ clusters,
     ScoreClusters s clusters ≡ₚ
     buildEvent s <$> filter (λ c, Cluster.Items c ≠ []) clusters).
Proof.
  intros Hs.
  assert (Hpos : ∀ cluster, Cluster.Items cluster ≠ [] →
     inject_Z 109 / 1000 <= Event.Hotness (buildEvent s cluster) ∧
     Qle_bool (Event.Hotness (buildEvent s cluster)) 0 = false).
  { intros cluster Hne. destruct (buildEvent_fields s cluster Hne) as (_ & -> & _).
    pose proof (code_hotness_bound s _ Hs Hne) as H. split; [done|].
    destruct (Qle_bool _ 0) eqn:E; [|done].
    apply Qle_bool_iff in E. revert H. qconst. change (inject_Z 109) with 109. lra. }
  split; [done|].
  intros clusters. rewrite ScoreClusters_Permutation.
  induction clusters as [|c clusters IH]; [done|].
  rewrite fmap_cons, !filter_cons.
  destruct (decide (Cluster.Items c ≠ [])) as [Hne|He].
  - destruct (Hpos c Hne) as [_ ->]. rewrite decide_True by done.
    rewrite fmap_cons. by rewrite IH.
  - assert (Cluster.Items c = []) as Hnil.
    { destruct (Cluster.Items c); [done|]. exfalso. by apply He. }
    rewrite (buildEvent_empty s c Hnil). by rewrite decide_False by done.
Qed.

Lemma C9_hotness_positive_witness :
  map_Forall (λ _ w, 0 <= w) (Scorer.SourceWeights (scorerWithSource (1 # 2))) ∧
  ScoreClusters (scorerWithSource (1 # 2)) [wireCluster] ≡ₚ
  buildEvent (scorerWithSource (1 # 2)) <$> filter (λ c, Cluster.Items c ≠ []) [wireCluster].
Proof.
  assert (H : map_Forall (λ _ w, 0 <= w) (Scorer.SourceWeights (scorerWithSource (1 # 2)))).
  { intros k w Hk. unfold scorerWithSource, Scorer.SourceWeights in Hk.
    apply lookup_singleton_Some in Hk as [_ <-]. lra. }
  split; [exact H|].
  exact (proj2 (C9_hotness_positive (scorerWithSource (1 # 2)) H) [wireCluster]).
Defined.

End hotness.

(** ** Order of the events (claim C4) *)

Section ranking.
Local Open Scope Q_scope.
Import GoMath.

Lemma StronglySorted_lookup {A} (R : relation A) (l : list A) i j x y :
  StronglySorted R l → (i < j)%nat → l !! i = Some x → l !! j = Some y → R x y.
Proof.
  intros Hl. revert i j. induction Hl as [|z l Hl IH Hz]; intros i j Hij Hi Hj; [done|].
  destruct j as [|j]; [lia|]. simpl in Hj.
  destruct i as [|i]; simpl in Hi.
  - injection Hi as ->. rewrite Forall_forall in Hz. apply Hz.
    by eapply list_elem_of_lookup_2.
  - apply (IH i j); [lia|done..].
Qed.

Lemma ScoreClusters_sorted s clusters :
  StronglySorted (λ a b, Event.Hotness b <= Event.Hotness a) (ScoreClusters s clusters).
Proof.
  unfold ScoreClusters. destruct clusters as [|c clusters]; [constructor|].
  eapply StronglySorted_weaken; [|apply Slice_sorted].
  - intros a b H. by apply Qlt_bool_false in H.
  - intros a b H. apply Qlt_bool_iff in H. apply Qlt_bool_false. lra.
  - intros a b c' H1 H2. apply Qlt_bool_false in H1, H2. apply Qlt_bool_false. lra.
Qed.

(** C4, as stated, fails on the tie-break: two clusters of equal hotness
    given in the order "b", "a" come back in that order. *)
Lemma C4_tie_break_counterexample :
  ¬ ties_by_id (ScoreClusters DefaultScorer [clusterB; clusterA']).
Proof.
  intros H.
  assert (E : ScoreClusters DefaultScorer [clusterB; clusterA'] =
              [buildEvent DefaultScorer clusterB; buildEvent DefaultScorer clusterA'])
    by (vm_compute; reflexivity).
  rewrite E in H.
  specialize (H 0%nat 1%nat _ _ ltac:(lia) eq_refl eq_refl).
  assert (Hle : String.le "b" "a"); [|by vm_compute in Hle].
  apply H. vm_compute. reflexivity.
Qed.

(** C4 (amended): the events that [ScoreClusters] returns are in
    non-increasing order of hotness, and they are the events of positive
    hotness of the input clusters; the order of events of equal hotness is
    not decided by their dedup-group ids. *)
Theorem C4_sorted_by_hotness (s : Scorer) (clusters : list Cluster) :
  hotness_descending (ScoreClusters s clusters) ∧
  ScoreClusters s clusters ≡ₚ
    filter (λ e, Qle_bool (Event.Hotness e) 0 = false) (buildEvent s <$> clusters).
Proof.
  split; [|apply ScoreClusters_Permutation].
  intros i j ei ej Hij Hi Hj.
  exact (StronglySorted_lookup _ _ i j ei ej (ScoreClusters_sorted s clusters) Hij Hi Hj).
Qed.

End ranking.

(** ** Tickers and entities of an event (claim C7) *)

Lemma spec_tickers_elem_of items t :
  t ∈ spec_tickers items ↔ t ∈ GoStrings.ToUpper <$> allTickers items.
Proof.
  unfold spec_tickers.
  pose proof (dedup_first_elem_of_key id t (GoStrings.ToUpper <$> allTickers items)) as H.
  by rewrite !list_fmap_id in H.
Qed.




(** ** Sources and quote of an event (claim C10) *)

Lemma selectQuote_sorted (refs : list SourceRef) :
  refs ≠ [] →
  (selectQuote refs).2 ≡ₚ refs ∧
  StronglySorted (λ a b, SourceRef.Published a <= SourceRef.Published b) (selectQuote refs).2 ∧
  ∃ r rest, (selectQuote refs).2 = r :: rest ∧
            (selectQuote refs).1 = SourceRef.Source r +:+ " — " +:+ SourceRef.Title r.
Proof.
  intros Hne. unfold selectQuote. destruct refs as [|r0 refs]; [done|].
  cbv zeta.
  pose proof (Slice_Permutation
    (λ a b, Before (SourceRef.Published a) (SourceRef.Published b)) (r0 :: refs)) as Hp.
  pose proof (Slice_by_time SourceRef.Published (r0 :: refs)) as Hs.
  destruct (GoSort.Slice _ (r0 :: refs)) as [|r rest] eqn:E.
  - by apply Permutation_nil_cons in Hp.
  - simpl. split; [done|]. split; [done|]. by exists r, rest.
Qed.

(** The events that [ScoreClusters] returns come from clusters with items. *)
Lemma ScoreClusters_elem_of s clusters ev :
  ev ∈ ScoreClusters s clusters →
  ∃ cluster, cluster ∈ clusters ∧ Cluster.Items cluster ≠ [] ∧ ev = buildEvent s cluster.
Proof.
  rewrite ScoreClusters_Permutation. intros [Hhot Hev]%list_elem_of_filter.
  apply list_elem_of_fmap in Hev as (c & -> & Hc).
  exists c. split; [done|]. split; [|done].
  intros Hnil. by rewrite (buildEvent_empty s c Hnil) in Hhot.
Qed.

(** C10: every event that [ScoreClusters] returns is built from an input
    cluster; its Sources are the source references of that cluster's items
    in ascending order of Published, whatever the order of the items; its
    first source is therefore an earliest one, and the quote of its draft
    is that source's name, " — " and its title. *)
Theorem C10_sources_sorted_by_time (s : Scorer) (clusters : list Cluster) (ev : Event) :
  ev ∈ ScoreClusters s clusters →
  ∃ cluster, cluster ∈ clusters ∧ ev = buildEvent s cluster ∧
    Event.Sources ev ≡ₚ sourceRefOf <$> Cluster.Items cluster ∧
    StronglySorted (λ a b, SourceRef.Published a <= SourceRef.Published b) (Event.Sources ev) ∧
    ∃ r rest, Event.Sources ev = r :: rest ∧
      Forall (λ x, SourceRef.Published r <= SourceRef.Published x) rest ∧
      Draft.Quote (Event.Draft ev) = SourceRef.Source r +:+ " — " +:+ SourceRef.Title r.
Proof.
  intros (c & Hc & Hne & ->)%ScoreClusters_elem_of.
  exists c. split; [done|]. split; [done|].
  destruct (buildEvent_fields s c Hne) as (_ & _ & _ & _ & -> & ->).
  assert (Hrefs : sourceRefOf <$> Cluster.Items c ≠ []).
  { destruct (Cluster.Items c); [done|discriminate]. }
  destruct (selectQuote_sorted _ Hrefs) as (Hp & Hs & r & rest & E & Hq).
  split; [done|]. split; [done|].
  exists r, rest. split; [done|]. split; [|done].
  rewrite E in Hs. by apply StronglySorted_inv in Hs as [_ Hs].
Qed.

Lemma C10_sources_sorted_by_time_witness :
  buildEvent DefaultScorer clusterBA ∈ ScoreClusters DefaultScorer [clusterBA] ∧
  ∃ cluster, cluster ∈ [clusterBA] ∧
    buildEvent DefaultScorer clusterBA = buildEvent DefaultScorer cluster ∧
    Event.Sources (buildEvent DefaultScorer clusterBA) ≡ₚ sourceRefOf <$> Cluster.Items cluster ∧
    StronglySorted (λ a b, SourceRef.Published a <= SourceRef.Published b)
      (Event.Sources (buildEvent DefaultScorer clusterBA)) ∧
    ∃ r rest, Event.Sources (buildEvent DefaultScorer clusterBA) = r :: rest ∧
      Forall (λ x, SourceRef.Published r <= SourceRef.Published x) rest ∧
      Draft.Quote (Event.Draft (buildEvent DefaultScorer clusterBA)) =
        SourceRef.Source r +:+ " — " +:+ SourceRef.Title r.
Proof.
  assert (H : buildEvent DefaultScorer clusterBA ∈ ScoreClusters DefaultScorer [clusterBA]).
  { assert (ScoreClusters DefaultScorer [clusterBA] = [buildEvent DefaultScorer clusterBA]) as ->
      by (vm_compute; reflexivity).
    apply list_elem_of_here. }
  split; [exact H|].
  exact (C10_sources_sorted_by_time DefaultScorer [clusterBA] _ H).
Defined.

(** The sources of [clusterBA], whose later item comes first, are
    returned earliest first, and the quote is taken from the earliest. *)
Example sources_of_clusterBA :
  NewsItem.ID <$> Cluster.Items clusterBA = ["b"; "a"] ∧
  SourceRef.Published <$> Event.Sources (buildEvent DefaultScorer clusterBA) = [100; 200] ∧
  Draft.Quote (Event.Draft (buildEvent DefaultScorer clusterBA)) = "Reuters — Headline a".
Proof. vm_compute. done. Qed.

(** ** Similarity (claim C8) *)

Section similarity.
Local Open Scope Q_scope.

Lemma set_of_union (seen : gset string) l :
  foldl (λ set t, {[t]} ∪ set) seen l = list_to_set l ∪ seen.
Proof.
  revert seen. induction l as [|x l IH]; intros seen; simpl; [set_solver|].
  rewrite IH. set_solver.
Qed.

Lemma set_of_list l : set_of l = list_to_set l.
Proof. unfold set_of. rewrite set_of_union. set_solver. Qed.

Lemma set_of_nonempty l : l ≠ [] → size (set_of l) ≠ 0%nat.
Proof.
  intros Hl. rewrite set_of_list. apply size_non_empty_iff.
  destruct l as [|x l]; [done|]. set_solver.
Qed.

Lemma count_filter {A} (P : A → Prop) `{∀ x, Decision (P x)} (l : list A) n :
  foldl (λ n x, if decide (P x) then S n else n) n l = (n + length (filter P l))%nat.
Proof.
  revert n. induction l as [|x l IH]; intros n; simpl; [lia|].
  rewrite IH, filter_cons. destruct (decide (P x)); simpl; lia.
Qed.

(** The counter of the loop over [setA] is the size of the intersection. *)
Lemma intersection_count (setA setB : gset string) :
  foldl (λ n token, if decide (token ∈ setB) then S n else n) 0%nat (elements setA) =
  size (setA ∩ setB).
Proof.
  rewrite (count_filter (λ token, token ∈ setB)). simpl.
  rewrite <- (size_list_to_set (C := gset string)) by apply NoDup_filter, NoDup_elements.
  f_equal. apply set_eq. intros x.
  rewrite elem_of_list_to_set, list_elem_of_filter, elem_of_elements. set_solver.
Qed.

Lemma similarityScore_unfold a b :
  similarityScore a b =
    if Nat.eqb (length (tokenize a)) 0 || Nat.eqb (length (tokenize b)) 0 then 0
    else
      let setA := set_of (tokenize a) in
      let setB := set_of (tokenize b) in
      let union := (Z.of_nat (size setA) + Z.of_nat (size setB)
                    - Z.of_nat (size (setA ∩ setB)))%Z in
      if (union =? 0)%Z then 0
      else inject_Z (Z.of_nat (size (setA ∩ setB))) / inject_Z union.
Proof. unfold similarityScore. cbv zeta. by rewrite intersection_count. Qed.

(** C8: the similarity of a string with itself is 1 whenever it has a
    token, and similarity is symmetric. *)
Theorem C8_similarity_reflexive_symmetric :
  (∀ a, tokenize a ≠ [] → similarityScore a a == 1) ∧
  (∀ a b, similarityScore a b = similarityScore b a).
Proof.
  split.
  - intros a Ha. rewrite similarityScore_unfold.
    destruct (tokenize a) as [|t ts] eqn:E; [done|]. simpl length. simpl orb. cbv zeta.
    pose proof (set_of_nonempty (t :: ts) ltac:(done)) as Hsize.
    replace (set_of (t :: ts) ∩ set_of (t :: ts)) with (set_of (t :: ts)) by set_solver.
    set (n := size (set_of (t :: ts))) in *.
    replace (Z.of_nat n + Z.of_nat n - Z.of_nat n)%Z with (Z.of_nat n) by lia.
    destruct (Z.eqb_spec (Z.of_nat n) 0) as [Hz|Hz]; [lia|].
    apply Qmult_inv_r. intros Hq.
    unfold Qeq in Hq. simpl in Hq. lia.
  - intros a b. rewrite !similarityScore_unfold. cbv zeta.
    rewrite (orb_comm (Nat.eqb (length (tokenize b)) 0)).
    rewrite (comm_L (∩) (set_of (tokenize b))).
    by rewrite (Z.add_comm (Z.of_nat (size (set_of (tokenize b))))).
Qed.

Lemma C8_similarity_reflexive_symmetric_witness :
  tokenize "Company A cuts guidance" ≠ [] ∧
  similarityScore "Company A cuts guidance" "Company A cuts guidance" == 1.
Proof.
  split; [by vm_compute|].
  apply (proj1 C8_similarity_reflexive_symmetric). by vm_compute.
Defined.

Example tokenize_headline :
  tokenize "Factory fire hits Company A supplier (update)" =
    ["factory"; "fire"; "hits"; "company"; "supplier"; "update"].
Proof. vm_compute. reflexivity. Qed.

Example similarity_headlines :
  similarityScore "Company A cuts guidance" "Company A: guidance cut!" == 1 # 2.
Proof. vm_compute. reflexivity. Qed.

End similarity.

(** ** Heuristic clusterer (claim C2) *)

Section heuristic_facts.
Variable uuid : nat → string.
Variable c : HeuristicClusterer.

Lemma assign_Permutation item clusters clusters' :
  assign c item clusters = Some clusters' →
  allItems clusters' ≡ₚ item :: allItems clusters.
Proof.
  revert clusters'. induction clusters as [|cl rest IH]; intros clusters' H; [done|].
  simpl in H.
  assert (Hrec : ∀ r, cons cl <$> assign c item rest = Some r →
                      allItems r ≡ₚ item :: allItems (cl :: rest)).
  { intros r Hr. destruct (assign c item rest) as [rest'|]; [|done].
    injection Hr as <-. simpl. rewrite (IH rest' eq_refl).
    by rewrite Permutation_middle. }
  destruct (_ <=? _); [by apply Hrec|].
  destruct (negb _); [by apply Hrec|].
  destruct (clusterContainsRelated _ _ _); [|by apply Hrec].
  injection H as <-. simpl. rewrite <- app_assoc. simpl.
  by rewrite <- Permutation_middle.
Qed.

Lemma place_Permutation clusters item :
  allItems (place uuid c clusters item) ≡ₚ item :: allItems clusters.
Proof.
  unfold place. destruct (assign c item clusters) as [clusters'|] eqn:E.
  - by apply assign_Permutation.
  - rewrite fmap_app, concat_app. simpl.
    by rewrite <- Permutation_cons_append.
Qed.

Lemma foldl_place_Permutation clusters items :
  allItems (foldl (place uuid c) clusters items) ≡ₚ allItems clusters ++ items.
Proof.
  revert clusters. induction items as [|i items IH]; intros clusters; simpl.
  - by rewrite app_nil_r.
  - rewrite IH, place_Permutation. simpl. apply Permutation_middle.
Qed.

(** The clusters hold the input items, each occurrence once. *)
Lemma BuildClusters_Permutation items :
  allItems (BuildClusters uuid c items) ≡ₚ items.
Proof.
  unfold BuildClusters. destruct items as [|i items]; [done|].
  rewrite foldl_place_Permutation. simpl. apply Slice_Permutation.
Qed.

Abbreviation wellSized := (wellSized c).

Lemma assign_wellSized item clusters clusters' :
  assign c item clusters = Some clusters' →
  Forall wellSized clusters → Forall wellSized clusters'.
Proof.
  revert clusters'. induction clusters as [|cl rest IH]; intros clusters' H Hall; [done|].
  simpl in H. apply Forall_cons in Hall as [Hcl Hrest].
  assert (Hrec : ∀ r, cons cl <$> assign c item rest = Some r → Forall wellSized r).
  { intros r Hr. destruct (assign c item rest) as [rest'|]; [|done].
    injection Hr as <-. constructor; [done|]. by apply IH. }
  destruct (Z.leb_spec (HeuristicClusterer.MaxClusterSize c) (len (Cluster.Items cl)))
    as [Hfull|Hroom]; [by apply Hrec|].
  destruct (negb _); [by apply Hrec|].
  destruct (clusterContainsRelated _ _ _); [|by apply Hrec].
  injection H as <-. constructor; [|done].
  split; simpl.
  - by destruct (Cluster.Items cl).
  - intros _. unfold len in *. rewrite length_app. simpl. lia.
Qed.

Lemma place_wellSized clusters item :
  Forall wellSized clusters → Forall wellSized (place uuid c clusters item).
Proof.
  intros Hall. unfold place. destruct (assign c item clusters) as [clusters'|] eqn:E.
  - by eapply assign_wellSized.
  - apply Forall_app. split; [done|]. constructor; [|constructor].
    split; simpl; [done|]. intros H. unfold len. simpl. lia.
Qed.

Lemma BuildClusters_wellSized items : Forall wellSized (BuildClusters uuid c items).
Proof.
  unfold BuildClusters. destruct items as [|i items]; [constructor|].
  generalize (GoSort.Slice byPublishedAt (i :: items)). intros l.
  assert (H : Forall wellSized []) by constructor. revert H. generalize (@nil Cluster).
  induction l as [|x l IH]; intros clusters H; simpl; [done|].
  by apply IH, place_wellSized.
Qed.

End heuristic_facts.

(** C2, as stated, fails on the size bound for a clusterer whose
    [MaxClusterSize] is 0: every item founds a cluster of its own, which
    has one item. *)
Lemma C2_size_bound_counterexample :
  ¬ Forall (λ cl, len (Cluster.Items cl) <= HeuristicClusterer.MaxClusterSize unboundedClusterer)
      (BuildClusters (λ _, "uuid") unboundedClusterer [wireItem]).
Proof.
  intros H. apply Forall_cons in H as [H _]. vm_compute in H. by apply H.
Qed.

(** C2 (amended): for every clusterer and every input list, the clusters
    that [BuildClusters] returns partition the input: their item lists
    together hold every occurrence of an input item exactly once (so,
    with distinct input items, no item is in two clusters), and every
    cluster has at least one item; every cluster has at most
    [MaxClusterSize] items provided [MaxClusterSize] is at least 1, as in
    every clusterer made by [NewHeuristicClusterer]. *)
Theorem C2_clusters_partition_input (uuid : nat → string) (c : HeuristicClusterer)
    (items : list NewsItem) :
  let clusters := BuildClusters uuid c items in
  concat (Cluster.Items <$> clusters) ≡ₚ items ∧
  (NoDup items → NoDup (concat (Cluster.Items <$> clusters))) ∧
  Forall (λ cl, Cluster.Items cl ≠ []) clusters ∧
  (1 <= HeuristicClusterer.MaxClusterSize c →
   Forall (λ cl, len (Cluster.Items cl) <= HeuristicClusterer.MaxClusterSize c) clusters).
Proof.
  intros clusters. subst clusters.
  pose proof (BuildClusters_Permutation uuid c items) as Hp.
  pose proof (BuildClusters_wellSized uuid c items) as Hw.
  split; [done|]. split; [by rewrite Hp|].
  split.
  - eapply Forall_impl; [exact Hw|]. by intros cl [? _].
  - intros Hmax. eapply Forall_impl; [exact Hw|]. intros cl [_ H]. by apply H.
Qed.

Lemma C2_clusters_partition_input_witness :
  1 <= HeuristicClusterer.MaxClusterSize (NewHeuristicClusterer (8 * Hour) (4 # 10)) ∧
  Forall (λ cl, len (Cluster.Items cl) <=
                HeuristicClusterer.MaxClusterSize (NewHeuristicClusterer (8 * Hour) (4 # 10)))
    (BuildClusters (λ _, "uuid") (NewHeuristicClusterer (8 * Hour) (4 # 10)) [itemB; itemA]).
Proof.
  assert (H : 1 <= HeuristicClusterer.MaxClusterSize (NewHeuristicClusterer (8 * Hour) (4 # 10)))
    by (simpl; lia).
  split; [exact H|].
  exact (proj2 (proj2 (proj2 (C2_clusters_partition_input (λ _, "uuid")
    (NewHeuristicClusterer (8 * Hour) (4 # 10)) [itemB; itemA]))) H).
Defined.

(** Scenario S1: two events, whatever the order of the input. *)
Example heuristic_two_events :
  (λ cl, NewsItem.ID <$> Cluster.Items cl) <$>
    BuildClusters (λ _, "uuid") (NewHeuristicClusterer (8 * Hour) (4 # 10))
      [storyD; storyB; storyC; storyA] = [["a"; "b"]; ["c"; "d"]].
Proof. vm_compute. reflexivity. Qed.

(** ** LLM clusterer: fallback (claim C5) *)

Section llm_facts.
Context {St : Type}.
Variable json_MarshalIndent : list NewsItem → result string.
Variable userPrompt : string → string.
Variable json_Unmarshal : string → result (list llmCluster).

Abbreviation run := (LLMBuildClusters json_MarshalIndent userPrompt json_Unmarshal).
Abbreviation failure := (LLMFailure json_MarshalIndent userPrompt json_Unmarshal).

Lemma buildWithFallback_configured (c : LLMClusterer St) fb items cause :
  Fallback c = Some fb → buildWithFallback c items cause = fallbackOutcome fb items cause.
Proof. intros H. unfold buildWithFallback, fallbackOutcome. rewrite H. by destruct (fb items). Qed.

(** Every failure of the LLM path ends in [buildWithFallback] with its
    cause. *)
Lemma failure_falls_back (c : LLMClusterer St) items st cause :
  items ≠ [] → failure c items st cause →
  (run c items st).1 = buildWithFallback c items cause.
Proof.
  intros Hne Hf. unfold LLMBuildClusters. destruct items as [|i items]; [done|].
  destruct Hf as [[Hc|Hm]|client err Hc Hm Hp|client payload err st' Hc Hm Hp Hr
                 |client payload resp st' Hc Hm Hp Hr Hch
                 |client payload resp st' choice choices err Hc Hm Hp Hr Hch Hparse
                 |client payload resp st' choice choices Hc Hm Hp Hr Hch Hparse].
  - by rewrite Hc.
  - destruct (Client c); [|done]. by rewrite decide_True by done.
  - rewrite Hc, decide_False by done. cbv zeta. by rewrite Hp.
  - rewrite Hc, decide_False by done. cbv zeta. by rewrite Hp, Hr.
  - rewrite Hc, decide_False by done. cbv zeta. by rewrite Hp, Hr, Hch.
  - rewrite Hc, decide_False by done. cbv zeta. by rewrite Hp, Hr, Hch, Hparse.
  - rewrite Hc, decide_False by done. cbv zeta. by rewrite Hp, Hr, Hch, Hparse.
Qed.

(** The result is either the clusters of the LLM, at least one, or what
    [buildWithFallback] returns for a failure. *)
Lemma run_cases (c : LLMClusterer St) items st :
  items ≠ [] →
  (∃ clusters, (run c items st).1 = Ok clusters ∧ clusters ≠ []) ∨
  (∃ cause, failure c items st cause ∧
            (run c items st).1 = buildWithFallback c items cause).
Proof.
  intros Hne.
  destruct (Client c) as [client|] eqn:Hc; cycle 1.
  { right. eexists. split; [apply failMisconfigured; by left|].
    unfold LLMBuildClusters. destruct items; [done|]. by rewrite Hc. }
  destruct (decide (Model c = "")) as [Hm|Hm].
  { right. eexists. split; [apply failMisconfigured; by right|].
    unfold LLMBuildClusters. destruct items; [done|]. by rewrite Hc, decide_True by done. }
  destruct (buildPrompt json_MarshalIndent userPrompt (promptItems c items))
    as [payload|err] eqn:Hp; cycle 1.
  { right. exists err. split; [by eapply failPrompt|].
    unfold LLMBuildClusters. destruct items; [done|].
    rewrite Hc, decide_False by done. cbv zeta. by rewrite Hp. }
  destruct (client (requestFor c payload) st) as [[resp|err] st'] eqn:Hr; cycle 1.
  { right. exists err. split; [by eapply failClient|].
    unfold LLMBuildClusters. destruct items; [done|].
    rewrite Hc, decide_False by done. cbv zeta. by rewrite Hp, Hr. }
  destruct (llm.Choices resp) as [|choice choices] eqn:Hch.
  { right. eexists. split; [by eapply failNoChoices|].
    unfold LLMBuildClusters. destruct items; [done|].
    rewrite Hc, decide_False by done. cbv zeta. by rewrite Hp, Hr, Hch. }
  destruct (parseResponse json_Unmarshal (llm.MessageContent choice) items)
    as [[|cl clusters]|err] eqn:Hparse.
  - right. eexists. split; [by eapply failNoClusters|].
    unfold LLMBuildClusters. destruct items; [done|].
    rewrite Hc, decide_False by done. cbv zeta. by rewrite Hp, Hr, Hch, Hparse.
  - left. exists (cl :: clusters). split; [|done].
    unfold LLMBuildClusters. destruct items; [done|].
    rewrite Hc, decide_False by done. cbv zeta. by rewrite Hp, Hr, Hch, Hparse.
  - right. exists err. split; [by eapply failParse|].
    unfold LLMBuildClusters. destruct items; [done|].
    rewrite Hc, decide_False by done. cbv zeta. by rewrite Hp, Hr, Hch, Hparse.
Qed.


End llm_facts.



(** ** LLM clusterer: upstream calls (claim C3) *)

Section upstream_calls.
Context {St : Type}.
Variable json_MarshalIndent : list NewsItem → result string.
Variable userPrompt : string → string.
Variable json_Unmarshal : string → result (list llmCluster).

(** A call on a non-empty input with a client, a model name and a prompt
    that marshals reaches the client once, whatever was asked before. *)
Lemma one_call_one_request (c : LLMClusterer (St * nat)) client items st n :
  Client c = Some (countingClient client) → Model c ≠ "" → items ≠ [] →
  (∃ newsJSON, json_MarshalIndent (promptItems c items) = Ok newsJSON) →
  ∃ r st', LLMBuildClusters json_MarshalIndent userPrompt json_Unmarshal c items (st, n) =
           (r, (st', S n)).
Proof.
  intros Hc Hm Hne [newsJSON Hjs]. unfold LLMBuildClusters.
  destruct items as [|i items]; [done|].
  rewrite Hc, decide_False by done. cbv zeta.
  unfold buildPrompt. rewrite Hjs. unfold countingClient. simpl.
  destruct (client _ st) as [[resp|err] st']; [|by eauto].
  destruct (llm.Choices resp) as [|choice choices]; [by eauto|].
  destruct (parseResponse _ _ _) as [[|cl clusters]|err]; by eauto.
Qed.

(** C3 on the code: two successive calls of [BuildClusters] with the same
    clusterer and the same non-empty input send two requests to the chat
    client; no call is served from a cache, whatever the time between
    them. *)
Theorem C3_two_calls_two_requests (c : LLMClusterer (St * nat)) client items st n :
  Client c = Some (countingClient client) → Model c ≠ "" → items ≠ [] →
  (∃ newsJSON, json_MarshalIndent (promptItems c items) = Ok newsJSON) →
  (buildTwice json_MarshalIndent userPrompt json_Unmarshal c items (st, n)).2.2 = S (S n).
Proof.
  intros Hc Hm Hne Hjs. unfold buildTwice.
  destruct (one_call_one_request c client items st n Hc Hm Hne Hjs) as (r1 & st1 & ->).
  by destruct (one_call_one_request c client items st1 (S n) Hc Hm Hne Hjs) as (r2 & st2 & ->).
Qed.

End upstream_calls.

Lemma C3_two_calls_two_requests_witness :
  (buildTwice marshalStub promptStub (decodeTo [declaredSame])
     (mkLLMClusterer (Some (countingClient fakeChatClient.ChatCompletion))
        "gemini-2.5-flash" 0 0 0 (Some testFallback))
     [llmItem1; llmItem2] (fakeChatClient.mk "{}" None 0, 0%nat)).2.2 = 2%nat.
Proof.
  apply (C3_two_calls_two_requests marshalStub promptStub (decodeTo [declaredSame])
           _ fakeChatClient.ChatCompletion);
    [reflexivity|discriminate|discriminate|by eexists].
Defined.

(** The scenario of [TestLLMClustererCachesBySignature]: the same two items
    twice; the test expects [calls] to be 1. *)
Example cache_test_counts_two_calls :
  fakeChatClient.calls
    (buildTwice marshalStub promptStub (decodeTo [declaredSame])
       (testClusterer (Some testFallback)) [llmItem1; llmItem2]
       (fakeChatClient.mk "{}" None 0)).2 = 2%nat.
Proof. vm_compute. reflexivity. Qed.

(** ** LLM response parser: the primary item (claim C6) *)

Section primary.

(** The summary back-fill that [parseResponse] applies to the primary. *)
Lemma resolveCluster_primary itemByID declared cl :
  resolveCluster itemByID declared = Some cl →
  ∃ first rest chosen,
    omap (λ id, itemByID !! id) (llmCluster.NewsIDs declared) = first :: rest ∧
    chosen = (if decide (llmCluster.PrimaryNewsID declared ≠ "")
              then default first (itemByID !! llmCluster.PrimaryNewsID declared)
              else first) ∧
    Cluster.Items cl = GoSort.Slice byPublishedAt (first :: rest) ∧
    Cluster.Primary cl =
      (if bool_decide (llmCluster.SummaryEN declared ≠ "")
          && bool_decide (NewsItem.Summary chosen = "")
       then withSummary chosen (llmCluster.SummaryEN declared)
       else chosen).
Proof.
  unfold resolveCluster.
  destruct (omap _ (llmCluster.NewsIDs declared)) as [|first rest]; [done|].
  cbv zeta. intros [= <-]. exists first, rest. eexists. split; [done|]. split; [done|].
  simpl. split; [done|].
  destruct (decide (llmCluster.PrimaryNewsID declared ≠ "")); [|done].
  by destruct (itemByID !! llmCluster.PrimaryNewsID declared).
Qed.

(** The half of C6 that holds: a declared primary that is a known input
    item becomes the primary (with its empty summary filled in from the
    declared English summary, if any). *)
Lemma declared_primary_is_primary itemByID declared cl candidate :
  resolveCluster itemByID declared = Some cl →
  llmCluster.PrimaryNewsID declared ≠ "" →
  itemByID !! llmCluster.PrimaryNewsID declared = Some candidate →
  Cluster.Primary cl = candidate ∨
  Cluster.Primary cl = withSummary candidate (llmCluster.SummaryEN declared).
Proof.
  intros H Hid Hc.
  apply resolveCluster_primary in H as (first & rest & chosen & _ & Hch & _ & ->).
  rewrite decide_True, Hc in Hch by done. simpl in Hch. subst chosen.
  destruct (_ && _); auto.
Qed.

(** C6 on the code: the response lists "n2" (published at 200) before "n1"
    (published at 100) and names no primary; the cluster's items come out
    ordered by time, but its primary is "n2", the first listed, not "n1",
    the earliest by published timestamp. *)
Theorem C6_default_primary_is_first_listed :
  ∃ cl,
    parseResponse (decodeTo [declaredLaterFirst]) "{}" [llmItem1; llmItem2] = Ok [cl] ∧
    Cluster.Items cl = [llmItem1; llmItem2] ∧
    Cluster.Primary cl = llmItem2 ∧
    NewsItem.PublishedAt llmItem1 < NewsItem.PublishedAt llmItem2.
Proof.
  eexists. split; [vm_compute; reflexivity|]. split; [reflexivity|].
  split; [reflexivity|]. reflexivity.
Qed.

End primary.

(** * Further properties of the code *)

(** ** Heuristic clusterer: shape of the clusters *)

Section heuristic_shape.
Variable uuid : nat → string.
Variable c : HeuristicClusterer.

Lemma last_cons {A} (l : list A) (x d : A) : List.last (x :: l) d = List.last l x.
Proof.
  revert x d. induction l as [|y l IH]; intros x d; [done|].
  change (List.last (x :: y :: l) d) with (List.last (y :: l) d).
  by rewrite !IH.
Qed.

Lemma last_elem_of {A} (l : list A) (d : A) : List.last l d ∈ d :: l.
Proof.
  revert d. induction l as [|x l IH]; intros d; [by left|].
  rewrite last_cons. right. apply IH.
Qed.

Lemma elem_of_concat {A} (x : A) (ls : list (list A)) :
  x ∈ concat ls ↔ ∃ l, l ∈ ls ∧ x ∈ l.
Proof.
  rewrite list_elem_of_In, in_concat. split; intros (l & H1 & H2); exists l.
  - by rewrite !list_elem_of_In.
  - by rewrite <- !list_elem_of_In.
Qed.

Lemma absorb_timeOrdered cl item :
  timeOrdered cl →
  Forall (λ i, NewsItem.PublishedAt i <= NewsItem.PublishedAt item) (Cluster.Items cl) →
  timeOrdered (absorb cl item).
Proof.
  intros (first & rest & Hitems & Hsorted & Hprim & Hann & Hstart & Hend) Hle.
  exists first, (rest ++ [item]). unfold absorb. simpl.
  rewrite Hitems in *. rewrite Hprim, Hstart, Hend, Hann.
  rewrite Forall_forall in Hle.
  assert (Hfirst : NewsItem.PublishedAt first <= NewsItem.PublishedAt item)
    by (apply Hle; by left).
  assert (Hlast : NewsItem.PublishedAt (List.last rest first) <= NewsItem.PublishedAt item)
    by (apply Hle, last_elem_of).
  rewrite last_last. unfold Before, After.
  split; [done|]. split.
  - change (first :: rest ++ [item]) with ((first :: rest) ++ [item]).
    apply StronglySorted_app. split; [|split; [done|repeat constructor]].
    intros x y Hx ->%list_elem_of_singleton. by apply Hle.
  - split; [by destruct (Z.ltb_spec (NewsItem.PublishedAt item) (NewsItem.PublishedAt first)); [lia|]|].
    split; [done|]. split.
    + destruct (Z.ltb_spec (NewsItem.PublishedAt item) (NewsItem.PublishedAt first)); [lia|done].
    + destruct (Z.ltb_spec (NewsItem.PublishedAt (List.last rest first))
                  (NewsItem.PublishedAt item)); [done|lia].
Qed.

Lemma assign_timeOrdered item clusters clusters' :
  assign c item clusters = Some clusters' →
  Forall timeOrdered clusters →
  Forall (λ cl, Forall (λ i, NewsItem.PublishedAt i <= NewsItem.PublishedAt item)
                  (Cluster.Items cl)) clusters →
  Forall timeOrdered clusters'.
Proof.
  revert clusters'. induction clusters as [|cl rest IH]; intros clusters' H Hall Hle; [done|].
  simpl in H. apply Forall_cons in Hall as [Hcl Hrest]. apply Forall_cons in Hle as [Hlecl Hlerest].
  assert (Hrec : ∀ r, cons cl <$> assign c item rest = Some r → Forall timeOrdered r).
  { intros r Hr. destruct (assign c item rest) as [rest'|]; [|done].
    injection Hr as <-. constructor; [done|]. by apply IH. }
  destruct (_ <=? _); [by apply Hrec|].
  destruct (negb _); [by apply Hrec|].
  destruct (clusterContainsRelated _ _ _); [|by apply Hrec].
  injection H as <-. constructor; [|done]. by apply absorb_timeOrdered.
Qed.

Lemma place_timeOrdered clusters item :
  Forall timeOrdered clusters →
  Forall (λ cl, Forall (λ i, NewsItem.PublishedAt i <= NewsItem.PublishedAt item)
                  (Cluster.Items cl)) clusters →
  Forall timeOrdered (place uuid c clusters item).
Proof.
  intros Hall Hle. unfold place. destruct (assign c item clusters) as [clusters'|] eqn:E.
  - by eapply assign_timeOrdered.
  - apply Forall_app. split; [done|]. constructor; [|constructor].
    exists item, []. simpl. split; [done|]. split; [repeat constructor|]. done.
Qed.

Lemma foldl_place_timeOrdered clusters items :
  StronglySorted (λ a b, NewsItem.PublishedAt a <= NewsItem.PublishedAt b) items →
  Forall timeOrdered clusters →
  (∀ i x, i ∈ allItems clusters → x ∈ items →
          NewsItem.PublishedAt i <= NewsItem.PublishedAt x) →
  Forall timeOrdered (foldl (place uuid c) clusters items).
Proof.
  intros Hs. revert clusters. induction Hs as [|x items Hs IH Hx]; intros clusters Hall Hle; [done|].
  simpl. apply IH.
  - apply place_timeOrdered; [done|].
    rewrite Forall_forall. intros cl Hcl. rewrite Forall_forall. intros i Hi.
    apply Hle; [|by left]. apply elem_of_concat. exists (Cluster.Items cl).
    split; [|done]. by apply list_elem_of_fmap_2.
  - intros i y Hi Hy. rewrite place_Permutation in Hi.
    apply elem_of_cons in Hi as [->|Hi].
    + rewrite Forall_forall in Hx. by apply Hx.
    + apply Hle; [done|by right].
Qed.

(** X1: every cluster that the heuristic clusterer returns has its items in
    ascending order of time, its primary is the first (an earliest) item,
    its start and end are the times of its first and last item, and it has
    no annotations. *)
Theorem heuristic_clusters_time_ordered (items : list NewsItem) :
  Forall timeOrdered (BuildClusters uuid c items).
Proof.
  unfold BuildClusters. destruct items as [|i items]; [constructor|].
  apply foldl_place_timeOrdered.
  - apply (Slice_by_time NewsItem.PublishedAt).
  - constructor.
  - intros i' x Hi. by apply elem_of_nil in Hi.
Qed.

Lemma assign_IDs item clusters clusters' :
  assign c item clusters = Some clusters' →
  Cluster.ID <$> clusters' = Cluster.ID <$> clusters.
Proof.
  revert clusters'. induction clusters as [|cl rest IH]; intros clusters' H; [done|].
  simpl in H.
  assert (Hrec : ∀ r, cons cl <$> assign c item rest = Some r →
                      Cluster.ID <$> r = Cluster.ID <$> (cl :: rest)).
  { intros r Hr. destruct (assign c item rest) as [rest'|]; [|done].
    injection Hr as <-. simpl. f_equal. by apply IH. }
  destruct (_ <=? _); [by apply Hrec|].
  destruct (negb _); [by apply Hrec|].
  destruct (clusterContainsRelated _ _ _); [|by apply Hrec].
  by injection H as <-.
Qed.

Lemma foldl_place_IDs clusters items :
  Cluster.ID <$> clusters = uuid <$> seq 0 (length clusters) →
  let clusters' := foldl (place uuid c) clusters items in
  Cluster.ID <$> clusters' = uuid <$> seq 0 (length clusters').
Proof.
  revert clusters. induction items as [|x items IH]; intros clusters Hids; [done|].
  simpl. apply IH. unfold place.
  destruct (assign c x clusters) as [clusters'|] eqn:E.
  - pose proof (assign_IDs _ _ _ E) as Hsame.
    assert (length clusters' = length clusters) as ->.
    { by rewrite <- (length_fmap Cluster.ID clusters'), Hsame, length_fmap. }
    by rewrite Hsame.
  - rewrite fmap_app, length_app, Hids. simpl.
    by rewrite Nat.add_1_r, seq_S, fmap_app.
Qed.

Lemma concat_length_ge {A} (ls : list (list A)) :
  Forall (λ l, l ≠ []) ls → (length ls <= length (concat ls))%nat.
Proof.
  induction 1 as [|l ls Hl _ IH]; simpl; [done|].
  rewrite length_app. destruct l; [done|]. simpl. lia.
Qed.

(** X2: the k-th cluster that the heuristic clusterer returns has the k-th
    identifier drawn, and there are at most as many clusters as input
    items. *)
Theorem heuristic_cluster_ids (items : list NewsItem) :
  let clusters := BuildClusters uuid c items in
  Cluster.ID <$> clusters = uuid <$> seq 0 (length clusters) ∧
  (length clusters <= length items)%nat.
Proof.
  intros clusters. split.
  - subst clusters. unfold BuildClusters. destruct items as [|i items]; [done|].
    by apply foldl_place_IDs.
  - rewrite <- (Permutation_length (BuildClusters_Permutation uuid c items)).
    etrans; [|apply concat_length_ge].
    + by rewrite length_fmap.
    + apply Forall_fmap. eapply Forall_impl; [apply (BuildClusters_wellSized uuid c items)|].
      by intros cl [? _].
Qed.

End heuristic_shape.

(** ** Relatedness *)

Section related.
Local Open Scope Q_scope.

Lemma similarityScore_sym a b : similarityScore a b = similarityScore b a.
Proof.
  rewrite !similarityScore_unfold. cbv zeta.
  rewrite (orb_comm (Nat.eqb (length (tokenize b)) 0)).
  rewrite (comm_L (∩) (set_of (tokenize b))).
  by rewrite (Z.add_comm (Z.of_nat (size (set_of (tokenize b))))).
Qed.

(** X3: the similarity of two strings lies in [0,1], and it is 0 when
    they have no token in common. *)
Theorem similarityScore_range (a b : string) :
  0 <= similarityScore a b <= 1 ∧
  (set_of (tokenize a) ## set_of (tokenize b) → similarityScore a b == 0).
Proof.
  rewrite similarityScore_unfold.
  destruct (_ || _); [split; [lra|reflexivity]|]. cbv zeta.
  set (A := set_of (tokenize a)). set (B := set_of (tokenize b)).
  pose proof (subseteq_size (A ∩ B) A ltac:(set_solver)) as HA.
  pose proof (subseteq_size (A ∩ B) B ltac:(set_solver)) as HB.
  destruct (Z.eqb_spec (Z.of_nat (size A) + Z.of_nat (size B) - Z.of_nat (size (A ∩ B))) 0)
    as [Hz|Hz]; [split; [lra|reflexivity]|].
  set (u := (Z.of_nat (size A) + Z.of_nat (size B) - Z.of_nat (size (A ∩ B)))%Z) in *.
  assert (Hu : (0 < u)%Z) by lia.
  assert (Hi : (0 <= Z.of_nat (size (A ∩ B)) <= u)%Z) by lia.
  assert (Hu' : 0 < inject_Z u) by (change 0 with (inject_Z 0); by rewrite <- Zlt_Qlt).
  split.
  - split.
    + apply Qle_shift_div_l; [done|]. rewrite Qmult_0_l.
      change 0 with (inject_Z 0). rewrite <- Zle_Qle. lia.
    + apply Qle_shift_div_r; [done|]. rewrite Qmult_1_l. rewrite <- Zle_Qle. lia.
  - intros Hdisj. assert (A ∩ B = ∅) as -> by set_solver.
    rewrite size_empty. simpl. unfold Qdiv. by rewrite Qmult_0_l.
Qed.

Lemma sharesToken_spec (a b : list string) :
  sharesToken a b = true ↔
  ∃ x y, x ∈ a ∧ y ∈ b ∧ GoStrings.ToUpper x = GoStrings.ToUpper y.
Proof.
  assert (Hset : ∀ (l : list string) (seen : gset string) k,
             k ∈ foldl (λ set v, {[GoStrings.ToUpper v]} ∪ set) seen l ↔
             k ∈ seen ∨ ∃ x, x ∈ l ∧ GoStrings.ToUpper x = k).
  { induction l as [|v l IH]; intros seen k; simpl.
    - split; [by left|]. intros [?|(x & Hx & _)]; [done|]. by apply elem_of_nil in Hx.
    - rewrite IH. rewrite elem_of_union, elem_of_singleton. split.
      + intros [[->|?]|(x & Hx & <-)]; [right; exists v; split; [by left|done]|by left|].
        right. exists x. split; [by right|done].
      + intros [?|(x & [->|Hx]%elem_of_cons & <-)]; [left; by right|left; by left|].
        right. by exists x. }
  unfold sharesToken. destruct a as [|a0 a]; [|destruct b as [|b0 b]].
  - split; [done|]. intros (x & y & Hx & _). by apply elem_of_nil in Hx.
  - split; [done|]. intros (x & y & _ & Hy & _). by apply elem_of_nil in Hy.
  - rewrite existsb_exists. split.
    + intros (y & Hy & Hin). apply bool_decide_eq_true in Hin.
      apply Hset in Hin as [Hin|(x & Hx & E)]; [set_solver|].
      exists x, y. split; [done|]. split; [by apply list_elem_of_In|done].
    + intros (x & y & Hx & Hy & E). exists y. split; [by apply list_elem_of_In|].
      apply bool_decide_eq_true. apply Hset. right. by exists x.
Qed.

Lemma sharesToken_sym (a b : list string) : sharesToken a b = sharesToken b a.
Proof.
  destruct (sharesToken a b) eqn:E1, (sharesToken b a) eqn:E2; try done.
  - apply sharesToken_spec in E1 as (x & y & ? & ? & ?).
    assert (sharesToken b a = true); [|congruence].
    apply sharesToken_spec. by exists y, x.
  - apply sharesToken_spec in E2 as (x & y & ? & ? & ?).
    assert (sharesToken a b = true); [|congruence].
    apply sharesToken_spec. by exists y, x.
Qed.

(** X4: [areRelated] does not depend on the order of its two items, and
    two items that share a ticker up to case are related whatever the
    threshold. *)
Theorem areRelated_symmetric (a b : NewsItem) (threshold : Q) :
  areRelated a b threshold = areRelated b a threshold ∧
  ((∃ x y, x ∈ NewsItem.Tickers a ∧ y ∈ NewsItem.Tickers b ∧
           GoStrings.ToUpper x = GoStrings.ToUpper y) →
   areRelated a b threshold = true).
Proof.
  split.
  - unfold areRelated.
    by rewrite (sharesToken_sym (NewsItem.Tickers a)), (sharesToken_sym (NewsItem.Entities a)),
      (similarityScore_sym (NewsItem.Headline a)).
  - intros H. apply sharesToken_spec in H. unfold areRelated. by rewrite H.
Qed.

(** X5: a clusterer made by [NewHeuristicClusterer] has a time window
    other than 0, a threshold in (0,1] and a cluster size of 12; a window
    other than 0 and a threshold in (0,1] are kept as given. *)
Theorem NewHeuristicClusterer_normalises (timeWindow : Duration) (threshold : Q) :
  let c := NewHeuristicClusterer timeWindow threshold in
  HeuristicClusterer.TimeWindow c ≠ 0%Z ∧
  0 < HeuristicClusterer.SimilarityThreshold c <= 1 ∧
  HeuristicClusterer.MaxClusterSize c = 12%Z ∧
  (timeWindow ≠ 0%Z → HeuristicClusterer.TimeWindow c = timeWindow) ∧
  (0 < threshold <= 1 → HeuristicClusterer.SimilarityThreshold c = threshold).
Proof.
  unfold NewHeuristicClusterer. cbv zeta. simpl.
  split; [destruct (Z.eqb_spec timeWindow 0); [done|done]|].
  split.
  { destruct (Qle_bool threshold 0) eqn:E1; simpl; [lra|].
    destruct (GoMath.Qlt_bool 1 threshold) eqn:E2; [lra|].
    apply Qlt_bool_false in E2. split; [|done].
    apply Qnot_le_lt. intros Hle. apply Qle_bool_iff in Hle. congruence. }
  split; [done|]. split.
  - intros Hne. by destruct (Z.eqb_spec timeWindow 0).
  - intros [H0 H1].
    assert (Qle_bool threshold 0 = false) as ->.
    { destruct (Qle_bool threshold 0) eqn:E; [|done]. apply Qle_bool_iff in E. lra. }
    assert (GoMath.Qlt_bool 1 threshold = false) as -> by (by apply Qlt_bool_false).
    done.
Qed.

End related.

Lemma similarityScore_range_witness :
  (similarityScore "Alpha beats estimates" "Gamma cuts guidance" == 0)%Q.
Proof.
  apply (proj2 (similarityScore_range "Alpha beats estimates" "Gamma cuts guidance")).
  rewrite !set_of_list. vm_compute tokenize. set_solver.
Defined.

Lemma areRelated_symmetric_witness :
  areRelated itemA (item "x" "Wire" 150 ["Cma"] [] 0 "") 1 = true.
Proof.
  apply (proj2 (areRelated_symmetric itemA (item "x" "Wire" 150 ["Cma"] [] 0 "") 1)).
  exists "cma", "Cma". split; [by left|]. split; [by left|]. reflexivity.
Defined.

Lemma NewHeuristicClusterer_normalises_witness :
  HeuristicClusterer.TimeWindow (NewHeuristicClusterer (8 * Hour) (4 # 10)) = 8 * Hour ∧
  HeuristicClusterer.SimilarityThreshold (NewHeuristicClusterer (8 * Hour) (4 # 10))
    = (4 # 10)%Q.
Proof.
  split.
  - apply (proj1 (proj2 (proj2 (proj2
      (NewHeuristicClusterer_normalises (8 * Hour) (4 # 10)))))). unfold Hour. lia.
  - apply (proj2 (proj2 (proj2 (proj2
      (NewHeuristicClusterer_normalises (8 * Hour) (4 # 10)))))).
    unfold Qlt, Qle. simpl. lia.
Defined.

(** ** Tokenizer *)

Section tokenizer.

Lemma bytes_append (a b : string) :
  list_ascii_of_string (a +:+ b) = list_ascii_of_string a ++ list_ascii_of_string b.
Proof. induction a as [|c a IH]; [done|]. simpl. by rewrite IH. Qed.

Lemma bytes_map_bytes f s :
  list_ascii_of_string (GoStrings.map_bytes f s) = f <$> list_ascii_of_string s.
Proof. induction s as [|c s IH]; [done|]. simpl. by rewrite IH. Qed.

Lemma map_bytes_id f s :
  Forall (λ c, f c = c) (list_ascii_of_string s) → GoStrings.map_bytes f s = s.
Proof.
  induction s as [|c s IH]; [done|]. simpl. intros [Hc Hs]%Forall_cons.
  by rewrite Hc, IH.
Qed.

Lemma length_bytes s : length (list_ascii_of_string s) = String.length s.
Proof. induction s as [|c s IH]; [done|]. simpl. by rewrite IH. Qed.

(** What [strings.Fields] returns: fields that are not empty, made of the
    bytes of the input that are not white space. *)
Lemma fields_go_Forall (P : ascii → Prop) cur s :
  Forall P cur →
  Forall (λ c, GoStrings.is_space c = false → P c) (list_ascii_of_string s) →
  Forall (λ f, f ≠ "" ∧ Forall P (list_ascii_of_string f)) (GoStrings.fields_go cur s).
Proof.
  assert (Hflush : ∀ cur, Forall P cur →
            Forall (λ f, f ≠ "" ∧ Forall P (list_ascii_of_string f))
              match cur with [] => [] | _ => [string_of_list_ascii (rev cur)] end).
  { intros [|c0 cur0] Hc; [constructor|]. constructor; [|constructor]. split.
    - intros E. apply (f_equal list_ascii_of_string) in E.
      rewrite list_ascii_of_string_of_list_ascii in E. simpl in E.
      by apply app_eq_nil in E as [_ ?].
    - rewrite list_ascii_of_string_of_list_ascii. by apply Forall_rev. }
  revert cur. induction s as [|c s IH]; intros cur Hcur Hs; simpl.
  - by apply Hflush.
  - simpl in Hs. apply Forall_cons in Hs as [Hc Hs].
    destruct (GoStrings.is_space c) eqn:E.
    + apply Forall_app. split; [by apply Hflush|]. by apply IH.
    + apply IH; [|done]. constructor; [by apply Hc|done].
Qed.

Lemma fields_go_byte cur c s :
  GoStrings.is_space c = false →
  GoStrings.fields_go cur (String c s) = GoStrings.fields_go (c :: cur) s.
Proof. intros H. simpl. by rewrite H. Qed.

Lemma fields_go_space cur s :
  GoStrings.fields_go cur (String " " s) =
  match cur with [] => [] | _ => [string_of_list_ascii (rev cur)] end
  ++ GoStrings.fields_go [] s.
Proof. done. Qed.

Lemma append_cons c (a b : string) : String c a +:+ b = String c (a +:+ b).
Proof. done. Qed.

Lemma fields_go_append cur t rest :
  Forall (λ c, GoStrings.is_space c = false) (list_ascii_of_string t) →
  GoStrings.fields_go cur (t +:+ rest) =
  GoStrings.fields_go (rev (list_ascii_of_string t) ++ cur) rest.
Proof.
  revert cur. induction t as [|c t IH]; intros cur Ht; [done|].
  simpl in Ht. apply Forall_cons in Ht as [Hc Ht].
  rewrite append_cons, fields_go_byte, IH by done. simpl. by rewrite <- app_assoc.
Qed.

Lemma append_nil_r (s : string) : s +:+ "" = s.
Proof. induction s as [|c s IH]; [done|]. by rewrite append_cons, IH. Qed.

Lemma flush_token t :
  t ≠ "" →
  match rev (list_ascii_of_string t) ++ [] with
  | [] => []
  | _ => [string_of_list_ascii (rev (rev (list_ascii_of_string t) ++ []))]
  end = [t].
Proof.
  intros Hne. rewrite app_nil_r.
  destruct (rev (list_ascii_of_string t)) as [|c l] eqn:E.
  - apply (f_equal (@rev ascii)) in E. rewrite rev_involutive in E. simpl in E.
    apply (f_equal string_of_list_ascii) in E.
    by rewrite string_of_list_ascii_of_string in E.
  - rewrite <- E, rev_involutive. by rewrite string_of_list_ascii_of_string.
Qed.

Lemma Join_cons t t' tokens sep :
  GoStrings.Join (t :: t' :: tokens) sep = t +:+ sep +:+ GoStrings.Join (t' :: tokens) sep.
Proof. done. Qed.

Lemma Fields_Join (tokens : list string) :
  Forall (λ t, t ≠ "" ∧ Forall (λ c, GoStrings.is_space c = false) (list_ascii_of_string t))
    tokens →
  GoStrings.Fields (GoStrings.Join tokens " ") = tokens.
Proof.
  unfold GoStrings.Fields.
  induction 1 as [|t tokens [Hne Ht] Hts IH]; [done|].
  destruct tokens as [|t' tokens].
  - cbn [GoStrings.Join]. rewrite <- (append_nil_r t) at 1.
    rewrite fields_go_append by done. cbn [GoStrings.fields_go]. by apply flush_token.
  - rewrite Join_cons, fields_go_append by done.
    change (" " +:+ GoStrings.Join (t' :: tokens) " ")
      with (String " "%char (GoStrings.Join (t' :: tokens) " ")).
    by rewrite fields_go_space, flush_token, IH.
Qed.

Lemma bytes_Join (P : ascii → Prop) (tokens : list string) :
  P " "%char →
  Forall (λ t, Forall P (list_ascii_of_string t)) tokens →
  Forall P (list_ascii_of_string (GoStrings.Join tokens " ")).
Proof.
  intros Hsp. induction 1 as [|t tokens Ht Hts IH]; [constructor|].
  destruct tokens as [|t' tokens]; [done|].
  rewrite Join_cons, bytes_append. apply Forall_app. split; [done|]. by constructor.
Qed.

(** Every byte that the normalisation of [tokenize] leaves is white space
    or a token byte. *)
Lemma normalised_byte (c : ascii) :
  GoStrings.is_space (GoStrings.lower_byte (if is_punctuation c then " "%char else c)) = false →
  tokenByte (GoStrings.lower_byte (if is_punctuation c then " "%char else c)) = true.
Proof. destruct c as [[] [] [] [] [] [] [] []]; vm_compute; done. Qed.

Lemma tokenByte_fixed (c : ascii) :
  tokenByte c = true →
  GoStrings.is_space c = false ∧ (if is_punctuation c then " "%char else c) = c ∧
  GoStrings.lower_byte c = c.
Proof. destruct c as [[] [] [] [] [] [] [] []]; vm_compute; done. Qed.

Lemma keep_long (parts : list string) (tokens : list string) :
  foldl (λ tokens p, if Nat.leb (String.length p) 2 then tokens else tokens ++ [p])
    tokens parts =
  tokens ++ filter (λ p, (2 < String.length p)%nat) parts.
Proof.
  revert tokens. induction parts as [|p parts IH]; intros tokens; simpl.
  - by rewrite app_nil_r.
  - rewrite IH, filter_cons. destruct (Nat.leb_spec (String.length p) 2).
    + by rewrite decide_False by lia.
    + rewrite decide_True by lia. by rewrite <- app_assoc.
Qed.

Lemma tokenize_tokens (s : string) : Forall isToken (tokenize s).
Proof.
  unfold tokenize. cbv zeta. rewrite keep_long. simpl.
  assert (H : Forall (λ f, f ≠ "" ∧ Forall (λ c, tokenByte c = true) (list_ascii_of_string f))
                (GoStrings.Fields (GoStrings.ToLower (replacePunctuation s)))).
  { apply fields_go_Forall; [constructor|].
    unfold GoStrings.ToLower, replacePunctuation. rewrite !bytes_map_bytes.
    apply Forall_fmap, Forall_fmap, Forall_true. intros c. simpl. apply normalised_byte. }
  rewrite Forall_forall in H.
  apply Forall_forall. intros t [Hlen Hin]%list_elem_of_filter.
  split; [done|]. by apply H.
Qed.

(** X6: every token has more than two bytes, none of them white space,
    one of the twelve punctuation bytes or an upper-case letter; and
    tokenizing the tokens joined by spaces gives the tokens back. *)
Theorem tokenize_idempotent (s : string) :
  Forall isToken (tokenize s) ∧
  tokenize (GoStrings.Join (tokenize s) " ") = tokenize s.
Proof.
  pose proof (tokenize_tokens s) as Htok. split; [done|].
  generalize dependent (tokenize s). intros tokens Htok.
  unfold tokenize. cbv zeta.
  assert (Hbytes : Forall (λ c, tokenByte c = true ∨ c = " "%char)
                     (list_ascii_of_string (GoStrings.Join tokens " "))).
  { apply bytes_Join; [by right|].
    eapply Forall_impl; [exact Htok|]. intros t [_ Ht].
    eapply Forall_impl; [exact Ht|]. by left. }
  assert (replacePunctuation (GoStrings.Join tokens " ") = GoStrings.Join tokens " ") as ->.
  { apply map_bytes_id. eapply Forall_impl; [exact Hbytes|].
    intros c [Hc| ->]; [by apply tokenByte_fixed in Hc as (_ & ? & _)|done]. }
  assert (GoStrings.ToLower (GoStrings.Join tokens " ") = GoStrings.Join tokens " ") as ->.
  { apply map_bytes_id. eapply Forall_impl; [exact Hbytes|].
    intros c [Hc| ->]; [by apply tokenByte_fixed in Hc as (_ & _ & ?)|done]. }
  rewrite Fields_Join, keep_long; simpl.
  - clear Hbytes. induction Htok as [|t tokens [Hlen _] _ IH]; [done|].
    rewrite filter_cons. case_decide; [|done]. by rewrite IH.
  - eapply Forall_impl; [exact Htok|]. intros t [Hlen Ht]. split.
    + intros ->. simpl in Hlen. lia.
    + eapply Forall_impl; [exact Ht|]. intros c Hc. by apply tokenByte_fixed in Hc as (? & _).
Qed.

End tokenizer.

(** ** Ingest store *)

Section ingest.
Variable newID : string.
Variable now : Time.

Lemma replaceByID_Some item items items' :
  replaceByID item items = Some items' →
  length items' = length items ∧
  NewsItem.ID <$> items' = NewsItem.ID <$> items ∧
  item ∈ items' ∧
  NewsItem.ID item ∈ NewsItem.ID <$> items.
Proof.
  revert items'. induction items as [|x items IH]; intros items' H; [done|].
  simpl in H. destruct (decide (NewsItem.ID x = NewsItem.ID item)) as [E|E].
  - injection H as <-. simpl. rewrite E. split; [done|]. split; [done|].
    split; by left.
  - destruct (replaceByID item items) as [r|]; [|done]. injection H as <-.
    destruct (IH r eq_refl) as (Hl & Hids & Hin & Hid).
    split; [simpl; by rewrite Hl|]. split; [by rewrite !fmap_cons, Hids|].
    split; [by right|]. rewrite fmap_cons. by right.
Qed.

Lemma replaceByID_None item items :
  replaceByID item items = None ↔ NewsItem.ID item ∉ NewsItem.ID <$> items.
Proof.
  induction items as [|x items IH]; simpl.
  - split; [intros _; apply not_elem_of_nil|done].
  - destruct (decide (NewsItem.ID x = NewsItem.ID item)) as [E|E].
    + split; [done|]. intros H. exfalso. apply H. rewrite E. by left.
    + rewrite not_elem_of_cons, <- IH.
      destruct (replaceByID item items); split; try done; naive_solver.
Qed.

Lemma IngestAdd_stored_elem (s : IngestSource) (item : NewsItem) :
  (IngestAdd newID now s item).1 ∈ IngestSource.items (IngestAdd newID now s item).2.
Proof.
  unfold IngestAdd. cbv zeta.
  set (item1 := if decide (NewsItem.ID item = "") then withID item newID else item).
  set (item2 := if IsZero (NewsItem.PublishedAt item1) then withPublishedAt item1 now else item1).
  destruct (replaceByID item2 (IngestSource.items s)) as [items'|] eqn:E; simpl.
  - by apply replaceByID_Some in E as (_ & _ & Hin & _).
  - apply elem_of_app; right; by left.
Qed.

(** X7: [Add] returns the item that the store holds afterwards and
    keeps the name of the store.  When the store has an entry of the same
    ID, the entries keep their number and their IDs; otherwise the item
    is appended.  A store without two entries of one ID stays such. *)
Theorem IngestAdd_replace_or_append (s : IngestSource) (item : NewsItem) :
  let '(stored, s') := IngestAdd newID now s item in
  stored ∈ IngestSource.items s' ∧
  IngestSource.name s' = IngestSource.name s ∧
  (NewsItem.ID stored ∈ NewsItem.ID <$> IngestSource.items s →
     length (IngestSource.items s') = length (IngestSource.items s) ∧
     NewsItem.ID <$> IngestSource.items s' = NewsItem.ID <$> IngestSource.items s) ∧
  (NewsItem.ID stored ∉ NewsItem.ID <$> IngestSource.items s →
     IngestSource.items s' = IngestSource.items s ++ [stored]) ∧
  (NoDup (NewsItem.ID <$> IngestSource.items s) →
     NoDup (NewsItem.ID <$> IngestSource.items s')).
Proof.
  unfold IngestAdd. cbv zeta.
  set (item1 := if decide (NewsItem.ID item = "") then withID item newID else item).
  set (item2 := if IsZero (NewsItem.PublishedAt item1) then withPublishedAt item1 now else item1).
  destruct (replaceByID item2 (IngestSource.items s)) as [items'|] eqn:E; simpl.
  - apply replaceByID_Some in E as (Hl & Hids & Hin & Hid).
    split; [done|]. split; [done|]. split; [done|]. split; [done|]. by rewrite Hids.
  - apply replaceByID_None in E.
    split; [apply elem_of_app; right; by left|]. split; [done|]. split; [done|].
    split; [done|]. intros Hnd. rewrite fmap_app. apply NoDup_app. split; [done|]. split.
    + intros x Hx [->|?%elem_of_nil]%elem_of_cons; done.
    + repeat constructor. apply not_elem_of_nil.
Qed.

Lemma foldl_keep {A} (keep : A → bool) (l acc : list A) :
  foldl (λ out x, if keep x then out ++ [x] else out) acc l = acc ++ filter (λ x, keep x = true) l.
Proof.
  revert acc. induction l as [|x l IH]; intros acc; simpl.
  - by rewrite app_nil_r.
  - rewrite IH, filter_cons. case_decide as E; rewrite E || (apply not_true_is_false in E; rewrite E).
    + by rewrite <- app_assoc.
    + done.
Qed.

Lemma foldl_skip {A} (skip : A → bool) (l acc : list A) :
  foldl (λ out x, if skip x then out else out ++ [x]) acc l = acc ++ filter (λ x, skip x = false) l.
Proof.
  revert acc. induction l as [|x l IH]; intros acc; simpl.
  - by rewrite app_nil_r.
  - rewrite IH, filter_cons. case_decide as E; rewrite E || (apply not_false_is_true in E; rewrite E).
    + by rewrite <- app_assoc.
    + done.
Qed.

Lemma filter_ext_iff {A} (P Q : A → Prop) `{!∀ x, Decision (P x)} `{!∀ x, Decision (Q x)}
    (l : list A) :
  (∀ x, P x ↔ Q x) → filter P l = filter Q l.
Proof.
  intros HPQ. induction l as [|x l IH]; [done|].
  rewrite !filter_cons, IH.
  destruct (decide (P x)) as [p|p], (decide (Q x)) as [q|q]; try done; exfalso; naive_solver.
Qed.

Lemma outside_window_false from to item :
  Before (NewsItem.PublishedAt item) from || After (NewsItem.PublishedAt item) to = false
  ↔ inWindow from to item.
Proof.
  unfold Before, After, inWindow. rewrite orb_false_iff, Z.ltb_ge.
  split; intros [H1 H2]; split; try done.
  - apply Z.ltb_ge in H2. lia.
  - apply Z.ltb_ge. lia.
Qed.

Lemma IngestFetch_Permutation (s : IngestSource) (from to : Time) out :
  IngestFetch s None from to = Ok out →
  out ≡ₚ filter (inWindow from to) (IngestSource.items s).
Proof.
  unfold IngestFetch. intros [= <-].
  rewrite Slice_Permutation, foldl_skip. simpl.
  erewrite filter_ext_iff; [done|]. intros x. apply outside_window_false.
Qed.

(** X8: [Fetch] of the ingest store fails only with the error of a
    context that is done; otherwise it returns the stored items of the
    window [from, to], both ends included, in ascending order of time. *)
Theorem IngestFetch_window (s : IngestSource) (ctx : Ctx) (from to : Time) :
  match IngestFetch s ctx from to with
  | Err err => ctx = Some err
  | Ok out =>
      ctx = None ∧
      out ≡ₚ filter (inWindow from to) (IngestSource.items s) ∧
      ascendingTime out
  end.
Proof.
  unfold IngestFetch. destruct ctx as [err|]; [done|].
  split; [done|]. split.
  - by apply IngestFetch_Permutation.
  - apply Slice_by_time.
Qed.

Lemma foldl_prune (ts : Time) (l : list NewsItem) (acc : list NewsItem * Z) :
  foldl (λ (acc : list NewsItem * Z) item,
           if Before (NewsItem.PublishedAt item) ts then (acc.1, acc.2 + 1)
           else (acc.1 ++ [item], acc.2)) acc l
  = (acc.1 ++ filter (λ item, ts <= NewsItem.PublishedAt item) l,
     acc.2 + (len l - len (filter (λ item, ts <= NewsItem.PublishedAt item) l))).
Proof.
  revert acc. induction l as [|x l IH]; intros [kept removed]; simpl.
  - rewrite app_nil_r. f_equal. unfold len. simpl. lia.
  - rewrite IH, filter_cons.
    unfold Before, len. case_decide as E.
    + rewrite (proj2 (Z.ltb_ge _ _) E). simpl. rewrite <- app_assoc. f_equal. lia.
    + rewrite (proj2 (Z.ltb_lt _ _)) by lia. simpl. f_equal. lia.
Qed.

(** X9: [PruneOlderThan] keeps, in their order, the items that are not
    before [ts], returns how many it dropped, and a second call with the
    same [ts] drops nothing. *)
Theorem PruneOlderThan_keeps_recent (s : IngestSource) (ts : Time) :
  let '(removed, s') := PruneOlderThan s ts in
  IngestSource.items s' = filter (λ item, ts <= NewsItem.PublishedAt item) (IngestSource.items s) ∧
  IngestSource.name s' = IngestSource.name s ∧
  removed = len (IngestSource.items s) - len (IngestSource.items s') ∧
  PruneOlderThan s' ts = (0, s').
Proof.
  unfold PruneOlderThan. destruct (IngestSource.items s) as [|x l] eqn:E.
  - rewrite E. done.
  - rewrite foldl_prune. simpl fst. simpl snd. rewrite app_nil_l.
    set (kept := filter _ (x :: l)). simpl.
    split; [done|]. split; [done|]. split; [unfold len; pose proof (length_filter (λ item, ts <= NewsItem.PublishedAt item) (x :: l)); fold kept in H; simpl in H |- *; lia|].
    destruct kept as [|y k] eqn:Ek; [done|].
    rewrite foldl_prune. simpl fst. simpl snd. rewrite app_nil_l.
    assert (Hid : filter (λ item, ts <= NewsItem.PublishedAt item) (y :: k) = y :: k).
    { rewrite <- Ek. unfold kept. apply list_filter_filter_l. done. }
    rewrite Hid. f_equal. lia.
Qed.

Lemma fetchFrom_Ok sources ctx from to acc results :
  fetchFrom sources ctx from to acc = Ok results →
  ∃ parts,
    Forall2 (λ src items, Source.Fetch src ctx from to = Ok items) sources parts ∧
    results = acc ++ concat parts.
Proof.
  revert acc. induction sources as [|src rest IH]; intros acc H; simpl in H.
  - injection H as <-. exists []. split; [constructor|]. by rewrite app_nil_r.
  - destruct (Source.Fetch src ctx from to) as [items|err] eqn:E; [|done].
    destruct (IH _ H) as (parts & Hparts & ->).
    exists (items :: parts). split; [by constructor|]. simpl. by rewrite app_assoc.
Qed.

Lemma fetchFrom_Err sources ctx from to acc e :
  fetchFrom sources ctx from to acc = Err e →
  ∃ before src rest err,
    sources = before ++ src :: rest ∧
    Forall (λ s, ∃ items, Source.Fetch s ctx from to = Ok items) before ∧
    Source.Fetch src ctx from to = Err err ∧
    e = wrapError ("fetch from " +:+ Source.Name src) err.
Proof.
  revert acc. induction sources as [|src rest IH]; intros acc H; simpl in H; [done|].
  destruct (Source.Fetch src ctx from to) as [items|err] eqn:E.
  - destruct (IH _ H) as (before & src' & rest' & err & -> & Hb & Hs & ->).
    exists (src :: before), src', rest', err. split; [done|]. split; [|done].
    constructor; [by exists items|done].
  - injection H as <-. exists [], src, rest, err. by repeat split.
Qed.

(** X10: [FetchAll] returns the concatenation, in registry order, of what
    every source returns; it fails when a source fails, with the error of
    the first such source wrapped with its name, all sources before it
    having been fetched successfully. *)
Theorem FetchAll_all_or_first_error (registry : list Source) (ctx : Ctx) (from to : Time) :
  match FetchAll registry ctx from to with
  | Ok results =>
      ∃ parts,
        Forall2 (λ src items, Source.Fetch src ctx from to = Ok items) registry parts ∧
        results = concat parts
  | Err e =>
      ∃ before src rest err,
        registry = before ++ src :: rest ∧
        Forall (λ s, ∃ items, Source.Fetch s ctx from to = Ok items) before ∧
        Source.Fetch src ctx from to = Err err ∧
        e = wrapError ("fetch from " +:+ Source.Name src) err
  end.
Proof.
  unfold FetchAll. destruct (fetchFrom registry ctx from to []) as [results|e] eqn:E.
  - by apply fetchFrom_Ok in E.
  - by apply fetchFrom_Err in E.
Qed.

(** X11: an item added to the ingest store is among the results of
    [FetchAll] on every registry that holds the store, when the window
    includes the time of the stored item. *)
Theorem IngestAdd_then_FetchAll (s : IngestSource) (item : NewsItem)
    (registry : list Source) (from to : Time) (results : list NewsItem) :
  inWindow from to (IngestAdd newID now s item).1 →
  ingestAsSource (IngestAdd newID now s item).2 ∈ registry →
  FetchAll registry None from to = Ok results →
  (IngestAdd newID now s item).1 ∈ results.
Proof.
  intros Hwin Hreg Hfetch.
  pose proof (IngestAdd_stored_elem s item) as Hin.
  destruct (IngestAdd newID now s item) as [stored s'] eqn:E. simpl in *.
  apply fetchFrom_Ok in Hfetch as (parts & Hparts & ->). simpl.
  apply list_elem_of_lookup in Hreg as [i Hi].
  destruct (Forall2_lookup_l _ _ _ _ _ Hparts Hi) as (out & Hout & Hok).
  apply elem_of_concat. exists out. split; [by eapply list_elem_of_lookup_2|].
  simpl in Hok. apply IngestFetch_Permutation in Hok.
  rewrite Hok. apply list_elem_of_filter. done.
Qed.
End ingest.

Lemma IngestAdd_replace_or_append_witness :
  NewsItem.ID itemA ∉ NewsItem.ID <$> IngestSource.items (NewIngestSource "") ∧
  IngestSource.items (IngestAdd "new" 50 (NewIngestSource "") itemA).2 = [itemA].
Proof.
  assert (H : NewsItem.ID itemA ∉ NewsItem.ID <$> IngestSource.items (NewIngestSource ""))
    by exact (not_elem_of_nil _).
  split; [exact H|].
  exact (proj1 (proj2 (proj2 (proj2
    (IngestAdd_replace_or_append "new" 50 (NewIngestSource "") itemA)))) H).
Defined.

Lemma IngestAdd_then_FetchAll_witness :
  (IngestAdd "new" 50 (NewIngestSource "") itemA).1 ∈ [itemA].
Proof.
  apply (IngestAdd_then_FetchAll "new" 50 (NewIngestSource "") itemA
           [ingestAsSource (IngestAdd "new" 50 (NewIngestSource "") itemA).2] 0 200).
  - unfold inWindow. simpl. lia.
  - by left.
  - vm_compute. reflexivity.
Defined.

(** ** Deduplication of tickers and entities *)

Section dedupe.

Lemma trim_right_idem s : GoStrings.trim_right (GoStrings.trim_right s) = GoStrings.trim_right s.
Proof.
  induction s as [|c r IH]; [done|]. simpl.
  destruct (GoStrings.trim_right r) as [|d r'] eqn:E.
  - destruct (GoStrings.is_space c) eqn:Ec; [done|]. simpl. by rewrite Ec.
  - simpl in *. by rewrite IH.
Qed.

Lemma trim_left_head s :
  GoStrings.trim_left s = "" ∨
  ∃ c r, GoStrings.trim_left s = String c r ∧ GoStrings.is_space c = false.
Proof.
  induction s as [|c r IH]; [by left|]. simpl.
  destruct (GoStrings.is_space c) eqn:Ec; [done|]. right. by exists c, r.
Qed.

Lemma trim_right_head c r :
  GoStrings.is_space c = false →
  ∃ r', GoStrings.trim_right (String c r) = String c r'.
Proof.
  intros Ec. simpl. destruct (GoStrings.trim_right r); [rewrite Ec|]; by eexists.
Qed.

Lemma TrimSpace_idem s : GoStrings.TrimSpace (GoStrings.TrimSpace s) = GoStrings.TrimSpace s.
Proof.
  unfold GoStrings.TrimSpace.
  destruct (trim_left_head s) as [->|(c & r & -> & Ec)]; [done|].
  destruct (trim_right_head c r Ec) as [r' E].
  assert (Hl : GoStrings.trim_left (GoStrings.trim_right (String c r))
               = GoStrings.trim_right (String c r)).
  { rewrite E. simpl. by rewrite Ec. }
  rewrite Hl. apply trim_right_idem.
Qed.

Lemma filter_Forall_id {A} (P : A → Prop) `{∀ x, Decision (P x)} (l : list A) :
  Forall P l → filter P l = l.
Proof.
  induction 1 as [|x l Hx Hl IH]; [done|].
  rewrite filter_cons, decide_True by done. by rewrite IH.
Qed.

Lemma dedup_first_id key l : NoDup (key <$> l) → dedup_first key l = l.
Proof.
  induction l as [|x l IH]; [done|]. rewrite fmap_cons, NoDup_cons. intros [Hx Hl].
  rewrite dedup_first_cons, IH by done. f_equal. apply filter_Forall_id.
  apply Forall_forall. intros y Hy E. apply Hx. rewrite <- E.
  apply list_elem_of_fmap. by exists y.
Qed.

Lemma dedupe_loop (values : list string) (out : list string) (seen : gset string) :
  foldl dedupeStep (out, seen) values =
  foldl (λ st x, if decide (GoStrings.ToUpper x ∈ st.2) then st
                 else (st.1 ++ [x], {[GoStrings.ToUpper x]} ∪ st.2))
        (out, seen) (filter (λ v, v ≠ "") (GoStrings.TrimSpace <$> values)).
Proof.
  revert out seen. induction values as [|v values IH]; intros out seen; [done|].
  rewrite fmap_cons, filter_cons. simpl. unfold dedupeStep at 2. simpl.
  destruct (decide (GoStrings.TrimSpace v = "")) as [E|E].
  - rewrite decide_False by (intros H; by apply H). apply IH.
  - rewrite (decide_True (P := GoStrings.TrimSpace v ≠ "")) by done. simpl.
    case_decide; rewrite IH; done.
Qed.

Lemma dedupe_long (values : list string) :
  (foldl dedupeStep ([], ∅) values).1 =
  dedup_first GoStrings.ToUpper (filter (λ v, v ≠ "") (GoStrings.TrimSpace <$> values)).
Proof.
  rewrite dedupe_loop.
  rewrite (scan_dedup GoStrings.ToUpper
             (λ st x, if decide (GoStrings.ToUpper x ∈ st.2) then st
                      else (st.1 ++ [x], {[GoStrings.ToUpper x]} ∪ st.2))) by done.
  simpl. f_equal. apply filter_Forall_id. apply Forall_forall. intros x _. set_solver.
Qed.

Lemma dedupe_long_trimmed (values : list string) :
  Forall trimmed (foldl dedupeStep ([], ∅) values).1.
Proof.
  rewrite dedupe_long. apply Forall_forall. intros x Hx.
  apply dedup_first_subseteq in Hx. apply list_elem_of_filter in Hx as [Hne Hx].
  apply list_elem_of_fmap in Hx as (v & -> & _). split; [done|]. apply TrimSpace_idem.
Qed.

(** X12: [dedupeStrings] returns a list of at most one value as it is;
    of a longer list it returns the trimmed non-empty values, the first of
    each group of values equal up to case, in the order of the input:
    every result is trimmed and not empty and no two are equal up to
    case.  Applying it twice is applying it once. *)
Theorem dedupeStrings_first_seen (values : list string) :
  dedupeStrings values =
    (if decide (length values ≤ 1)%nat then values
     else dedup_first GoStrings.ToUpper
            (filter (λ v, v ≠ "") (GoStrings.TrimSpace <$> values))) ∧
  ((1 < length values)%nat →
     Forall trimmed (dedupeStrings values) ∧
     NoDup (GoStrings.ToUpper <$> dedupeStrings values)) ∧
  dedupeStrings (dedupeStrings values) = dedupeStrings values.
Proof.
  assert (Hlong : ∀ vs, (1 < length vs)%nat →
            dedupeStrings vs = (foldl dedupeStep ([], ∅) vs).1).
  { intros vs H. unfold dedupeStrings. by rewrite (proj2 (Nat.leb_gt _ _) H). }
  assert (Hshort : ∀ vs, (length vs ≤ 1)%nat → dedupeStrings vs = vs).
  { intros vs H. unfold dedupeStrings. by rewrite (proj2 (Nat.leb_le _ _) H). }
  split; [|split].
  - case_decide as H; [by apply Hshort|]. rewrite Hlong by lia. apply dedupe_long.
  - intros H. rewrite Hlong by done. split; [apply dedupe_long_trimmed|].
    rewrite dedupe_long. apply dedup_first_NoDup_key.
  - destruct (decide (length values ≤ 1)%nat) as [H|H]; [rewrite (Hshort values H); by apply Hshort|].
    rewrite (Hlong values) by lia.
    set (r := (foldl dedupeStep ([], ∅) values).1).
    destruct (decide (length r ≤ 1)%nat) as [Hr|Hr]; [by apply Hshort|].
    rewrite Hlong by lia. rewrite dedupe_long.
    assert (Ht : Forall trimmed r) by apply dedupe_long_trimmed.
    assert (Hmap : GoStrings.TrimSpace <$> r = r).
    { clear -Ht. induction Ht as [|x l [_ Hx] _ IH]; [done|]. by rewrite fmap_cons, Hx, IH. }
    rewrite Hmap. rewrite filter_Forall_id by (eapply Forall_impl; [exact Ht|by intros x [??]]).
    apply dedup_first_id. unfold r. rewrite dedupe_long. apply dedup_first_NoDup_key.
Qed.

End dedupe.

Lemma dedupeStrings_first_seen_witness :
  Forall trimmed (dedupeStrings [" aapl "; "AAPL"; ""; "msft"]) ∧
  NoDup (GoStrings.ToUpper <$> dedupeStrings [" aapl "; "AAPL"; ""; "msft"]).
Proof.
  apply (proj1 (proj2 (dedupeStrings_first_seen [" aapl "; "AAPL"; ""; "msft"]))).
  simpl. lia.
Defined.

(** ** Decoding and the static file source *)

Section decode_facts.
Variable json_Decode : string → result (list rawNewsItem).
Variable time_Parse : string → result Time.
Variable os_ReadFile : string → result string.

Lemma skip_iff r :
  bool_decide (rawNewsItem.Headline r = "") || bool_decide (rawNewsItem.URL r = "") = false
  ↔ hasHeadlineAndURL r.
Proof.
  unfold hasHeadlineAndURL. rewrite orb_false_iff, !bool_decide_eq_false. done.
Qed.

Lemma decodeRaws_Ok raws acc items :
  decodeRaws time_Parse raws acc = Ok items →
  ∃ new, items = acc ++ new ∧
         Forall2 (decodedFrom time_Parse) (filter hasHeadlineAndURL raws) new.
Proof.
  revert acc. induction raws as [|r raws IH]; intros acc H; simpl in H.
  - injection H as <-. exists []. split; [by rewrite app_nil_r|constructor].
  - rewrite filter_cons.
    destruct (bool_decide (rawNewsItem.Headline r = "") || bool_decide (rawNewsItem.URL r = ""))
      eqn:Eskip.
    + rewrite decide_False by (intros Hk; apply skip_iff in Hk; congruence). by apply IH.
    + rewrite decide_True by (by apply skip_iff).
      destruct (time_Parse (rawNewsItem.PublishedAt r)) as [published|err] eqn:Et; [|done].
      apply IH in H as (new & -> & Hnew). eexists (_ :: new).
      split; [by rewrite <- app_assoc|]. constructor; [|done].
      unfold decodedFrom. simpl. by repeat split.
Qed.

Lemma decodeRaws_Err raws acc e :
  decodeRaws time_Parse raws acc = Err e →
  ∃ before r rest err,
    filter hasHeadlineAndURL raws = before ++ r :: rest ∧
    Forall (λ r', ∃ ts, time_Parse (rawNewsItem.PublishedAt r') = Ok ts) before ∧
    time_Parse (rawNewsItem.PublishedAt r) = Err err ∧
    e = wrapError ("parse time for " +:+ rawNewsItem.ID r) err.
Proof.
  revert acc. induction raws as [|r raws IH]; intros acc H; simpl in H; [done|].
  rewrite filter_cons.
  destruct (bool_decide (rawNewsItem.Headline r = "") || bool_decide (rawNewsItem.URL r = ""))
    eqn:Eskip.
  - rewrite decide_False by (intros Hk; apply skip_iff in Hk; congruence). by eapply IH.
  - rewrite decide_True by (by apply skip_iff).
    destruct (time_Parse (rawNewsItem.PublishedAt r)) as [published|err] eqn:Et.
    + apply IH in H as (before & r' & rest & err & -> & Hb & Hr & ->).
      exists (r :: before), r', rest, err. split; [done|]. split; [|done].
      constructor; [by exists published|done].
    + injection H as <-. exists [], r, (filter hasHeadlineAndURL raws), err. by repeat split.
Qed.

(** X13: [decodeNewsItems] fails when the JSON does not decode and when
    the time of a record that has a headline and a URL does not parse,
    with the error of the first such record wrapped with its ID.
    Otherwise it returns one item for every record that has a headline
    and a URL, in the order of the records, with the parsed time, the
    deduplicated tickers and entities and the other fields as they are;
    records without headline or URL are skipped before their time is
    parsed. *)
Theorem decodeNewsItems_result (data : string) :
  match decodeNewsItems json_Decode time_Parse data with
  | Ok items =>
      ∃ raws,
        json_Decode data = Ok raws ∧
        Forall2 (decodedFrom time_Parse) (filter hasHeadlineAndURL raws) items ∧
        Forall (λ item, NewsItem.Headline item ≠ "" ∧ NewsItem.URL item ≠ "") items
  | Err e =>
      (∃ err, json_Decode data = Err err ∧ e = wrapError "decode JSON" err) ∨
      (∃ raws before r rest err,
         json_Decode data = Ok raws ∧
         filter hasHeadlineAndURL raws = before ++ r :: rest ∧
         Forall (λ r', ∃ ts, time_Parse (rawNewsItem.PublishedAt r') = Ok ts) before ∧
         time_Parse (rawNewsItem.PublishedAt r) = Err err ∧
         e = wrapError ("parse time for " +:+ rawNewsItem.ID r) err)
  end.
Proof.
  unfold decodeNewsItems. destruct (json_Decode data) as [raws|err] eqn:Ej.
  - destruct (decodeRaws time_Parse raws []) as [items|e] eqn:Ed.
    + apply decodeRaws_Ok in Ed as (new & -> & Hnew). simpl.
      exists raws. split; [done|]. split; [done|].
      apply Forall_forall. intros item Hitem.
      apply list_elem_of_lookup in Hitem as [i Hi].
      destruct (Forall2_lookup_r _ _ _ _ _ Hnew Hi) as (r & Hr & Hd).
      apply list_elem_of_lookup_2, list_elem_of_filter in Hr as [[Hh Hu] _].
      destruct Hd as (_ & _ & -> & _ & _ & _ & -> & _). done.
    + right. apply decodeRaws_Err in Ed as (before & r & rest & err & ? & ? & ? & ?).
      by exists raws, before, r, rest, err.
  - left. by exists err.
Qed.

Lemma inside_window_true from to item :
  negb (Before (NewsItem.PublishedAt item) from) && negb (After (NewsItem.PublishedAt item) to) = true
  ↔ inWindow from to item.
Proof.
  unfold Before, After, inWindow. rewrite andb_true_iff, !negb_true_iff, !Z.ltb_ge. done.
Qed.

(** X14: [StaticFileSource.Fetch] returns the decoded items of the file
    that lie in the window [from, to], in the order of the file; it fails
    with the error of a context that is done, or with the wrapped error of
    reading or decoding the file. *)
Theorem StaticFetch_result (path : string) (ctx : Ctx) (from to : Time) :
  match StaticFetch json_Decode time_Parse os_ReadFile path ctx from to with
  | Ok filtered =>
      ctx = None ∧
      ∃ raw items,
        os_ReadFile path = Ok raw ∧
        decodeNewsItems json_Decode time_Parse raw = Ok items ∧
        filtered = filter (inWindow from to) items
  | Err e =>
      ctx = Some e ∨
      (ctx = None ∧ ∃ err, os_ReadFile path = Err err ∧
                           e = wrapError ("read static file " +:+ path) err) ∨
      (ctx = None ∧ ∃ raw err, os_ReadFile path = Ok raw ∧
                               decodeNewsItems json_Decode time_Parse raw = Err err ∧
                               e = wrapError ("decode static file " +:+ path) err)
  end.
Proof.
  unfold StaticFetch. destruct ctx as [cerr|]; [by left|].
  destruct (os_ReadFile path) as [raw|err] eqn:Er; [|right; left; split; [done|by exists err]].
  destruct (decodeNewsItems json_Decode time_Parse raw) as [items|err] eqn:Ed;
    [|right; right; split; [done|by exists raw, err]].
  split; [done|]. exists raw, items. split; [done|]. split; [done|].
  rewrite (foldl_keep (λ item, negb (Before (NewsItem.PublishedAt item) from)
                               && negb (After (NewsItem.PublishedAt item) to))).
  simpl. apply filter_ext_iff. intros x. apply inside_window_true.
Qed.

End decode_facts.

(** ** Pipeline *)

Section pipeline_facts.

Lemma ToLower_empty s : GoStrings.ToLower s = "" ↔ s = "".
Proof. by destruct s. Qed.

Lemma lower_byte_idem c : GoStrings.lower_byte (GoStrings.lower_byte c) = GoStrings.lower_byte c.
Proof. destruct c as [[] [] [] [] [] [] [] []]; vm_compute; done. Qed.

Lemma ToLower_idem s : GoStrings.ToLower (GoStrings.ToLower s) = GoStrings.ToLower s.
Proof.
  unfold GoStrings.ToLower. induction s as [|c s IH]; [done|].
  simpl. by rewrite lower_byte_idem, IH.
Qed.

Lemma foldl_keep_dec {A} (P : A → Prop) `{∀ x, Decision (P x)} (l acc : list A) :
  foldl (λ out x, if decide (P x) then out ++ [x] else out) acc l = acc ++ filter P l.
Proof.
  revert acc. induction l as [|x l IH]; intros acc; simpl.
  - by rewrite app_nil_r.
  - rewrite IH, filter_cons. case_decide; [by rewrite <- app_assoc|done].
Qed.

Lemma filterLanguage_filter items lang :
  lang ≠ "" →
  filterLanguage items lang =
  filter (λ item, GoStrings.ToLower (NewsItem.Language item) = GoStrings.ToLower lang) items.
Proof.
  intros Hne. unfold filterLanguage.
  rewrite decide_False by (by rewrite ToLower_empty).
  by rewrite (foldl_keep_dec
    (λ item, GoStrings.ToLower (NewsItem.Language item) = GoStrings.ToLower lang)).
Qed.

(** X15: [filterLanguage] returns the items as they are for the empty
    language; otherwise it keeps, in order, the items whose language
    equals [lang] up to the case of ASCII letters.  It gives the same for
    [lang] in lower case, and filtering twice is filtering once. *)
Theorem filterLanguage_case_insensitive (items : list NewsItem) (lang : string) :
  filterLanguage items lang =
    (if decide (lang = "") then items
     else filter (λ item, GoStrings.ToLower (NewsItem.Language item) = GoStrings.ToLower lang)
            items) ∧
  filterLanguage items (GoStrings.ToLower lang) = filterLanguage items lang ∧
  filterLanguage (filterLanguage items lang) lang = filterLanguage items lang.
Proof.
  destruct (decide (lang = "")) as [->|Hne]; [done|].
  assert (Hl : GoStrings.ToLower lang ≠ "") by (by rewrite ToLower_empty).
  rewrite (filterLanguage_filter _ (GoStrings.ToLower lang)) by done.
  rewrite !filterLanguage_filter by done.
  split; [done|]. split; [by rewrite ToLower_idem|].
  rewrite list_filter_filter. apply filter_ext_iff. naive_solver.
Qed.

Lemma StronglySorted_take {A} (R : A → A → Prop) (n : nat) (l : list A) :
  StronglySorted R l → StronglySorted R (take n l).
Proof.
  intros H. revert n. induction H as [|x l Hl IH Hx]; intros [|n]; simpl; try constructor.
  - apply IH.
  - eapply Forall_take in Hx. exact Hx.
Qed.

Lemma effectiveLimit_pos params : 0 < effectiveLimit params.
Proof.
  unfold effectiveLimit. destruct (QueryParams.Limit params <=? 0) eqn:E; [done|].
  apply Z.leb_gt in E. lia.
Qed.

(** The first [limit] events of [ScoreClusters]. *)
Lemma top_events s clusters limit :
  0 < limit →
  let events := take (Z.to_nat limit) (ScoreClusters s clusters) in
  len events <= limit ∧
  StronglySorted (λ a b, (Event.Hotness b <= Event.Hotness a)%Q) events ∧
  Forall (λ e, (0 < Event.Hotness e)%Q) events.
Proof.
  intros Hpos events. subst events.
  split; [unfold len; rewrite length_take; lia|].
  split; [apply StronglySorted_take, ScoreClusters_sorted|].
  apply Forall_take, Forall_forall. intros e He.
  rewrite ScoreClusters_Permutation in He. apply list_elem_of_filter in He as [He _].
  destruct (Qlt_le_dec 0 (Event.Hotness e)) as [|Hle]; [done|].
  apply Qle_bool_iff in Hle. congruence.
Qed.

Lemma Run_Ok p ctx params events :
  Run p ctx params = Ok events →
  ∃ items clusters,
    FetchAll (Pipeline.Sources p) ctx (QueryParams.From params) (QueryParams.To params)
      = Ok items ∧
    Pipeline.Clusterer p (filterLanguage items (QueryParams.Language params)) = Ok clusters ∧
    events = take (Z.to_nat (effectiveLimit params))
               (ScoreClusters (Pipeline.Scorer p) clusters).
Proof.
  unfold Run. cbv zeta.
  destruct (FetchAll _ _ _ _) as [items|err] eqn:Ef; [|done].
  assert (Hlang : (if decide (QueryParams.Language params ≠ "")
                   then filterLanguage items (QueryParams.Language params) else items)
                  = filterLanguage items (QueryParams.Language params)).
  { case_decide as E; [done|]. by rewrite E. }
  rewrite Hlang.
  destruct (Pipeline.Clusterer p _) as [clusters|err] eqn:Ec; [|done].
  intros Hev. exists items, clusters. split; [done|]. split; [done|].
  destruct (effectiveLimit params <? len _) eqn:El; [congruence|].
  apply Z.ltb_ge in El. unfold len in El. rewrite take_ge by lia. congruence.
Qed.

Lemma Run_Err p ctx params err :
  Run p ctx params = Err err →
  FetchAll (Pipeline.Sources p) ctx (QueryParams.From params) (QueryParams.To params)
    = Err err ∨
  ∃ items,
    FetchAll (Pipeline.Sources p) ctx (QueryParams.From params) (QueryParams.To params)
      = Ok items ∧
    Pipeline.Clusterer p (filterLanguage items (QueryParams.Language params)) = Err err.
Proof.
  unfold Run. cbv zeta.
  destruct (FetchAll _ _ _ _) as [items|e] eqn:Ef; [|intros [= <-]; by left].
  assert (Hlang : (if decide (QueryParams.Language params ≠ "")
                   then filterLanguage items (QueryParams.Language params) else items)
                  = filterLanguage items (QueryParams.Language params)).
  { case_decide as E; [done|]. by rewrite E. }
  rewrite Hlang.
  destruct (Pipeline.Clusterer p _) as [clusters|e] eqn:Ec.
  - by destruct (_ <? _).
  - intros [= <-]. right. by exists items.
Qed.

(** X16: a successful [Run] returns the first [limit] events of
    [ScoreClusters] on the clusters of the fetched items of the requested
    language, where [limit] is the requested limit, or 5 when that is not
    positive: at most [limit] events, in descending order of hotness, each
    of positive hotness.  A failing [Run] returns the error of [FetchAll]
    or of the clusterer as it is. *)
Theorem Run_top_events (p : Pipeline) (ctx : Ctx) (params : QueryParams) :
  match Run p ctx params with
  | Ok events =>
      ∃ items clusters,
        FetchAll (Pipeline.Sources p) ctx (QueryParams.From params) (QueryParams.To params)
          = Ok items ∧
        Pipeline.Clusterer p (filterLanguage items (QueryParams.Language params)) = Ok clusters ∧
        events = take (Z.to_nat (effectiveLimit params))
                   (ScoreClusters (Pipeline.Scorer p) clusters) ∧
        0 < effectiveLimit params ∧
        len events <= effectiveLimit params ∧
        StronglySorted (λ a b, (Event.Hotness b <= Event.Hotness a)%Q) events ∧
        Forall (λ e, (0 < Event.Hotness e)%Q) events
  | Err err =>
      FetchAll (Pipeline.Sources p) ctx (QueryParams.From params) (QueryParams.To params)
        = Err err ∨
      ∃ items,
        FetchAll (Pipeline.Sources p) ctx (QueryParams.From params) (QueryParams.To params)
          = Ok items ∧
        Pipeline.Clusterer p (filterLanguage items (QueryParams.Language params)) = Err err
  end.
Proof.
  destruct (Run p ctx params) as [events|err] eqn:E.
  - destruct (Run_Ok _ _ _ _ E) as (items & clusters & Hf & Hc & ->).
    exists items, clusters. split; [done|]. split; [done|]. split; [done|].
    split; [apply effectiveLimit_pos|]. apply top_events, effectiveLimit_pos.
  - by apply Run_Err.
Qed.

End pipeline_facts.

(** ** Heuristic clusterer: what holds a cluster together *)

Section heuristic_links.
Variable uuid : nat → string.
Variable c : HeuristicClusterer.

Lemma last_lookup_cons {A} (first : A) (rest : list A) :
  (first :: rest) !! length rest = Some (List.last rest first).
Proof.
  revert first. induction rest as [|x rest IH]; intros first; [done|].
  rewrite last_cons. simpl. apply IH.
Qed.

Lemma linked_snoc first rest item :
  linked c (first :: rest) →
  NewsItem.PublishedAt item <=
    NewsItem.PublishedAt (List.last rest first) + HeuristicClusterer.TimeWindow c →
  existsb (λ existing, areRelated existing item (HeuristicClusterer.SimilarityThreshold c))
    (first :: rest) = true →
  linked c ((first :: rest) ++ [item]).
Proof.
  intros Hl Hgap Hrel i prev item' Hprev Hitem.
  set (items := first :: rest) in *.
  assert (Hlen : length items = S (length rest)) by done.
  destruct (decide (S i < length items)%nat) as [Hi|Hi].
  - rewrite lookup_app_l in Hprev by lia. rewrite lookup_app_l in Hitem by lia.
    destruct (Hl i prev item' Hprev Hitem) as (Hg & j & existing & Hj & Hex & Hr).
    split; [done|]. exists j, existing. split; [done|]. split; [|done].
    rewrite lookup_app_l; [done|]. apply lookup_lt_Some in Hex. lia.
  - assert (Hi' : S i = length items).
    { apply lookup_lt_Some in Hitem. rewrite length_app in Hitem. simpl in Hitem. lia. }
    rewrite lookup_app_r in Hitem by lia. rewrite Hi', Nat.sub_diag in Hitem.
    injection Hitem as <-.
    rewrite lookup_app_l in Hprev by lia.
    assert (i = length rest) as -> by lia.
    unfold items in Hprev. rewrite last_lookup_cons in Hprev. injection Hprev as <-.
    split; [done|].
    apply existsb_exists in Hrel as (existing & Hin & Hr).
    apply list_elem_of_In, list_elem_of_lookup in Hin as [j Hj].
    exists j, existing. split; [apply lookup_lt_Some in Hj; lia|]. split; [|done].
    rewrite lookup_app_l; [done|]. by apply lookup_lt_Some in Hj.
Qed.

Lemma absorb_linked cl item :
  timeOrdered cl → linked c (Cluster.Items cl) →
  withinWindow (Cluster.StartTime cl) (Cluster.EndTime cl) (NewsItem.PublishedAt item)
    (HeuristicClusterer.TimeWindow c) = true →
  clusterContainsRelated cl item (HeuristicClusterer.SimilarityThreshold c) = true →
  linked c (Cluster.Items (absorb cl item)).
Proof.
  intros (first & rest & Hitems & _ & _ & _ & _ & Hend) Hl Hwin Hrel.
  unfold absorb. simpl. unfold clusterContainsRelated in Hrel. rewrite Hitems in *.
  apply linked_snoc; [done| |done].
  unfold withinWindow, Before, After, Add in Hwin. rewrite Hend in Hwin.
  destruct (_ <? _) eqn:E1 in Hwin; [done|].
  destruct (_ <? _) eqn:E2 in Hwin; [done|].
  apply Z.ltb_ge in E2. lia.
Qed.

Lemma assign_linked item clusters clusters' :
  assign c item clusters = Some clusters' →
  Forall timeOrdered clusters →
  Forall (λ cl, linked c (Cluster.Items cl)) clusters →
  Forall (λ cl, linked c (Cluster.Items cl)) clusters'.
Proof.
  revert clusters'. induction clusters as [|cl rest IH]; intros clusters' H Hall Hl; [done|].
  simpl in H. apply Forall_cons in Hall as [Hcl Hrest]. apply Forall_cons in Hl as [Hlcl Hlrest].
  assert (Hrec : ∀ r, cons cl <$> assign c item rest = Some r →
                      Forall (λ cl, linked c (Cluster.Items cl)) r).
  { intros r Hr. destruct (assign c item rest) as [rest'|]; [|done].
    injection Hr as <-. constructor; [done|]. by apply IH. }
  destruct (_ <=? _); [by apply Hrec|].
  destruct (withinWindow _ _ _ _) eqn:Ew; [|by apply Hrec]. simpl in H.
  destruct (clusterContainsRelated _ _ _) eqn:Er; [|by apply Hrec].
  injection H as <-. constructor; [|done]. by apply absorb_linked.
Qed.

Lemma linked_singleton item : linked c [item].
Proof. intros i prev item' Hprev Hitem. by destruct i. Qed.

Lemma foldl_place_linked clusters items :
  StronglySorted (λ a b, NewsItem.PublishedAt a <= NewsItem.PublishedAt b) items →
  Forall timeOrdered clusters →
  (∀ i x, i ∈ allItems clusters → x ∈ items →
          NewsItem.PublishedAt i <= NewsItem.PublishedAt x) →
  Forall (λ cl, linked c (Cluster.Items cl)) clusters →
  Forall (λ cl, linked c (Cluster.Items cl)) (foldl (place uuid c) clusters items).
Proof.
  intros Hs. revert clusters.
  induction Hs as [|x items Hs IH Hx]; intros clusters Hall Hle Hl; [done|].
  simpl. apply IH.
  - apply place_timeOrdered; [done|].
    rewrite Forall_forall. intros cl Hcl. rewrite Forall_forall. intros i Hi.
    apply Hle; [|by left]. apply elem_of_concat. exists (Cluster.Items cl).
    split; [|done]. by apply list_elem_of_fmap_2.
  - intros i y Hi Hy. rewrite place_Permutation in Hi.
    apply elem_of_cons in Hi as [->|Hi].
    + rewrite Forall_forall in Hx. by apply Hx.
    + apply Hle; [done|by right].
  - unfold place. destruct (assign c x clusters) as [clusters'|] eqn:Ea.
    + by eapply assign_linked.
    + apply Forall_app. split; [done|]. constructor; [apply linked_singleton|constructor].
Qed.

(** X17: in every cluster that the heuristic clusterer returns, each item
    after the first is at most the time window later than the item before
    it, and is related to an item before it at the clusterer's
    threshold. *)
Theorem heuristic_clusters_linked (items : list NewsItem) :
  Forall (λ cl, linked c (Cluster.Items cl)) (BuildClusters uuid c items).
Proof.
  unfold BuildClusters. destruct items as [|i items]; [constructor|].
  apply foldl_place_linked.
  - apply (Slice_by_time NewsItem.PublishedAt).
  - constructor.
  - intros i' x Hi. by apply elem_of_nil in Hi.
  - constructor.
Qed.

End heuristic_links.

(** ** Reading the reply of the model *)

Section reply.

Lemma IndexByte_cons c d r :
  GoStrings.IndexByte c (String d r) =
  if Ascii.eqb c d then Some 0%nat else S <$> GoStrings.IndexByte c r.
Proof. done. Qed.

Lemma LastIndexByte_cons c d r :
  GoStrings.LastIndexByte c (String d r) =
  match GoStrings.LastIndexByte c r with
  | Some i => Some (S i)
  | None => if Ascii.eqb c d then Some 0%nat else None
  end.
Proof. done. Qed.

Lemma LastIndexByte_split c s j :
  GoStrings.LastIndexByte c s = Some j →
  ∃ mid post, s = mid +:+ String c post ∧ String.length mid = j ∧
              GoStrings.LastIndexByte c post = None.
Proof.
  revert j. induction s as [|d r IH]; intros j H; [done|]. rewrite LastIndexByte_cons in H.
  destruct (GoStrings.LastIndexByte c r) as [i|] eqn:E.
  - injection H as <-. destruct (IH i eq_refl) as (mid & post & -> & Hlen & Hpost).
    exists (String d mid), post. rewrite append_cons. simpl. by rewrite Hlen.
  - destruct (Ascii.eqb_spec c d) as [->|]; [|done]. injection H as <-.
    by exists "", r.
Qed.

Lemma extract_split s i j :
  GoStrings.IndexByte "{" s = Some i → GoStrings.LastIndexByte "}" s = Some j → (i < j)%nat →
  ∃ pre body post,
    s = pre +:+ String "{" (body +:+ String "}" post) ∧
    String.length pre = i ∧ (i + 1 + String.length body = j)%nat ∧
    GoStrings.IndexByte "{" pre = None ∧ GoStrings.LastIndexByte "}" post = None.
Proof.
  revert i j. induction s as [|d r IH]; intros i j Hi Hj Hlt; [done|].
  rewrite IndexByte_cons in Hi. rewrite LastIndexByte_cons in Hj.
  destruct (GoStrings.LastIndexByte "}" r) as [j'|] eqn:Ej; cycle 1.
  { destruct (Ascii.eqb "}" d); [|done]. injection Hj as <-. lia. }
  injection Hj as <-.
  destruct (Ascii.eqb_spec "{"%char d) as [<-|Hd].
  - injection Hi as <-.
    destruct (LastIndexByte_split _ _ _ Ej) as (body & post & -> & Hlen & Hpost).
    exists "", body, post. repeat split; try done. simpl. lia.
  - destruct (GoStrings.IndexByte "{" r) as [i'|] eqn:Ei; [|done]. injection Hi as <-.
    destruct (IH i' j' eq_refl eq_refl ltac:(lia)) as (pre & body & post & -> & Hl & Hb & Hp & Hq).
    exists (String d pre), body, post. rewrite append_cons, IndexByte_cons.
    rewrite Hp. destruct (Ascii.eqb_spec "{"%char d); [done|].
    repeat split; try done; simpl; lia.
Qed.

Lemma substring_skip pre s n :
  String.substring (String.length pre) n (pre +:+ s) = String.substring 0 n s.
Proof. induction pre as [|c pre IH]; [done|]. by rewrite append_cons. Qed.

Lemma substring_prefix a b :
  String.substring 0 (String.length a) (a +:+ b) = a.
Proof.
  induction a as [|c a IH]; [by destruct b|]. rewrite append_cons. simpl. by rewrite IH.
Qed.

Lemma length_append (a b : string) :
  String.length (a +:+ b) = (String.length a + String.length b)%nat.
Proof. induction a as [|c a IH]; [done|]. rewrite append_cons. simpl. by rewrite IH. Qed.

Lemma append_assoc (a b c : string) : (a +:+ b) +:+ c = a +:+ (b +:+ c).
Proof. induction a as [|x a IH]; [done|]. rewrite !append_cons. by rewrite IH. Qed.

Lemma IndexByte_head c s : GoStrings.IndexByte c (String c s) = Some 0%nat.
Proof. by rewrite IndexByte_cons, Ascii.eqb_refl. Qed.

Lemma LastIndexByte_last c body :
  GoStrings.LastIndexByte c (body +:+ String c "") = Some (String.length body).
Proof.
  induction body as [|d body IH].
  - change ("" +:+ String c "") with (String c ""). by rewrite LastIndexByte_cons, Ascii.eqb_refl.
  - rewrite append_cons, LastIndexByte_cons. by rewrite IH.
Qed.

(** X18: [extractJSON] returns the empty string, or the part of the
    content from its first opening brace to its last closing brace, both
    included; nothing before that part holds an opening brace and nothing
    after it a closing one.  Extracting from the result gives the result. *)
Theorem extractJSON_object (content : string) :
  (extractJSON content = "" ∨
   ∃ pre body post,
     content = pre +:+ String "{" (body +:+ "}") +:+ post ∧
     extractJSON content = String "{" (body +:+ "}") ∧
     GoStrings.IndexByte "{" pre = None ∧
     GoStrings.LastIndexByte "}" post = None) ∧
  extractJSON (extractJSON content) = extractJSON content.
Proof.
  assert (Hcases : extractJSON content = "" ∨
    ∃ pre body post,
      content = pre +:+ String "{" (body +:+ "}") +:+ post ∧
      extractJSON content = String "{" (body +:+ "}") ∧
      GoStrings.IndexByte "{" pre = None ∧
      GoStrings.LastIndexByte "}" post = None).
  { unfold extractJSON.
    destruct (GoStrings.IndexByte "{" content) as [i|] eqn:Ei; [|by left].
    destruct (GoStrings.LastIndexByte "}" content) as [j|] eqn:Ej; [|by left].
    destruct (Nat.leb_spec j i) as [|Hlt]; [by left|]. right.
    destruct (extract_split _ _ _ Ei Ej Hlt) as (pre & body & post & -> & Hl & Hb & Hp & Hq).
    assert (Hobj : String "{" (body +:+ String "}" post) = String "{" (body +:+ "}") +:+ post).
    { rewrite append_cons, append_assoc. done. }
    exists pre, body, post. split; [by rewrite Hobj|]. split; [|done].
    rewrite <- Hl, substring_skip, Hobj.
    replace (j + 1 - String.length pre)%nat
      with (String.length (String "{" (body +:+ "}"))) by (simpl; rewrite length_append; simpl; lia).
    apply substring_prefix. }
  split; [exact Hcases|].
  destruct Hcases as [->|(pre & body & post & _ & -> & _)]; [done|].
  unfold extractJSON. rewrite IndexByte_head.
  change (String "{" (body +:+ "}")) with (String "{" body +:+ "}").
  rewrite (LastIndexByte_last "}" (String "{" body)). simpl Nat.leb.
  replace (String.length (String "{" body) + 1 - 0)%nat
    with (String.length (String "{" body +:+ "}")) by (rewrite length_append; simpl; lia).
  pose proof (substring_prefix (String "{" body +:+ "}") "") as Hsub.
  by rewrite append_nil_r in Hsub.
Qed.

Lemma collect_values (vals : list string) (set : gset string) :
  foldl (λ set val, let val := GoStrings.TrimSpace val in
                    if decide (val = "") then set else {[val]} ∪ set) set vals
  = set ∪ list_to_set (filter (λ v, v ≠ "") (GoStrings.TrimSpace <$> vals)).
Proof.
  revert set. induction vals as [|v vals IH]; intros set; simpl; [set_solver|].
  rewrite IH, filter_cons. destruct (decide (GoStrings.TrimSpace v = "")) as [E|E].
  - rewrite decide_False by (intros H; by apply H). done.
  - rewrite decide_True by done. set_solver.
Qed.

Lemma collect_items (items : list NewsItem) (selector : NewsItem → list string)
    (set : gset string) :
  foldl (λ set item,
           foldl (λ set val, let val := GoStrings.TrimSpace val in
                             if decide (val = "") then set else {[val]} ∪ set)
                 set (selector item)) set items
  = set ∪ list_to_set (filter (λ v, v ≠ "") (GoStrings.TrimSpace <$> (items ≫= selector))).
Proof.
  revert set. induction items as [|item items IH]; intros set; [simpl; set_solver|].
  rewrite bind_cons, fmap_app, filter_app. simpl.
  rewrite IH, collect_values. set_solver.
Qed.

(** X19: when the values that the selector gives for the items are ASCII
    strings, [collectStrings] returns, in ascending order and without
    repetition, exactly the non-empty trimmed ones among them. *)
Theorem collectStrings_sorted_set (items : list NewsItem) (selector : NewsItem → list string) :
  Forall isASCII (items ≫= selector) →
  StronglySorted String.le (collectStrings items selector) ∧
  NoDup (collectStrings items selector) ∧
  ∀ x, x ∈ collectStrings items selector ↔
       x ≠ "" ∧ ∃ item v, item ∈ items ∧ v ∈ selector item ∧ x = GoStrings.TrimSpace v.
Proof.
  intros _. unfold collectStrings. rewrite collect_items.
  split; [apply Strings_sorted|]. split.
  - rewrite Strings_Permutation. apply NoDup_elements.
  - intros x. rewrite Strings_Permutation, elem_of_elements, elem_of_union, elem_of_list_to_set.
    rewrite list_elem_of_filter, list_elem_of_fmap.
    split.
    + intros [Hx|[Hne (v & -> & Hv)]]; [set_solver|]. split; [done|].
      apply list_elem_of_bind in Hv as (item & Hv & Hitem). by exists item, v.
    + intros [Hne (item & v & Hitem & Hv & ->)]. right. split; [done|].
      exists v. split; [done|]. apply list_elem_of_bind. by exists item.
Qed.

Lemma omap_length_le {A B} (f : A → option B) (l : list A) :
  (length (omap f l) ≤ length l)%nat.
Proof.
  induction l as [|x l IH]; [done|].
  change (omap f (x :: l)) with (match f x with Some y => y :: omap f l | None => omap f l end).
  destruct (f x); simpl; lia.
Qed.

Lemma itemByID_of_lookup_gen (items : list NewsItem) (m : gmap string NewsItem) id item :
  foldl (λ m item, <[NewsItem.ID item := item]> m) m items !! id = Some item →
  (item ∈ items ∧ NewsItem.ID item = id) ∨ m !! id = Some item.
Proof.
  revert m. induction items as [|x items IH]; intros m H; [by right|]. simpl in H.
  apply IH in H as [[Hin Hid]|H]; [left; split; [by right|done]|].
  destruct (decide (NewsItem.ID x = id)) as [E|E].
  - rewrite <- E, lookup_insert_eq in H. injection H as <-. left. split; [by left|done].
  - rewrite lookup_insert_ne in H by done. by right.
Qed.

Lemma itemByID_of_lookup (items : list NewsItem) id item :
  itemByID_of items !! id = Some item → item ∈ items ∧ NewsItem.ID item = id.
Proof.
  intros H. apply itemByID_of_lookup_gen in H as [H|H]; [done|].
  by rewrite lookup_empty in H.
Qed.

Lemma resolveCluster_resolved items declared cl :
  resolveCluster (itemByID_of items) declared = Some cl → resolvedFrom items cl.
Proof.
  unfold resolveCluster. cbv zeta.
  destruct (omap _ (llmCluster.NewsIDs declared)) as [|first rest] eqn:Eitems; [done|].
  intros [= <-]. simpl.
  assert (Hsub : first :: rest ⊆ items).
  { intros x Hx. rewrite <- Eitems in Hx. apply list_elem_of_omap in Hx as (id & _ & Hid).
    by apply itemByID_of_lookup in Hid as [? _]. }
  set (sorted := GoSort.Slice byPublishedAt (first :: rest)).
  assert (Hperm : sorted ≡ₚ first :: rest) by apply Slice_Permutation.
  split; [|split; [|split; [|split]]].
  - destruct sorted as [|f r] eqn:Es.
    + by apply Permutation_nil_cons in Hperm.
    + exists f, r. split; [done|]. split; [done|]. by rewrite last_cons.
  - intros x Hx. apply Hsub. by rewrite <- Hperm.
  - apply (Slice_by_time NewsItem.PublishedAt).
  - by eexists.
  - set (chosen := if decide (llmCluster.PrimaryNewsID declared ≠ "")
                   then match itemByID_of items !! llmCluster.PrimaryNewsID declared with
                        | Some candidate => candidate
                        | None => first
                        end
                   else first).
    assert (Hchosen : chosen ∈ items).
    { unfold chosen. case_decide; [|apply Hsub; by left].
      destruct (itemByID_of items !! _) as [candidate|] eqn:Ec; [|apply Hsub; by left].
      by apply itemByID_of_lookup in Ec as [? _]. }
    exists chosen. split; [done|]. destruct (_ && _); [right; by eexists|by left].
Qed.

Section parse.
Variable json_Unmarshal : string → result (list llmCluster).

(** X20: [parseResponse] fails when the content holds no JSON object,
    when the object does not decode, and when it declares no cluster.
    Otherwise it returns at most one cluster for each declared one, and
    each returned cluster has at least one item, all of them items of the
    input in ascending order of time, the times of the first and the
    last as its start and end, annotations, and an item of the input as
    its primary, possibly with the summary of the annotations. *)
Theorem parseResponse_result (content : string) (items : list NewsItem) :
  match parseResponse json_Unmarshal content items with
  | Ok clusters =>
      ∃ decoded,
        json_Unmarshal (extractJSON content) = Ok decoded ∧
        decoded ≠ [] ∧
        (length clusters ≤ length decoded)%nat ∧
        Forall (resolvedFrom items) clusters
  | Err e =>
      (extractJSON content = "" ∧ e = errorString "llm response missing json payload") ∨
      (∃ err, json_Unmarshal (extractJSON content) = Err err ∧
              e = wrapError "llm response decode" err) ∨
      (json_Unmarshal (extractJSON content) = Ok [] ∧
       e = errorString "llm response contains no clusters")
  end.
Proof.
  unfold parseResponse. cbv zeta. case_decide as Hj; [by left|].
  destruct (json_Unmarshal (extractJSON content)) as [[|d decoded]|err] eqn:Eu.
  - right. by right.
  - exists (d :: decoded). split; [done|]. split; [done|]. split; [apply omap_length_le|].
    apply Forall_forall. intros cl Hcl.
    apply list_elem_of_omap in Hcl as (declared & _ & Hcl).
    by eapply resolveCluster_resolved.
  - right. left. by exists err.
Qed.
End parse.

End reply.

Lemma collectStrings_sorted_set_witness :
  Forall isASCII ([itemA; itemB] ≫= NewsItem.Entities) ∧
  NoDup (collectStrings [itemA; itemB] NewsItem.Entities) ∧
  "alpha" ∈ collectStrings [itemA; itemB] NewsItem.Entities.
Proof.
  assert (H : Forall isASCII ([itemA; itemB] ≫= NewsItem.Entities))
    by (apply (bool_decide_unpack _); vm_compute; reflexivity).
  split; [exact H|].
  split; [exact (proj1 (proj2 (collectStrings_sorted_set [itemA; itemB] NewsItem.Entities H)))|].
  apply (proj2 (proj2 (collectStrings_sorted_set [itemA; itemB] NewsItem.Entities H))).
  split; [discriminate|]. exists itemA, "alpha ".
  split; [by left|]. split; [|reflexivity]. right. right. by left.
Defined.

(** ** LLM clusterer: outcome and requests of a call *)

Section llm_outcome.
Context {St : Type}.
Variable json_MarshalIndent : list NewsItem → result string.
Variable userPrompt : string → string.
Variable json_Unmarshal : string → result (list llmCluster).

Local Abbreviation BuildLLM := (LLMBuildClusters json_MarshalIndent userPrompt json_Unmarshal).
Local Abbreviation Failure := (LLMFailure json_MarshalIndent userPrompt json_Unmarshal).

Lemma parseResponse_resolved content items clusters :
  parseResponse json_Unmarshal content items = Ok clusters →
  Forall (resolvedFrom items) clusters.
Proof.
  unfold parseResponse. cbv zeta. case_decide; [done|].
  destruct (json_Unmarshal (extractJSON content)) as [[|d decoded]|err]; [done| |done].
  intros Hok.
  replace clusters with (omap (resolveCluster (itemByID_of items)) (d :: decoded)) by congruence.
  apply Forall_forall. intros cl Hcl.
  apply list_elem_of_omap in Hcl as (declared & _ & Hcl).
  by eapply resolveCluster_resolved.
Qed.

(** X21: a call of the LLM clusterer on no items returns no clusters and
    leaves the client alone.  On items it returns the clusters that
    [parseResponse] gives for the content of the first choice of the
    client's reply to the request built from the prompt, with the state
    the client left, when there are a client, a model name, a prompt, a
    reply with a choice and at least one parsed cluster; each such
    cluster is built over the input.  In every other case it returns what
    [buildWithFallback] gives for the cause of the failure. *)
Theorem LLMBuildClusters_outcome (c : LLMClusterer St) (items : list NewsItem) (st : St) :
  (items = [] ∧ BuildLLM c items st = (Ok [], st)) ∨
  (items ≠ [] ∧ ∃ client payload resp st' choice choices clusters,
     Client c = Some client ∧ Model c ≠ "" ∧
     buildPrompt json_MarshalIndent userPrompt (promptItems c items) = Ok payload ∧
     client (requestFor c payload) st = (Ok resp, st') ∧
     llm.Choices resp = choice :: choices ∧
     parseResponse json_Unmarshal (llm.MessageContent choice) items = Ok clusters ∧
     clusters ≠ [] ∧
     BuildLLM c items st = (Ok clusters, st') ∧
     Forall (resolvedFrom items) clusters) ∨
  (items ≠ [] ∧ ∃ cause,
     Failure c items st cause ∧
     (BuildLLM c items st).1 = buildWithFallback c items cause).
Proof.
  destruct items as [|i items]; [by left|]. right.
  set (its := i :: items). assert (Hne : its ≠ []) by done.
  unfold LLMBuildClusters. fold its.
  destruct (Client c) as [client|] eqn:Hc; cycle 1.
  { right. split; [done|]. eexists. split; [apply failMisconfigured; by left|done]. }
  destruct (decide (Model c = "")) as [Hm|Hm].
  { right. split; [done|]. eexists. split; [apply failMisconfigured; by right|done]. }
  cbv zeta.
  destruct (buildPrompt json_MarshalIndent userPrompt (promptItems c its)) as [payload|err] eqn:Hp;
    cycle 1.
  { right. split; [done|]. eexists. split; [by eapply failPrompt|done]. }
  destruct (client (requestFor c payload) st) as [[resp|err] st'] eqn:Hr; cycle 1.
  { right. split; [done|]. eexists. split; [by eapply failClient|done]. }
  destruct (llm.Choices resp) as [|choice choices] eqn:Hch.
  { right. split; [done|]. eexists. split; [by eapply failNoChoices|done]. }
  destruct (parseResponse json_Unmarshal (llm.MessageContent choice) its)
    as [[|cl clusters]|err] eqn:Hparse.
  - right. split; [done|]. eexists. split; [by eapply failNoClusters|done].
  - left. split; [done|].
    exists client, payload, resp, st', choice, choices, (cl :: clusters).
    split; [done|]. split; [done|]. split; [done|]. split; [done|]. split; [done|].
    split; [done|]. split; [done|]. split; [done|].
    by eapply parseResponse_resolved.
  - right. split; [done|]. eexists. split; [by eapply failParse|done].
Qed.

End llm_outcome.

Section llm_requests.
Context {St : Type}.
Variable json_MarshalIndent : list NewsItem → result string.
Variable userPrompt : string → string.
Variable json_Unmarshal : string → result (list llmCluster).

(** X22: a call of the LLM clusterer sends one request to the chat client
    when it has items, a model name and a prompt that marshals, and none
    otherwise; whatever the reply, it sends no second one. *)
Theorem LLM_requests_per_call (c : LLMClusterer (St * nat)) (client : llm.ChatClient St)
    (items : list NewsItem) (st : St) (n : nat) :
  Client c = Some (countingClient client) →
  (LLMBuildClusters json_MarshalIndent userPrompt json_Unmarshal c items (st, n)).2.2 =
    match items, json_MarshalIndent (promptItems c items) with
    | _ :: _, Ok _ => if decide (Model c = "") then n else S n
    | _, _ => n
    end.
Proof.
  intros Hc. unfold LLMBuildClusters. destruct items as [|i items]; [done|].
  rewrite Hc. set (its := i :: items).
  destruct (decide (Model c = "")) as [Hm|Hm]; [by destruct (json_MarshalIndent _)|].
  cbv zeta. unfold buildPrompt.
  destruct (json_MarshalIndent (promptItems c its)) as [newsJSON|err]; [|done].
  unfold countingClient. simpl.
  destruct (client _ st) as [[resp|err] st']; [|done].
  destruct (llm.Choices resp) as [|choice choices]; [done|].
  by destruct (parseResponse _ _ _) as [[|cl clusters]|err].
Qed.

End llm_requests.

Lemma LLM_requests_per_call_witness :
  (LLMBuildClusters marshalStub promptStub (decodeTo [declaredSame])
     (mkLLMClusterer (Some (countingClient fakeChatClient.ChatCompletion)) "gemini-2.5-flash"
        0 0 0 None)
     [llmItem1; llmItem2] (fakeChatClient.mk "{}" None 0, 0%nat)).2.2 = 1%nat.
Proof.
  exact (LLM_requests_per_call marshalStub promptStub (decodeTo [declaredSame])
           (mkLLMClusterer (Some (countingClient fakeChatClient.ChatCompletion))
              "gemini-2.5-flash" 0 0 0 None)
           fakeChatClient.ChatCompletion [llmItem1; llmItem2]
           (fakeChatClient.mk "{}" None 0) 0%nat eq_refl).
Defined.

(** ** Rendering: timeline, notes and draft *)

Section rendering.


Lemma composeWhyNow_blank (s : Scorer) (coverage reach velocity sourceScore : Q) :
  GoStrings.TrimSpace (composeWhyNow s coverage reach velocity sourceScore) ≠ "".
Proof.
  unfold composeWhyNow. cbv zeta.
  destruct (GoMath.Qlt_bool 1 coverage), (Qle_bool 2 reach),
    (GoMath.Qlt_bool (8 # 10) velocity), (GoMath.Qlt_bool (7 # 10) sourceScore);
    by vm_compute.
Qed.

(** X24: [composeWhyNow] never returns a blank text, and it returns the
    note of a fresh development exactly when none of the four notes
    applies: coverage at most 1, reach below 2, velocity at most 0.8 and
    source score at most 0.7. *)
Theorem composeWhyNow_never_blank (s : Scorer) (coverage reach velocity sourceScore : Q) :
  GoStrings.TrimSpace (composeWhyNow s coverage reach velocity sourceScore) ≠ "" ∧
  (composeWhyNow s coverage reach velocity sourceScore
     = "fresh development / свежее развитие событий" ↔
   (coverage <= 1 ∧ reach < 2 ∧ velocity <= 8 # 10 ∧ sourceScore <= 7 # 10)%Q).
Proof.
  unfold composeWhyNow. cbv zeta.
  destruct (Qlt_bool_spec 1 coverage) as [H1|H1];
    (destruct (Qle_bool 2 reach) eqn:H2;
       [apply Qle_bool_iff in H2
       |assert (reach < 2)%Q by (apply Qnot_le_lt; intros Hle; apply Qle_bool_iff in Hle; congruence)]);
    destruct (Qlt_bool_spec (8 # 10) velocity) as [H3|H3];
    destruct (Qlt_bool_spec (7 # 10) sourceScore) as [H4|H4];
    (split; [by vm_compute|]);
    (split; [intros Heq; vm_compute in Heq; discriminate Heq || (repeat split; lra)
            |intros (?&?&?&?); try reflexivity; exfalso; lra]).
Qed.

Lemma RuneCount_cons c s :
  GoStrings.RuneCount (String c s) =
  if GoStrings.is_continuation c then GoStrings.RuneCount s else S (GoStrings.RuneCount s).
Proof. done. Qed.

Lemma RuneCount_append a b :
  GoStrings.RuneCount (a +:+ b) = (GoStrings.RuneCount a + GoStrings.RuneCount b)%nat.
Proof.
  induction a as [|c a IH]; [done|]. rewrite append_cons, !RuneCount_cons, IH.
  by destruct (GoStrings.is_continuation c).
Qed.

Lemma RuneCount_trim_left s :
  (GoStrings.RuneCount (GoStrings.trim_left s) ≤ GoStrings.RuneCount s)%nat.
Proof.
  induction s as [|c s IH]; [done|]. simpl GoStrings.trim_left.
  destruct (GoStrings.is_space c); [|done]. rewrite RuneCount_cons.
  destruct (GoStrings.is_continuation c); lia.
Qed.

Lemma RuneCount_trim_right s :
  (GoStrings.RuneCount (GoStrings.trim_right s) ≤ GoStrings.RuneCount s)%nat.
Proof.
  induction s as [|c s IH]; [done|]. simpl GoStrings.trim_right.
  destruct (GoStrings.trim_right s) as [|d r] eqn:E.
  - destruct (GoStrings.is_space c).
    + rewrite RuneCount_cons. simpl. destruct (GoStrings.is_continuation c); lia.
    + rewrite !RuneCount_cons. simpl in *. destruct (GoStrings.is_continuation c); lia.
  - rewrite (RuneCount_cons c s), (RuneCount_cons c (String d r)).
    destruct (GoStrings.is_continuation c); lia.
Qed.

Lemma RuneCount_TrimSpace s :
  (GoStrings.RuneCount (GoStrings.TrimSpace s) ≤ GoStrings.RuneCount s)%nat.
Proof.
  unfold GoStrings.TrimSpace.
  pose proof (RuneCount_trim_right (GoStrings.trim_left s)).
  pose proof (RuneCount_trim_left s). lia.
Qed.

Lemma RuneCount_RunePrefix max s :
  (GoStrings.RuneCount (GoStrings.RunePrefix max s) ≤ max)%nat.
Proof.
  revert max. induction s as [|c s IH]; intros max; [simpl; lia|].
  simpl GoStrings.RunePrefix. destruct (GoStrings.is_continuation c) eqn:Ec.
  - rewrite RuneCount_cons, Ec. apply IH.
  - destruct max as [|max]; [done|]. rewrite RuneCount_cons, Ec.
    specialize (IH max). lia.
Qed.

(** X25: [truncate] returns at most [max] + 1 runes: the trimmed text
    when that has at most [max] runes, otherwise at most [max] runes
    followed by an ellipsis. *)
Theorem truncate_rune_bound (text : string) (max : nat) :
  (GoStrings.RuneCount (truncate text max) ≤ S max)%nat ∧
  (truncate text max = GoStrings.TrimSpace text ∨
   ∃ kept, truncate text max = kept +:+ "…" ∧
           (GoStrings.RuneCount kept ≤ max)%nat ∧
           (max < GoStrings.RuneCount (GoStrings.TrimSpace text))%nat).
Proof.
  unfold truncate. cbv zeta.
  destruct (Nat.leb_spec (GoStrings.RuneCount (GoStrings.TrimSpace text)) max) as [Hle|Hgt].
  - split; [lia|by left].
  - set (kept := GoStrings.TrimSpace (GoStrings.RunePrefix max (GoStrings.TrimSpace text))).
    assert (Hkept : (GoStrings.RuneCount kept ≤ max)%nat).
    { unfold kept. etrans; [apply RuneCount_TrimSpace|apply RuneCount_RunePrefix]. }
    split; [|right; by exists kept].
    rewrite RuneCount_append. change (GoStrings.RuneCount "…") with 1%nat. lia.
Qed.

Lemma trim_left_ellipsis a :
  ∃ c r, GoStrings.trim_left (a +:+ "…") = String c r ∧ GoStrings.is_space c = false.
Proof.
  induction a as [|c a IH].
  - eexists _, _. split; [vm_compute; reflexivity|done].
  - rewrite append_cons. simpl GoStrings.trim_left.
    destruct (GoStrings.is_space c) eqn:Ec; [done|]. by eexists _, _.
Qed.

Lemma TrimSpace_ellipsis a : GoStrings.TrimSpace (a +:+ "…") ≠ "".
Proof.
  unfold GoStrings.TrimSpace. destruct (trim_left_ellipsis a) as (c & r & -> & Ec).
  by destruct (trim_right_head c r Ec) as [r' ->].
Qed.

Lemma truncate_blank text max :
  GoStrings.TrimSpace (truncate text max) = "" → GoStrings.TrimSpace text = "".
Proof.
  unfold truncate. cbv zeta. destruct (Nat.leb _ max).
  - by rewrite TrimSpace_idem.
  - intros H. by apply TrimSpace_ellipsis in H.
Qed.

Lemma buildDraft_fields (cluster : Cluster) (entities tickers : list string)
    (sources : list SourceRef) (whyNow : string) :
  Draft.Title (buildDraft cluster entities tickers sources whyNow).1
    = NewsItem.Headline (Cluster.Primary cluster) ∧
  last (Draft.Bullets (buildDraft cluster entities tickers sources whyNow).1)
    = Some ("Why now / Почему сейчас: " +:+ whyNow).
Proof.
  unfold buildDraft. cbv zeta. destruct (selectQuote sources) as [quote srcs].
  cbn [fst Draft.Title Draft.Bullets]. split; [done|apply last_snoc].
Qed.

(** X26: the draft has the headline of the primary item as its title;
    its bullets are one for the entities when there are any, one for the
    tickers when there are any, and last the Why-now bullet with the given
    text; when the summary and the body of the primary item and the
    summaries of the annotations are ASCII strings, its lead is blank only
    when the summary and the body of the primary item are blank. *)
Theorem buildDraft_shape (cluster : Cluster) (entities tickers : list string)
    (sources : list SourceRef) (whyNow : string) :
  let draft := (buildDraft cluster entities tickers sources whyNow).1 in
  Draft.Title draft = NewsItem.Headline (Cluster.Primary cluster) ∧
  last (Draft.Bullets draft) = Some ("Why now / Почему сейчас: " +:+ whyNow) ∧
  length (Draft.Bullets draft) =
    ((if entities is [] then 0 else 1) + (if tickers is [] then 0 else 1) + 1)%nat ∧
  (isASCII (NewsItem.Summary (Cluster.Primary cluster)) →
   isASCII (NewsItem.Body (Cluster.Primary cluster)) →
   (∀ annotations, Cluster.Annotations cluster = Some annotations →
      isASCII (ClusterAnnotations.SummaryEN annotations) ∧
      isASCII (ClusterAnnotations.SummaryRU annotations)) →
   GoStrings.TrimSpace (Draft.Lead draft) = "" →
     GoStrings.TrimSpace (NewsItem.Summary (Cluster.Primary cluster)) = "" ∧
     GoStrings.TrimSpace (NewsItem.Body (Cluster.Primary cluster)) = "").
Proof.
  cbv zeta. unfold buildDraft. cbv zeta.
  destruct (selectQuote sources) as [quote srcs].
  cbn [fst Draft.Title Draft.Bullets Draft.Lead].
  split; [done|]. split; [apply last_snoc|]. split.
  - rewrite length_app. destruct entities, tickers; simpl; try rewrite length_app; simpl; lia.
  - intros _ _ _.
    set (lead := if decide (GoStrings.TrimSpace (NewsItem.Summary (Cluster.Primary cluster)) = "")
                 then truncate (NewsItem.Body (Cluster.Primary cluster)) 240
                 else NewsItem.Summary (Cluster.Primary cluster)).
    assert (Hlead : GoStrings.TrimSpace lead = "" →
              GoStrings.TrimSpace (NewsItem.Summary (Cluster.Primary cluster)) = "" ∧
              GoStrings.TrimSpace (NewsItem.Body (Cluster.Primary cluster)) = "").
    { unfold lead. case_decide as Es; [|done]. intros Hb. split; [done|].
      by apply truncate_blank in Hb. }
    destruct (Cluster.Annotations cluster) as [annotations|]; [|done].
    cbv zeta. case_decide; [done|exact Hlead].
Qed.

Lemma append_nonempty (a b : string) : a ≠ "" → a +:+ b ≠ "".
Proof. destruct a; [done|]. by rewrite append_cons. Qed.

Lemma TrimSpace_nonblank (a : string) : GoStrings.TrimSpace a ≠ "" → a ≠ "".
Proof. by intros H ->. Qed.

Lemma TrimSpace_head s :
  GoStrings.TrimSpace s = "" ∨
  ∃ c r, GoStrings.TrimSpace s = String c r ∧ GoStrings.is_space c = false.
Proof.
  unfold GoStrings.TrimSpace.
  destruct (trim_left_head s) as [->|(c & r & -> & Ec)]; [by left|]. right.
  destruct (trim_right_head c r Ec) as [r' ->]. by exists c, r'.
Qed.

Lemma TrimSpace_append_nonblank a b :
  GoStrings.TrimSpace a ≠ "" → GoStrings.TrimSpace (GoStrings.TrimSpace a +:+ b) ≠ "".
Proof.
  intros Ha. destruct (TrimSpace_head a) as [E|(c & r & -> & Ec)]; [done|].
  rewrite append_cons. unfold GoStrings.TrimSpace. simpl GoStrings.trim_left. rewrite Ec.
  by destruct (trim_right_head c (r +:+ b) Ec) as [r' ->].
Qed.

Lemma bilingual_trimmed en ru :
  bilingual en ru ≠ "" → GoStrings.TrimSpace (bilingual en ru) ≠ "".
Proof.
  unfold bilingual. cbv zeta.
  destruct (decide (GoStrings.TrimSpace en = "")) as [Een|Een].
  - by rewrite TrimSpace_idem.
  - destruct (decide (GoStrings.TrimSpace ru = "")) as [Eru|Eru].
    + by rewrite TrimSpace_idem.
    + intros _. by apply TrimSpace_append_nonblank.
Qed.

(** X27: the event of a cluster with items has the headline of the
    primary item as headline and as title of its draft, the timeline of
    the cluster, a Why-now text that is not empty, and that same text in
    the last bullet of its draft.  When the annotations carry a Why-now
    text, the event's text is that text, a bar, and the composed notes:
    the branch for blank notes is never taken. *)
Theorem buildEvent_rendering (s : Scorer) (cluster : Cluster) :
  Cluster.Items cluster ≠ [] →
  let ev := buildEvent s cluster in
  Event.Headline ev = NewsItem.Headline (Cluster.Primary cluster) ∧
  Draft.Title (Event.Draft ev) = Event.Headline ev ∧
  Event.Timeline ev = buildTimeline cluster ∧
  Event.WhyNow ev ≠ "" ∧
  last (Draft.Bullets (Event.Draft ev)) =
    Some ("Why now / Почему сейчас: " +:+ Event.WhyNow ev) ∧
  (∀ annotations,
     Cluster.Annotations cluster = Some annotations →
     let llmWhy := bilingual (ClusterAnnotations.WhyNowEN annotations)
                             (ClusterAnnotations.WhyNowRU annotations) in
     llmWhy ≠ "" →
     ∃ notes, Event.WhyNow ev = llmWhy +:+ " | " +:+ notes ∧ GoStrings.TrimSpace notes ≠ "").
Proof.
  intros Hne ev. subst ev. unfold buildEvent.
  destruct (Cluster.Items cluster) as [|first rest] eqn:Hitems; [done|].
  cbv zeta.
  set (notes := composeWhyNow s _ _ _ _).
  assert (Hnotes : GoStrings.TrimSpace notes ≠ "") by apply composeWhyNow_blank.
  set (whyNow := match Cluster.Annotations cluster with Some _ => _ | None => notes end).
  pose proof (buildDraft_fields cluster
                (GoSort.Strings (entities (scanItems (first :: rest) first)))
                (GoSort.Strings (tickers (scanItems (first :: rest) first)))
                (sources (scanItems (first :: rest) first)) whyNow) as (Htitle & Hlast).
  destruct (buildDraft _ _ _ _ _) as [draft srcs].
  cbn [Event.Headline Event.Draft Event.Timeline Event.WhyNow fst] in *.
  split; [done|]. split; [done|]. split; [done|]. split; [|split; [done|]].
  - unfold whyNow. destruct (Cluster.Annotations cluster) as [annotations|];
      [|by apply TrimSpace_nonblank].
    cbv zeta. case_decide as Hl; [|by apply TrimSpace_nonblank].
    rewrite decide_True by done. by apply append_nonempty, TrimSpace_nonblank.
  - intros annotations Hann Hllm. exists notes. split; [|done].
    unfold whyNow. rewrite Hann. cbv zeta.
    rewrite decide_True by (by apply bilingual_trimmed).
    by rewrite decide_True by done.
Qed.

End rendering.

Lemma buildDraft_shape_witness :
  isASCII (NewsItem.Summary (Cluster.Primary wireCluster)) ∧
  isASCII (NewsItem.Body (Cluster.Primary wireCluster)) ∧
  GoStrings.TrimSpace (NewsItem.Summary (Cluster.Primary wireCluster)) = "" ∧
  GoStrings.TrimSpace (NewsItem.Body (Cluster.Primary wireCluster)) = "".
Proof.
  assert (Hs : isASCII (NewsItem.Summary (Cluster.Primary wireCluster)))
    by (apply (bool_decide_unpack _); vm_compute; reflexivity).
  assert (Hb : isASCII (NewsItem.Body (Cluster.Primary wireCluster)))
    by (apply (bool_decide_unpack _); vm_compute; reflexivity).
  split; [exact Hs|]. split; [exact Hb|].
  apply (proj2 (proj2 (proj2 (buildDraft_shape wireCluster [] [] [] "now"))) Hs Hb).
  - intros annotations H. discriminate H.
  - vm_compute. reflexivity.
Defined.

Lemma buildEvent_rendering_witness :
  Cluster.Items wireCluster ≠ [] ∧ Event.WhyNow (buildEvent DefaultScorer wireCluster) ≠ "".
Proof.
  assert (H : Cluster.Items wireCluster ≠ []) by discriminate.
  split; [exact H|].
  exact (proj1 (proj2 (proj2 (proj2 (buildEvent_rendering DefaultScorer wireCluster H))))).
Defined.

(** ** HTTP transport *)

Section transport_facts.
Variable strconv_Atoi : string → result Z.
Variable time_Parse : string → result Time.
Variable json_DecodePayload : string → result ingestPayload.

Lemma wrap64_neg_window d : 0 <= d <= maxDuration → wrap64 (- d) = - d.
Proof.
  unfold wrap64, maxDuration. intros [H0 H1].
  rewrite Z.mod_small; lia.
Qed.

Lemma parseParams_from_le_to (s : Server) (values : string → string) (now : Time) :
  0 <= Server.defaultWindow s <= maxDuration →
  timeframe.from (parseParams strconv_Atoi time_Parse s values now)
  <= timeframe.to (parseParams strconv_Atoi time_Parse s values now).
Proof.
  intros Hw. unfold parseParams. cbv zeta. cbn [timeframe.from timeframe.to].
  rewrite (wrap64_neg_window _ Hw).
  unfold After, Add. match goal with |- context [?a <? ?b] => destruct (Z.ltb_spec a b) end; lia.
Qed.


Lemma transport_dedupeStrings_eq values : transport_dedupeStrings values = dedupeStrings values.
Proof. reflexivity. Qed.

Lemma defaultString_nonblank value fallback :
  GoStrings.TrimSpace fallback ≠ "" → GoStrings.TrimSpace (defaultString value fallback) ≠ "".
Proof. intros Hf. unfold defaultString. by case_decide. Qed.

Lemma IngestAdd_stored newID addNow store news :
  let '(stored, store') := IngestAdd newID addNow store news in
  stored ∈ IngestSource.items store' ∧
  NewsItem.Headline stored = NewsItem.Headline news ∧
  NewsItem.URL stored = NewsItem.URL news ∧
  NewsItem.Source stored = NewsItem.Source news ∧
  NewsItem.Language stored = NewsItem.Language news ∧
  NewsItem.Tickers stored = NewsItem.Tickers news ∧
  NewsItem.Entities stored = NewsItem.Entities news ∧
  NewsItem.ID stored = (if decide (NewsItem.ID news = "") then newID else NewsItem.ID news) ∧
  NewsItem.PublishedAt stored =
    (if IsZero (NewsItem.PublishedAt news) then addNow else NewsItem.PublishedAt news).
Proof.
  pose proof (IngestAdd_stored_elem newID addNow store news) as Hin.
  destruct (IngestAdd newID addNow store news) as [stored store'] eqn:E.
  split; [done|].
  assert (Hs : stored = (IngestAdd newID addNow store news).1) by (by rewrite E).
  rewrite Hs. unfold IngestAdd. cbv zeta. clear.
  set (item1 := if decide (NewsItem.ID news = "") then withID news newID else news).
  set (item2 := if IsZero (NewsItem.PublishedAt item1) then withPublishedAt item1 addNow else item1).
  assert (H1 : (match replaceByID item2 (IngestSource.items store) with
                | Some items => (item2, IngestSource.mk (IngestSource.name store) items)
                | None => (item2, IngestSource.mk (IngestSource.name store)
                                    (IngestSource.items store ++ [item2]))
                end).1 = item2) by (by destruct (replaceByID _ _)).
  rewrite H1. clear H1. unfold item2, IsZero.
  assert (H1 : NewsItem.Headline item1 = NewsItem.Headline news ∧
               NewsItem.URL item1 = NewsItem.URL news ∧
               NewsItem.Source item1 = NewsItem.Source news ∧
               NewsItem.Language item1 = NewsItem.Language news ∧
               NewsItem.Tickers item1 = NewsItem.Tickers news ∧
               NewsItem.Entities item1 = NewsItem.Entities news ∧
               NewsItem.ID item1 =
                 (if decide (NewsItem.ID news = "") then newID else NewsItem.ID news) ∧
               NewsItem.PublishedAt item1 = NewsItem.PublishedAt news).
  { unfold item1. case_decide; simpl; repeat split; done. }
  destruct H1 as (<- & <- & <- & <- & <- & <- & <- & <-).
  destruct (Z.eqb_spec (NewsItem.PublishedAt item1) 0); simpl; repeat split; done.
Qed.



End transport_facts.



